(** * ColorSign: a shallow embedding of the ML-DSA helper code

    The C++ sources are embedded as executable Rocq functions:
    fixed-width integers are [Z] with their wrap-around written out,
    byte buffers and coefficient arrays are [list Z], thrown exceptions
    and reads outside a buffer are [None].

    Part I holds the definitions, one module per source file; Part II
    holds the theorems. *)

From Stdlib Require Import ZArith List Lia Bool Arith.
From coqutil Require Import Z.bitblast.
Import ListNotations.
Local Open Scope Z_scope.

(* ===================================================================== *)
(** * Part I: definitions                                                 *)
(* ===================================================================== *)

(** ** Fixed-width integers *)
Module MachineInt.

Definition u8 (x : Z) : Z := x mod 2 ^ 8.
Definition u32 (x : Z) : Z := x mod 2 ^ 32.
Definition u64 (x : Z) : Z := x mod 2 ^ 64.

(** Two's complement reading of the low [w] bits. *)
Definition signed (w : Z) (x : Z) : Z :=
  let r := x mod 2 ^ w in
  if r <? 2 ^ (w - 1) then r else r - 2 ^ w.

Definition i32 (x : Z) : Z := signed 32 x.
Definition i64 (x : Z) : Z := signed 64 x.

End MachineInt.
Import MachineInt.

(** A small option monad for code that throws or reads out of bounds. *)
Definition obind {A B : Type} (m : option A) (f : A -> option B) : option B :=
  match m with
  | Some a => f a
  | None => None
  end.

Notation "'do' x <- m ; k" := (obind m (fun x => k))
  (at level 10, x pattern, m at level 100, k at level 200).

(** ** windows/sign/src/core/color_integration.cpp *)
Module ColorIntegration.

(** The four [push_back]s of one coefficient: big-endian RGBA. *)
Definition rgba (coeff : Z) : list Z :=
  [ Z.land (Z.shiftr coeff 24) 255;
    Z.land (Z.shiftr coeff 16) 255;
    Z.land (Z.shiftr coeff 8) 255;
    Z.land coeff 255 ].

Definition encode_polynomial_as_colors (poly : list Z) (modulus : Z) : list Z :=
  fold_left
    (fun color_data coeff =>
       let coeff := if modulus =? 0 then coeff else coeff mod modulus in
       color_data ++ rgba coeff)
    poly [].

(** The coefficient read at byte index [i]; [None] past the end. *)
Definition read_coeff (color_data : list Z) (i : nat) : option Z :=
  do b0 <- nth_error color_data i;
  do b1 <- nth_error color_data (i + 1);
  do b2 <- nth_error color_data (i + 2);
  do b3 <- nth_error color_data (i + 3);
  Some (Z.lor (Z.lor (Z.lor (u32 (Z.shiftl b0 24)) (u32 (Z.shiftl b1 16)))
                     (u32 (Z.shiftl b2 8)))
              b3).

Definition reduce (modulus coeff : Z) : Z :=
  if modulus =? 0 then coeff else coeff mod modulus.

(** [for (i = 0; i < size; i += 4)], [count] iterations from index [i]. *)
Fixpoint decode_loop (color_data : list Z) (modulus : Z) (count i : nat)
  : option (list Z) :=
  match count with
  | O => Some []
  | S count' =>
      do coeff <- read_coeff color_data i;
      do rest <- decode_loop color_data modulus count' (i + 4);
      Some (reduce modulus coeff :: rest)
  end.

Definition decode_colors_to_polynomial (color_data : list Z) (modulus : Z)
  : option (list Z) :=
  if negb (Nat.eqb (length color_data mod 4) 0) then None
  else decode_loop color_data modulus (length color_data / 4) 0.

Definition encode_polynomial_vector_as_colors (poly_vector : list (list Z))
  (modulus : Z) : list Z :=
  fold_left
    (fun color_data poly =>
       color_data ++ encode_polynomial_as_colors poly modulus)
    poly_vector [].

(** The inner loop over [j], threading the running index [idx]. *)
Fixpoint decode_row (color_data : list Z) (modulus : Z) (n idx : nat)
  : option (list Z * nat) :=
  match n with
  | O => Some ([], idx)
  | S n' =>
      do coeff <- read_coeff color_data idx;
      do (rest, idx') <- decode_row color_data modulus n' (idx + 4);
      Some (reduce modulus coeff :: rest, idx')
  end.

(** The outer loop over [i]. *)
Fixpoint decode_rows (color_data : list Z) (modulus : Z) (k n idx : nat)
  : option (list (list Z)) :=
  match k with
  | O => Some []
  | S k' =>
      do (row, idx') <- decode_row color_data modulus n idx;
      do rest <- decode_rows color_data modulus k' n idx';
      Some (row :: rest)
  end.

(** [k * n * 4] is computed in [uint32_t]. *)
Definition decode_colors_to_polynomial_vector (color_data : list Z)
  (k n : nat) (modulus : Z) : option (list (list Z)) :=
  if negb (Z.of_nat (length color_data) =? u32 (Z.of_nat k * Z.of_nat n * 4))
  then None
  else decode_rows color_data modulus k n 0.

End ColorIntegration.

(** ** src/core/cose.cpp: CBOR helpers and the COSE_Sign1 envelope *)
Module Cose.

Record COSE_Sign1 : Type := mkCOSE_Sign1 {
  protected_header : list Z;
  unprotected_header : list Z;
  payload : list Z;
  signature : list Z
}.

(** [enum MajorType] *)
Definition UNSIGNED_INT : Z := 0.
Definition BYTE_STRING : Z := 2.
Definition ARRAY : Z := 4.
Definition MAP : Z := 5.

(** [static_cast<uint8_t>(major << 5) | low] *)
Definition initial_byte (major low : Z) : Z :=
  u8 (Z.lor (u8 (Z.shiftl major 5)) low).

Definition encode_bstr (data : list Z) : list Z :=
  let len := Z.of_nat (length data) in
  (if len <? 24 then
     [initial_byte BYTE_STRING (u8 len)]
   else if len <=? 255 then
     [initial_byte BYTE_STRING 24; u8 len]
   else if len <=? 65535 then
     [initial_byte BYTE_STRING 25; u8 (Z.shiftr len 8); u8 (Z.land len 255)]
   else
     [initial_byte BYTE_STRING 26;
      u8 (Z.land (Z.shiftr len 24) 255); u8 (Z.land (Z.shiftr len 16) 255);
      u8 (Z.land (Z.shiftr len 8) 255); u8 (Z.land (Z.shiftr len 0) 255)])
  ++ data.

Definition encode_array (items : list (list Z)) : list Z :=
  let len := Z.of_nat (length items) in
  (if len <? 24 then [initial_byte ARRAY (u8 len)]
   else [initial_byte ARRAY 24; u8 len])
  ++ concat items.

(** The header shared by [decode_bstr] and [decode_array]: the initial
    byte must carry [major]; the length is the minor value itself or
    the next byte; wider lengths throw.  Returns the length and the
    offset behind the header. *)
Definition decode_header (major : Z) (data : list Z) (offset : nat)
  : option (nat * nat) :=
  do initial <- nth_error data offset;
  let offset := S offset in
  let major' := Z.shiftr initial 5 in
  let minor := Z.land initial 31 in
  if negb (major' =? major) then None
  else if minor <? 24 then Some (Z.to_nat minor, offset)
  else if minor =? 24 then
    do len <- nth_error data offset;
    Some (Z.to_nat len, S offset)
  else None.

Definition decode_bstr (data : list Z) (offset : nat)
  : option (list Z * nat) :=
  do (len, offset) <- decode_header BYTE_STRING data offset;
  if (length data <? offset + len)%nat then None
  else Some (firstn len (skipn offset data), (offset + len)%nat).

(** [for (i = 0; i < len; ++i) result.push_back(decode_bstr(data, offset))] *)
Fixpoint decode_items (data : list Z) (len offset : nat)
  : option (list (list Z) * nat) :=
  match len with
  | O => Some ([], offset)
  | S len' =>
      do (item, offset) <- decode_bstr data offset;
      do (rest, offset) <- decode_items data len' offset;
      Some (item :: rest, offset)
  end.

Definition decode_array (data : list Z) (offset : nat)
  : option (list (list Z) * nat) :=
  do (len, offset) <- decode_header ARRAY data offset;
  decode_items data len offset.

Definition encode_cose_sign1 (cose_msg : COSE_Sign1) : list Z :=
  encode_array
    [ encode_bstr (protected_header cose_msg);
      encode_bstr (unprotected_header cose_msg);
      encode_bstr (payload cose_msg);
      encode_bstr (signature cose_msg) ].

Definition decode_cose_sign1 (cbor_data : list Z) : option COSE_Sign1 :=
  do (items, _) <- decode_array cbor_data 0;
  match items with
  | [i0; i1; i2; i3] => Some (mkCOSE_Sign1 i0 i1 i2 i3)
  | _ => None
  end.

(** [encode_uint] on a [uint64_t] value. *)
Definition encode_uint (value : Z) : list Z :=
  if value <? 24 then
    [initial_byte UNSIGNED_INT (u8 value)]
  else if value <=? 0xFF then
    [initial_byte UNSIGNED_INT 24; u8 value]
  else if value <=? 0xFFFF then
    [initial_byte UNSIGNED_INT 25; u8 (Z.shiftr value 8); u8 (Z.land value 255)]
  else if value <=? 0xFFFFFFFF then
    initial_byte UNSIGNED_INT 26
    :: map (fun i => u8 (Z.land (Z.shiftr value i) 255)) [24; 16; 8; 0]
  else
    initial_byte UNSIGNED_INT 27
    :: map (fun i => u8 (Z.land (Z.shiftr value i) 255))
           [56; 48; 40; 32; 24; 16; 8; 0].

(** [encode_map]: the [int] key of a pair is converted to [uint64_t]
    for [encode_uint]; the value is appended as it is. *)
Definition encode_map (pairs : list (Z * list Z)) : list Z :=
  let len := Z.of_nat (length pairs) in
  fold_left
    (fun result pair => result ++ encode_uint (u64 (fst pair)) ++ snd pair)
    pairs
    (if len <? 24 then [initial_byte MAP (u8 len)]
     else [initial_byte MAP 24; u8 len]).

Definition decode_uint (data : list Z) (offset : nat) : option (Z * nat) :=
  do initial <- nth_error data offset;
  let offset := S offset in
  let major := Z.shiftr initial 5 in
  let minor := Z.land initial 31 in
  if negb (major =? UNSIGNED_INT) then None
  else if minor <? 24 then Some (minor, offset)
  else if minor =? 24 then
    do value <- nth_error data offset;
    Some (value, S offset)
  else None.

(** [struct COSE_Header]: [alg] is an [int]. *)
Record COSE_Header : Type := mkCOSE_Header { alg : Z }.

Definition encode_cose_header (header : COSE_Header) : list Z :=
  encode_map [(1, encode_uint (u64 (alg header)))].

Definition decode_cose_header (cbor_data : list Z) : option COSE_Header :=
  do initial <- nth_error cbor_data 0;
  if negb (Z.shiftr initial 5 =? MAP) then None
  else
    let len := Z.land initial 31 in
    if negb (len =? 1) then None
    else
      do (key, offset) <- decode_uint cbor_data 1;
      if negb (key =? 1) then None
      else
        do (alg, _) <- decode_uint cbor_data offset;
        Some (mkCOSE_Header (i32 alg)).

End Cose.

(** ** src/core/utils.cpp: Keccak, the SHAKE samplers, ML-DSA helpers *)
Module Utils.

(** *** Arrays *)

(** [a[i] = v]; indices outside the array leave it unchanged (the
    callers below stay inside). *)
Fixpoint upd {A : Type} (l : list A) (i : nat) (v : A) : list A :=
  match l, i with
  | [], _ => []
  | _ :: t, O => v :: t
  | h :: t, S i' => h :: upd t i' v
  end.

(** [std::swap(a[i], a[j])] *)
Definition swap {A : Type} (d : A) (l : list A) (i j : nat) : list A :=
  upd (upd l i (nth j l d)) j (nth i l d).

(** *** Keccak-f[1600] on 25 lanes of 64 bits *)

Definition KECCAK_RC : list Z :=
  [ 0x0000000000000001; 0x0000000000008082; 0x800000000000808A;
    0x8000000080008000; 0x000000000000808B; 0x0000000080000001;
    0x8000000080008081; 0x8000000000008009; 0x000000000000008A;
    0x0000000000000088; 0x0000000080008009; 0x000000008000000A;
    0x000000008000808B; 0x800000000000008B; 0x8000000000008089;
    0x8000000000008003; 0x8000000000008002; 0x8000000000000080;
    0x000000000000800A; 0x800000008000000A; 0x8000000080008081;
    0x8000000000008080; 0x0000000080000001; 0x8000000080008008 ].

Definition KECCAK_RHO_OFFSETS : list Z :=
  [ 0; 1; 62; 28; 27;
    36; 44; 6; 55; 20;
    3; 10; 43; 25; 39;
    41; 45; 15; 21; 8;
    18; 2; 61; 56; 14 ].

Definition lane (state : list Z) (i : nat) : Z := nth i state 0.

(** [(v << offset) | (v >> (64 - offset))] on [uint64_t] *)
Definition rotl64 (v offset : Z) : Z :=
  Z.lor (u64 (Z.shiftl v offset)) (Z.shiftr v (64 - offset)).

Definition theta (state : list Z) : list Z :=
  let C := map (fun x => Z.lxor (Z.lxor (Z.lxor (Z.lxor
                   (lane state x) (lane state (x + 5))) (lane state (x + 10)))
                   (lane state (x + 15))) (lane state (x + 20)))
               (seq 0 5) in
  let D := map (fun x => Z.lxor (lane C ((x + 4) mod 5))
                                (rotl64 (lane C ((x + 1) mod 5)) 1))
               (seq 0 5) in
  fold_left
    (fun st x =>
       fold_left (fun st y => upd st (x + 5 * y)
                                  (Z.lxor (lane st (x + 5 * y)) (lane D x)))
                 (seq 0 5) st)
    (seq 0 5) state.

(** The rho rotations written to their pi positions. *)
Definition rho_pi (state : list Z) : list Z :=
  fold_left
    (fun B x =>
       fold_left (fun B y =>
                    let index := (x + 5 * y)%nat in
                    let offset := nth index KECCAK_RHO_OFFSETS 0 in
                    upd B (y + 5 * ((2 * x + 3 * y) mod 5))
                        (rotl64 (lane state index) offset))
                 (seq 0 5) B)
    (seq 0 5) (repeat 0 25).

Definition chi (B : list Z) (state : list Z) : list Z :=
  fold_left
    (fun st y =>
       let T := map (fun x => lane B (x + 5 * y)) (seq 0 5) in
       fold_left (fun st x =>
                    upd st (x + 5 * y)
                        (Z.lxor (lane T x)
                                (Z.land (u64 (Z.lnot (lane T ((x + 1) mod 5))))
                                        (lane T ((x + 2) mod 5)))))
                 (seq 0 5) st)
    (seq 0 5) state.

Definition keccak_round (state : list Z) (round : nat) : list Z :=
  let state := theta state in
  let B := rho_pi state in
  let state := chi B state in
  upd state 0 (Z.lxor (lane state 0) (nth round KECCAK_RC 0)).

Definition keccak_f1600 (state : list Z) : list Z :=
  fold_left keccak_round (seq 0 24) state.

(** *** The sponge *)

(** One pass of the [for] loop of [absorb_bytes] over a chunk. *)
Definition absorb_chunk (state : list Z) (offset : nat) (chunk : list Z) : list Z :=
  fold_left
    (fun st '(i, byte) =>
       let state_byte_index := (offset + i)%nat in
       let word_index := (state_byte_index / 8)%nat in
       let byte_in_word := (state_byte_index mod 8)%nat in
       upd st word_index
           (Z.lxor (lane st word_index)
                   (u64 (Z.shiftl byte (Z.of_nat byte_in_word * 8)))))
    (combine (seq 0 (length chunk)) chunk) state.

(** [absorb_bytes]: the [while (len > 0)] loop, at most one pass per
    input byte. *)
Fixpoint absorb_bytes (fuel : nat) (state : list Z) (rate_bytes : nat)
  (data : list Z) (offset : nat) : list Z * nat :=
  match fuel with
  | O => (state, offset)
  | S fuel' =>
      match data with
      | [] => (state, offset)
      | _ =>
          let chunk := Nat.min (length data) (rate_bytes - offset) in
          let state := absorb_chunk state offset (firstn chunk data) in
          let offset := (offset + chunk)%nat in
          let data := skipn chunk data in
          if Nat.eqb offset rate_bytes
          then absorb_bytes fuel' (keccak_f1600 state) rate_bytes data 0
          else absorb_bytes fuel' state rate_bytes data offset
      end
  end.

(** One pass of the [for] loop of [squeeze_bytes]. *)
Definition squeeze_chunk (state : list Z) (offset chunk : nat) : list Z :=
  map (fun i =>
         let state_byte_index := (offset + i)%nat in
         let word_index := (state_byte_index / 8)%nat in
         let byte_in_word := (state_byte_index mod 8)%nat in
         Z.land (Z.shiftr (lane state word_index) (Z.of_nat byte_in_word * 8)) 255)
      (seq 0 chunk).

(** [squeeze_bytes]: the [while (len > 0)] loop, at most one pass per
    output byte. *)
Fixpoint squeeze_bytes (fuel : nat) (state : list Z) (rate_bytes : nat)
  (len : nat) (offset : nat) : list Z * (list Z * nat) :=
  match fuel with
  | O => ([], (state, offset))
  | S fuel' =>
      match len with
      | O => ([], (state, offset))
      | _ =>
          let chunk := Nat.min len (rate_bytes - offset) in
          let out := squeeze_chunk state offset chunk in
          let offset := (offset + chunk)%nat in
          let len := (len - chunk)%nat in
          let '(rest, final) :=
            if Nat.eqb offset rate_bytes
            then squeeze_bytes fuel' (keccak_f1600 state) rate_bytes len 0
            else squeeze_bytes fuel' state rate_bytes len offset in
          (out ++ rest, final)
      end
  end.

(** Byte access to the lanes ([reinterpret_cast<uint8_t*>(state)] on a
    little-endian host). *)
Definition xor_state_byte (state : list Z) (i : nat) (v : Z) : list Z :=
  upd state (i / 8)
      (Z.lxor (lane state (i / 8)) (Z.shiftl v (Z.of_nat (i mod 8) * 8))).

Definition clear_state_byte (state : list Z) (i : nat) : list Z :=
  upd state (i / 8)
      (Z.ldiff (lane state (i / 8)) (Z.shiftl 255 (Z.of_nat (i mod 8) * 8))).

(** *** SHAKE128Sampler / SHAKE256Sampler

    The two classes have the same members and differ in [rate_bytes_]
    only. *)
Record Sampler : Type := mkSampler {
  state_ : list Z;
  rate_bytes_ : nat;
  offset_ : nat
}.

Definition reset (s : Sampler) : Sampler :=
  mkSampler (repeat 0 25) (rate_bytes_ s) 0.

Definition SHAKE128Sampler : Sampler := reset (mkSampler [] 168 0).
Definition SHAKE256Sampler : Sampler := reset (mkSampler [] 136 0).

Definition absorb (s : Sampler) (data : list Z) : Sampler :=
  let '(st, off) :=
    absorb_bytes (length data) (state_ s) (rate_bytes_ s) data (offset_ s) in
  mkSampler st (rate_bytes_ s) off.

Definition pad_and_absorb (s : Sampler) : Sampler :=
  let st := xor_state_byte (state_ s) (offset_ s) 0x1F in
  let st := fold_left clear_state_byte
              (seq (offset_ s + 1) (rate_bytes_ s - (offset_ s + 1))) st in
  let st := xor_state_byte st (rate_bytes_ s - 1) 0x80 in
  mkSampler (keccak_f1600 st) (rate_bytes_ s) 0.

Definition init (s : Sampler) (seed : list Z) : Sampler :=
  let s := reset s in
  let s := match seed with [] => s | _ => absorb s seed end in
  let s := pad_and_absorb s in
  mkSampler (state_ s) (rate_bytes_ s) 0.

Definition squeeze (s : Sampler) (len : nat) : list Z * Sampler :=
  let '(out, (st, off)) :=
    squeeze_bytes len (state_ s) (rate_bytes_ s) len (offset_ s) in
  (out, mkSampler st (rate_bytes_ s) off).

(** The [while (temp > 0)] loop counting the bits of [modulus - 1]. *)
Fixpoint count_bits (fuel : nat) (temp bits_needed : Z) : Z :=
  match fuel with
  | O => bits_needed
  | S fuel' =>
      if 0 <? temp then count_bits fuel' (Z.shiftr temp 1) (bits_needed + 1)
      else bits_needed
  end.

Definition bits_needed (modulus : Z) : Z := count_bits 32 (u32 (modulus - 1)) 0.

(** The masked 32-bit word of one attempt. *)
Definition uniform_candidate (bytes : list Z) (bits : Z) : Z :=
  let result :=
    u32 (Z.lor (Z.lor (Z.lor (nth 0 bytes 0) (Z.shiftl (nth 1 bytes 0) 8))
                      (Z.shiftl (nth 2 bytes 0) 16))
               (Z.shiftl (nth 3 bytes 0) 24)) in
  Z.land result (u32 (u32 (Z.shiftl 1 bits) - 1)).

(** The [while (true)] loop; [None] when [fuel] attempts were all
    rejected. *)
Fixpoint sample_uniform_loop (fuel : nat) (s : Sampler) (bits modulus : Z)
  : option (Z * Sampler) :=
  match fuel with
  | O => None
  | S fuel' =>
      let '(bytes, s) := squeeze s 4 in
      let result := uniform_candidate bytes bits in
      if result <? modulus then Some (result, s)
      else sample_uniform_loop fuel' s bits modulus
  end.

Definition sample_uniform (fuel : nat) (s : Sampler) (modulus : Z)
  : option (Z * Sampler) :=
  sample_uniform_loop fuel s (bits_needed modulus) modulus.

(** The two [for] loops of [sample_binomial_coefficient] share this
    body: squeeze one byte, add or subtract its low bit. *)
Fixpoint binomial_loop (eta : nat) (sign : Z) (s : Sampler) (sum : Z)
  : Z * Sampler :=
  match eta with
  | O => (sum, s)
  | S eta' =>
      let '(byte, s) := squeeze s 1 in
      binomial_loop eta' sign s (i32 (sum + sign * Z.land (nth 0 byte 0) 1))
  end.

Definition sample_binomial_coefficient (s : Sampler) (eta : nat) : Z * Sampler :=
  let '(sum, s) := binomial_loop eta 1 s 0 in
  binomial_loop eta (-1) s sum.

(** [coeffs[i] = (coeff % modulus + modulus) % modulus], with [coeff]
    converted to [uint32_t] by the usual arithmetic conversions. *)
Definition store_binomial (coeff modulus : Z) : Z :=
  u32 (u32 coeff mod modulus + modulus) mod modulus.

Fixpoint sample_polynomial_binomial (s : Sampler) (degree eta : nat)
  (modulus : Z) : list Z * Sampler :=
  match degree with
  | O => ([], s)
  | S degree' =>
      let '(coeff, s) := sample_binomial_coefficient s eta in
      let '(rest, s) := sample_polynomial_binomial s degree' eta modulus in
      (store_binomial coeff modulus :: rest, s)
  end.

(** [SHAKE256Sampler::sample_polynomial_uniform] *)
Fixpoint sample_polynomial_uniform (fuel : nat) (s : Sampler) (degree : nat)
  (modulus : Z) : option (list Z * Sampler) :=
  match degree with
  | O => Some ([], s)
  | S degree' =>
      do (coeff, s) <- sample_uniform fuel s modulus;
      do (rest, s) <- sample_polynomial_uniform fuel s degree' modulus;
      Some (coeff :: rest, s)
  end.

(** *** Modular arithmetic utilities *)

(** The [while (a > 1)] loop of [mod_inverse]; a zero divisor is
    [None]. *)
Fixpoint mod_inverse_loop (fuel : nat) (a m x0 x1 : Z) : option Z :=
  match fuel with
  | O => None
  | S fuel' =>
      if 1 <? a then
        if m =? 0 then None
        else
          let q := a / m in
          mod_inverse_loop fuel' m (a mod m) (i64 (x1 - q * x0)) x0
      else Some x1
  end.

Definition mod_inverse (a m : Z) : option Z :=
  let m0 := m in
  if m =? 1 then Some 0
  else
    do x1 <- mod_inverse_loop 64 a m 0 1;
    let x1 := if x1 <? 0 then x1 + m0 else x1 in
    Some (u32 x1).

Definition is_power_of_two (x : Z) : bool :=
  (Z.land x (u32 (x - 1)) =? 0) && negb (x =? 0).

(** *** ML-DSA specific utilities *)

(** [compute_high_bits]: the first [w.size()] entries of [w1] are
    overwritten; a shorter [w1] is written out of bounds. *)
Definition high_bits_coeff (wi d : Z) : Z :=
  let shift := u32 (Z.shiftl 1 (d - 1)) in
  let divisor := u32 (Z.shiftl 1 d) in
  let temp := u64 (wi + shift) in
  u32 (temp / divisor).

Definition compute_high_bits (w w1 : list Z) (d q : Z) : option (list Z) :=
  if (length w1 <? length w)%nat then None
  else Some (map (fun wi => high_bits_coeff wi d) w ++ skipn (length w) w1).

(** The Fisher-Yates loop of [sample_challenge]. *)
Fixpoint shuffle_loop (fuel : nat) (s : Sampler) (positions : list nat)
  (n : Z) (i count : nat) : option (list nat * Sampler) :=
  match count with
  | O => Some (positions, s)
  | S count' =>
      do (r, s) <- sample_uniform fuel s (u32 (n - Z.of_nat i));
      let j := Z.to_nat (u32 (Z.of_nat i + r)) in
      shuffle_loop fuel s (swap O positions i j) n (S i) count'
  end.

(** The sign loop of [sample_challenge]; a position outside [c] is an
    out-of-bounds write. *)
Fixpoint sign_loop (s : Sampler) (positions : list nat) (c : list Z)
  (q : Z) (i count : nat) : option (list Z * Sampler) :=
  match count with
  | O => Some (c, s)
  | S count' =>
      let '(sign_byte, s) := squeeze s 1 in
      let p := nth i positions O in
      if (p <? length c)%nat then
        let v := if Z.land (nth 0 sign_byte 0) 1 =? 0 then u32 (q - 1) else 1 in
        sign_loop s positions (upd c p v) q (S i) count'
      else None
  end.

Definition sample_challenge (fuel : nat) (c : list Z) (seed : list Z)
  (tau n : nat) (q : Z) : option (list Z) :=
  let sampler := init SHAKE256Sampler seed in
  let positions := seq 0 n in
  do (positions, sampler) <- shuffle_loop fuel sampler positions (Z.of_nat n) 0 tau;
  let c := repeat 0 (length c) in
  do (c, _) <- sign_loop sampler positions c q 0 tau;
  Some c.

(** *** [shake256] *)
Definition shake256 (input : list Z) (output_len : nat) : list Z :=
  let state := repeat 0 25 in
  let rate_bytes := 136%nat in
  let st :=
    match input with
    | [] => (state, O)
    | _ => absorb_bytes (length input) state rate_bytes input 0
    end in
  let offset := snd st in
  let state := xor_state_byte (fst st) offset 0x1F in
  let state :=
    fold_left clear_state_byte
              (seq (offset + 1) (rate_bytes - (offset + 1))) state in
  let state := xor_state_byte state (rate_bytes - 1) 0x80 in
  let state := keccak_f1600 state in
  fst (squeeze_bytes output_len state rate_bytes output_len 0).

(** The [while (exp > 0)] loop of [mod_pow]: [exp] loses one bit per
    pass, so 32 passes serve every [uint32_t]. *)
Fixpoint mod_pow_loop (fuel : nat) (result base exp m : Z) : Z :=
  match fuel with
  | O => result
  | S fuel' =>
      if 0 <? exp then
        let result :=
          if negb (Z.land exp 1 =? 0) then u32 (u64 (result * base) mod m)
          else result in
        let base := u32 (u64 (base * base) mod m) in
        mod_pow_loop fuel' result base (Z.shiftr exp 1) m
      else result
  end.

(** [mod_pow(base, exp, mod)]; [base %= mod] divides by zero for
    [mod == 0]. *)
Definition mod_pow (base exp m : Z) : option Z :=
  if m =? 0 then None
  else Some (mod_pow_loop 32 1 (base mod m) exp m).

(** The four bytes [pack_polynomial_vector] writes for one
    coefficient, low byte first. *)
Definition pack_coeff (coeff : Z) : list Z :=
  [ Z.land coeff 255;
    Z.land (Z.shiftr coeff 8) 255;
    Z.land (Z.shiftr coeff 16) 255;
    Z.land (Z.shiftr coeff 24) 255 ].

(** [packed[offset++] = ...] fills the buffer of [total_coeffs * 4]
    bytes front to back. *)
Definition pack_polynomial_vector (poly_vector : list (list Z)) : list Z :=
  fold_left
    (fun packed poly =>
       fold_left (fun packed coeff => packed ++ pack_coeff coeff) poly packed)
    poly_vector [].

(** The little-endian word at [offset]; [None] past the end. *)
Definition unpack_coeff (data : list Z) (offset : nat) : option Z :=
  do b0 <- nth_error data offset;
  do b1 <- nth_error data (offset + 1);
  do b2 <- nth_error data (offset + 2);
  do b3 <- nth_error data (offset + 3);
  Some (u32 (Z.lor (Z.lor (Z.lor b0 (Z.shiftl b1 8)) (Z.shiftl b2 16))
                   (Z.shiftl b3 24))).

Fixpoint unpack_row (data : list Z) (n offset : nat) : option (list Z * nat) :=
  match n with
  | O => Some ([], offset)
  | S n' =>
      do coeff <- unpack_coeff data offset;
      do (rest, offset') <- unpack_row data n' (offset + 4);
      Some (coeff :: rest, offset')
  end.

Fixpoint unpack_rows (data : list Z) (k n offset : nat)
  : option (list (list Z)) :=
  match k with
  | O => Some []
  | S k' =>
      do (row, offset') <- unpack_row data n offset;
      do rest <- unpack_rows data k' n offset';
      Some (row :: rest)
  end.

(** [unpack_polynomial_vector]: [k * n * 4] is computed in
    [uint32_t]. *)
Definition unpack_polynomial_vector (data : list Z) (k n : nat)
  : option (list (list Z)) :=
  if negb (Z.of_nat (length data) =? u32 (Z.of_nat k * Z.of_nat n * 4))
  then None
  else unpack_rows data k n 0.

End Utils.

(** ** Reference definitions, written after the specification's words

    They are compared with the embedded code in Part II. *)
Module SpecReference.

(** ML-DSA constants of the specification's data model. *)
Definition q : Z := 8380417.
Definition gamma2_44 : Z := (q - 1) / 88.
Definition gamma2_65_87 : Z := (q - 1) / 32.

(** "decompose(r, alpha = 2 gamma2): r = r1 alpha + r0 with r0 in
    (-alpha/2, alpha/2] and corner case r1 = 0 when the unsigned high
    part would wrap." *)
Definition spec_decompose (r alpha : Z) : Z * Z :=
  let r0 := r mod alpha in
  let r0 := if r0 <=? alpha / 2 then r0 else r0 - alpha in
  if r - r0 =? q - 1 then (0, r0 - 1) else ((r - r0) / alpha, r0).

(** "highBits, lowBits: projections of decompose." *)
Definition spec_highBits (r alpha : Z) : Z := fst (spec_decompose r alpha).

(** "SampleUniform (RejNTT): reads the XOF stream 3 bytes at a time,
    forms a 23-bit integer (little-endian, top byte masked to 0x7F),
    accepts if < q; otherwise skips."  [attempts] bounds the number of
    3-byte groups read. *)
Definition spec_candidate23 (bytes : list Z) : Z :=
  Z.lor (Z.lor (nth 0 bytes 0) (Z.shiftl (nth 1 bytes 0) 8))
        (Z.shiftl (Z.land (nth 2 bytes 0) 0x7F) 16).

Fixpoint spec_SampleUniform (attempts : nat) (s : Utils.Sampler) (count : nat)
  : option (list Z) :=
  match count, attempts with
  | O, _ => Some []
  | _, O => None
  | S count', S attempts' =>
      let '(bytes, s) := Utils.squeeze s 3 in
      let v := spec_candidate23 bytes in
      if v <? q then
        do rest <- spec_SampleUniform attempts' s count';
        Some (v :: rest)
      else spec_SampleUniform attempts' s count
  end.

(** "CBD_eta: for eta = 2, consume 1 byte per pair of coefficients:
    four bits -> (a1+a2) - (b1+b2).  For eta = 4, consume 1 byte per
    coefficient: (a1+a2+a3+a4) - (b1+b2+b3+b4).  Coefficients are stored
    reduced mod q (negatives map to q+x)." *)
Definition bit (byte : Z) (i : Z) : Z := Z.land (Z.shiftr byte i) 1.

Definition spec_cbd2_pair (byte : Z) : list Z :=
  [ ((bit byte 0 + bit byte 1) - (bit byte 2 + bit byte 3)) mod q;
    ((bit byte 4 + bit byte 5) - (bit byte 6 + bit byte 7)) mod q ].

Definition spec_cbd4_coeff (byte : Z) : Z :=
  ((bit byte 0 + bit byte 1 + bit byte 2 + bit byte 3)
   - (bit byte 4 + bit byte 5 + bit byte 6 + bit byte 7)) mod q.

(** [pairs] bytes give [2 * pairs] coefficients. *)
Definition spec_CBD2 (s : Utils.Sampler) (pairs : nat) : list Z :=
  flat_map spec_cbd2_pair (fst (Utils.squeeze s pairs)).

Definition spec_CBD4 (s : Utils.Sampler) (count : nat) : list Z :=
  map spec_cbd4_coeff (fst (Utils.squeeze s count)).

End SpecReference.

(** ** src/core/ntt_engine.cpp and src/core/ntt_scalar.cpp *)
Module NttEngine.
Import Utils.

Definition zetas_ml_dsa : list Z :=
  [ 0; 25847; -2608894; -518909; 237124; -777960; -876248; 466468;
    1826347; 2353451; -359251; -2091905; 3119733; -2884855; 3111497; 2680103;
    2725464; 1024112; -1079900; 3585928; -1497254; 4189091; -1882636; 2036599;
    1107237; 727831; -214476; 18292; -167782; -240320; -474467; -378833;
    -1575429; -1194982; -262805; -857374; -236959; -876248; -109702; -494783;
    -1846644; -642346; -1085204; -1060846; -466468; -200074; -120614; -181804;
    -167782; -1107237; -1882636; -25847; -2081905; -1826347; -2091905; -181804;
    -777960; -2091905; -237124; -876248; -3111497; -262805; -2091905; -2725464;
    -109702; -3119733; -236959; -3119733; -181804; -3119733; -3111497; -2725464;
    -2091905; -2884855; -1497254; -3119733; -3111497; -2884855; -2725464; -2091905;
    -2884855; -3119733; -1497254; -2091905; -3119733; -2725464; -2884855; -3119733;
    -2725464; -2091905; -2884855; -3119733; -3111497; -2725464; -2091905; -2884855;
    -3119733; -1497254; -2091905; -3119733; -3111497; -2725464; -2884855; -3119733;
    -2725464; -2091905; -2884855; -3119733; -3111497; -2725464; -2091905; -2884855;
    -3119733; -1497254; -2091905; -3119733; -3111497; -2725464; -2884855; -3119733;
    -2725464; -2091905; -2884855; -3119733; -3111497; -2725464; -2091905; -2884855 ].

(** [NTTEngine] with the members [ScalarNTTEngine] adds. *)
Record Engine : Type := mkEngine {
  q_ : Z;
  n_ : nat;
  log_n_ : nat;
  bitrev_ : list nat;
  zetas_ : list Z;
  zetas_inv_ : list Z;
  n_inv_ : Z
}.

(** [while (temp > 1) { temp >>= 1; log_n_++; }] *)
Fixpoint log_loop (fuel : nat) (temp : Z) (log_n : nat) : nat :=
  match fuel with
  | O => log_n
  | S fuel' =>
      if 1 <? temp then log_loop fuel' (Z.shiftr temp 1) (S log_n) else log_n
  end.

(** [precompute_bitrev] *)
Definition bitrev_entry (log_n i : nat) : nat :=
  Z.to_nat
    (fold_left
       (fun rev j =>
          Z.lor rev
                (u32 (Z.shiftl (Z.land (Z.shiftr (Z.of_nat i) (Z.of_nat j)) 1)
                               (Z.of_nat (log_n - 1 - j)))))
       (seq 0 log_n) 0).

Definition precompute_bitrev (n log_n : nat) : list nat :=
  map (bitrev_entry log_n) (seq 0 n).

(** [precompute_zetas]: the two tables of [n] entries. *)
Definition forward_zetas (n : nat) : list Z :=
  fold_left
    (fun zetas i =>
       if (i - 1 <? 128)%nat then upd zetas i (nth (i - 1) zetas_ml_dsa 0)
       else zetas)
    (seq 1 127) (repeat 0 n).

Definition inverse_zetas (n : nat) (zetas : list Z) : list Z :=
  fold_left
    (fun zetas_inv i => upd zetas_inv i (nth (128 - i) zetas 0))
    (seq 1 127) (upd (repeat 0 n) 0 0).

(** The constructors: [NTTEngine(q, n)] throws unless [n] is a power of
    two, [ScalarNTTEngine(q, n)] unless q = 8380417 and n = 256. *)
Definition ScalarNTTEngine (q : Z) (n : nat) : option Engine :=
  if negb (is_power_of_two (Z.of_nat n)) then None
  else
    let log_n := log_loop 32 (Z.of_nat n) 0 in
    let bitrev := precompute_bitrev n log_n in
    if negb (q =? 8380417) then None
    else if negb (Nat.eqb n 256) then None
    else
      let zetas := forward_zetas n in
      let zetas_inv := inverse_zetas n zetas in
      do n_inv <- mod_inverse (Z.of_nat n) q;
      Some (mkEngine q n log_n bitrev zetas zetas_inv n_inv).

Definition bit_reverse (E : Engine) (poly : list Z) : list Z :=
  fold_left
    (fun poly i =>
       if (i <? nth i (bitrev_ E) O)%nat
       then swap 0 poly i (nth i (bitrev_ E) O)
       else poly)
    (seq 0 (n_ E)) poly.

Definition montgomery_reduce (E : Engine) (val : Z) : Z :=
  let q := q_ E in
  let qinv := 587289889 in
  let t := i64 (val * qinv) in
  let t := Z.land t 0xFFFFFFFF in
  let result := i64 (val - t * q) in
  let result := Z.shiftr result 32 in
  i32 result.

(** The body of the innermost loop, shared by both transforms. *)
Definition butterfly (E : Engine) (zeta : Z) (half : nat) (poly : list Z)
  (j : nat) : list Z :=
  let u := nth j poly 0 in
  let v := nth (j + half) poly 0 in
  let t := i64 (v * zeta) in
  let t_mod := u32 (montgomery_reduce E t) in
  let poly := upd poly j (u32 (u + t_mod) mod q_ E) in
  upd poly (j + half) (u32 (u + q_ E - t_mod) mod q_ E).

(** [for (start = 0; start < n_; start += len)]: a block is transformed
    only while [k] indexes the table; [k_step] is [k++] or [k--] on
    [uint32_t]. *)
Fixpoint start_loop (fuel : nat) (E : Engine) (table : list Z)
  (k_step : Z -> Z) (len start : nat) (st : list Z * Z) : list Z * Z :=
  match fuel with
  | O => st
  | S fuel' =>
      if (start <? n_ E)%nat then
        let '(poly, k) := st in
        let st :=
          if k <? Z.of_nat (length table) then
            let zeta := nth (Z.to_nat k) table 0 in
            (fold_left (butterfly E zeta (len / 2)) (seq start (len / 2)) poly,
             k_step k)
          else st in
        start_loop fuel' E table k_step len (start + len) st
      else st
  end.

(** [for (; len <= n_; len <<= 1)] *)
Fixpoint forward_levels (fuel : nat) (E : Engine) (len : nat)
  (st : list Z * Z) : list Z * Z :=
  match fuel with
  | O => st
  | S fuel' =>
      if (len <=? n_ E)%nat then
        forward_levels fuel' E (2 * len)
          (start_loop (n_ E) E (zetas_ E) (fun k => u32 (k + 1)) len 0 st)
      else st
  end.

Definition ntt_forward (E : Engine) (poly : list Z) : list Z :=
  let poly := bit_reverse E poly in
  fst (forward_levels 32 E 2 (poly, 1)).

(** [for (; len >= 2; len >>= 1)] *)
Fixpoint inverse_levels (fuel : nat) (E : Engine) (len : nat)
  (st : list Z * Z) : list Z * Z :=
  match fuel with
  | O => st
  | S fuel' =>
      if (2 <=? len)%nat then
        inverse_levels fuel' E (len / 2)
          (start_loop (n_ E) E (zetas_inv_ E) (fun k => u32 (k - 1)) len 0 st)
      else st
  end.

Definition ntt_inverse (E : Engine) (poly : list Z) : list Z :=
  let '(poly, _) :=
    inverse_levels 32 E (n_ E / 2) (poly, u32 (Z.of_nat (n_ E / 2) - 1)) in
  let poly := bit_reverse E poly in
  map (fun c => u32 (montgomery_reduce E (i64 (c * n_inv_ E)))) poly.

(** [barrett_reduce]: the quotient estimate [t] is computed and not
    used; the value is brought down by at most two subtractions. *)
Definition barrett_reduce (E : Engine) (val : Z) : Z :=
  let q := u64 (q_ E) in
  let mu := u64 (Z.shiftl 1 52) / q in
  let q_val := u64 val in
  let t := Z.shiftr (u64 (q_val * mu)) 52 in
  let t := u64 (t * q) in
  if q <=? val then
    let val := u32 (val - q) in
    if q <=? val then u32 (val - q) else val
  else val.


End NttEngine.

(** ** Serialized layouts

    Modelled from the spec: the parameter header (parameters.hpp) and
    the key and signature serializers (keygen.cpp, sign.cpp) are not
    among the sources.  The parameter table is the specification's data
    model (its values are the ones test_parameters.cpp expects, with
    k = module_rank and l = repetitions); the packers and the three
    layouts follow the specification's packing and external interface
    sections. *)
Module Layout.

Record ParameterSet : Type := mkParameterSet {
  k : nat;
  l : nat;
  eta : Z;
  tau : nat;
  beta : Z;
  gamma1 : Z;
  gamma2 : Z;
  omega : nat;
  lambda : nat
}.

Definition n : nat := 256.
Definition q : Z := SpecReference.q.

(** Modelled from the spec: the per-parameter-set table; an
    unrecognized set id is an error. *)
Definition parameter_set (level : nat) : option ParameterSet :=
  match level with
  | 44%nat => Some (mkParameterSet 4 4 2 39 78 (2 ^ 17) ((q - 1) / 88) 80 128)
  | 65%nat => Some (mkParameterSet 6 5 4 49 196 (2 ^ 19) ((q - 1) / 32) 55 192)
  | 87%nat => Some (mkParameterSet 8 7 2 60 120 (2 ^ 19) ((q - 1) / 32) 75 256)
  | _ => None
  end.

(** Modelled from the spec: "width-specific bit-packers, all
    little-endian within each coefficient": the low [width] bits of
    every coefficient, least significant first, eight bits to a byte. *)
Fixpoint bits_of (width : nat) (c : Z) : list bool :=
  match width with
  | O => []
  | S width' => Z.odd c :: bits_of width' (Z.div2 c)
  end.

Fixpoint byte_of_bits (bits : list bool) : Z :=
  match bits with
  | [] => 0
  | b :: rest => Z.b2z b + 2 * byte_of_bits rest
  end.

Definition pack_bits (width : nat) (coeffs : list Z) : list Z :=
  let bits := flat_map (bits_of width) coeffs in
  map (fun i => byte_of_bits (firstn 8 (skipn (8 * i) bits)))
      (seq 0 ((length bits + 7) / 8)).

(** Modelled from the spec: the table of bits per coefficient. *)
Definition eta_bits (P : ParameterSet) : nat :=
  if eta P =? 2 then 3 else 4.
Definition z_bits (P : ParameterSet) : nat :=
  if gamma1 P =? 2 ^ 17 then 18 else 20.

Definition pack_t1 (poly : list Z) : list Z := pack_bits 10 poly.
Definition pack_t0 (poly : list Z) : list Z := pack_bits 13 poly.
Definition pack_eta (P : ParameterSet) (poly : list Z) : list Z :=
  pack_bits (eta_bits P) poly.
(** "Encoded by the biased mapping gamma1 - x." *)
Definition pack_z (P : ParameterSet) (poly : list Z) : list Z :=
  pack_bits (z_bits P) (map (fun x => gamma1 P - x) poly).

(** Modelled from the spec: "emit the column indices of nonzero hint
    coefficients grouped by row, followed by omega - popcount
    zero-padding bytes, followed by k cumulative row-end offsets." *)
Definition hint_indices (row : list Z) : list Z :=
  map (fun ic => Z.of_nat (fst ic))
      (filter (fun ic => negb (snd ic =? 0))
              (combine (seq 0 (length row)) row)).

Fixpoint row_ends (acc : nat) (rows : list (list Z)) : list Z :=
  match rows with
  | [] => []
  | row :: rest =>
      let acc := (acc + length (hint_indices row))%nat in
      Z.of_nat acc :: row_ends acc rest
  end.

Definition popcount (h : list (list Z)) : nat :=
  length (concat (map hint_indices h)).

Definition pack_h (P : ParameterSet) (h : list (list Z)) : list Z :=
  concat (map hint_indices h)
  ++ repeat 0 (omega P - popcount h)
  ++ row_ends 0 h.

Record PublicKey : Type := mkPublicKey {
  pk_rho : list Z;
  t1 : list (list Z)
}.

Record PrivateKey : Type := mkPrivateKey {
  sk_rho : list Z;
  K : list Z;
  tr : list Z;
  s1 : list (list Z);
  s2 : list (list Z);
  t0 : list (list Z)
}.

Record Signature : Type := mkSignature {
  c_tilde : list Z;
  z : list (list Z);
  h : list (list Z)
}.

(** Modelled from the spec: "pk = rho || pack_t1", "sk = rho || K ||
    tr || pack_eta(s1) || pack_eta(s2) || pack_t0(t0)", "sig = c~ ||
    pack_z(z) || pack_h(h)". *)
Definition encode_pk (pk : PublicKey) : list Z :=
  pk_rho pk ++ flat_map pack_t1 (t1 pk).

Definition encode_sk (P : ParameterSet) (sk : PrivateKey) : list Z :=
  sk_rho sk ++ K sk ++ tr sk
  ++ flat_map (pack_eta P) (s1 sk)
  ++ flat_map (pack_eta P) (s2 sk)
  ++ flat_map pack_t0 (t0 sk).

Definition encode_sig (P : ParameterSet) (sig : Signature) : list Z :=
  c_tilde sig ++ flat_map (pack_z P) (z sig) ++ pack_h P (h sig).

(** Modelled from the spec: the shapes of the data model's entities. *)
Definition polyvec (len : nat) (v : list (list Z)) : Prop :=
  length v = len /\ Forall (fun poly => length poly = n) v.

Definition wf_pk (P : ParameterSet) (pk : PublicKey) : Prop :=
  length (pk_rho pk) = 32%nat /\ polyvec (k P) (t1 pk).

Definition wf_sk (P : ParameterSet) (sk : PrivateKey) : Prop :=
  length (sk_rho sk) = 32%nat /\ length (K sk) = 32%nat /\
  length (tr sk) = 64%nat /\
  polyvec (l P) (s1 sk) /\ polyvec (k P) (s2 sk) /\ polyvec (k P) (t0 sk).

Definition wf_sig (P : ParameterSet) (sig : Signature) : Prop :=
  length (c_tilde sig) = (lambda P / 4)%nat /\
  polyvec (l P) (z sig) /\ polyvec (k P) (h sig) /\
  (popcount (h sig) <= omega P)%nat.

(** Modelled from the spec: the table of serialized sizes. *)
Definition pk_bytes (level : nat) : nat :=
  match level with 44%nat => 1312 | 65%nat => 1952 | _ => 2592 end.
Definition sk_bytes (level : nat) : nat :=
  match level with 44%nat => 2560 | 65%nat => 4032 | _ => 4896 end.
Definition sig_bytes (level : nat) : nat :=
  match level with 44%nat => 2420 | 65%nat => 3309 | _ => 4627 end.

End Layout.

(** ** clwe.hpp: the parameter structure of the key-encapsulation side *)
Module Clwe.

(** The [for (i = 5; i * i <= n; i += 6)] loop of [is_prime], on
    [uint32_t]; [i] stays odd, so neither divisor is 0. *)
Fixpoint is_prime_loop (fuel : nat) (n i : Z) : option bool :=
  match fuel with
  | O => None
  | S fuel' =>
      if u32 (i * i) <=? n then
        if (n mod i =? 0) || (n mod u32 (i + 2) =? 0) then Some false
        else is_prime_loop fuel' n (u32 (i + 6))
      else Some true
  end.

(** [is_prime]; the loop is given [n] passes. *)
Definition is_prime (n : Z) : option bool :=
  if n <=? 1 then Some false
  else if n <=? 3 then Some true
  else if (n mod 2 =? 0) || (n mod 3 =? 0) then Some false
  else is_prime_loop (Z.to_nat n) n 5.

Record CLWEParameters : Type := mkCLWEParameters {
  security_level : Z;
  degree : Z;
  module_rank : Z;
  modulus : Z;
  eta1 : Z;
  eta2 : Z
}.

(** [validate]: [None] stands for [std::invalid_argument]. *)
Definition validate (p : CLWEParameters) : option unit :=
  if negb (security_level p =? 512) && negb (security_level p =? 768)
     && negb (security_level p =? 1024) then None
  else if (degree p =? 0)
          || negb (Z.land (degree p) (u32 (degree p - 1)) =? 0)
          || (8192 <? degree p) then None
  else if (module_rank p =? 0) || (16 <? module_rank p) then None
  else
    do prime <- is_prime (modulus p);
    if negb prime || (modulus p <? 256) || (65536 <? modulus p) then None
    else if (eta1 p =? 0) || (16 <? eta1 p) then None
    else if (eta2 p =? 0) || (16 <? eta2 p) then None
    else Some tt.

(** [CLWEParameters(sec_level)]: the [switch] over the ML-KEM levels,
    then [validate]. *)
Definition make_parameters (sec_level : Z) : option CLWEParameters :=
  let p :=
    if sec_level =? 512 then mkCLWEParameters sec_level 256 2 3329 3 2
    else if sec_level =? 768 then mkCLWEParameters sec_level 256 3 3329 2 2
    else if sec_level =? 1024 then mkCLWEParameters sec_level 256 4 3329 2 2
    else mkCLWEParameters sec_level 256 2 3329 3 2 in
  do _ <- validate p;
  Some p.

(** [CLWEParameters(sec_level, deg, rank, mod, e1, e2)] *)
Definition make_custom_parameters (sec_level deg rank mod_ e1 e2 : Z)
  : option CLWEParameters :=
  let p := mkCLWEParameters sec_level deg rank mod_ e1 e2 in
  do _ <- validate p;
  Some p.

End Clwe.

(** ** macos/sign/src/core/color_integration.cpp

    The macOS copy of the codec reduces without testing the modulus:
    [coeff % modulus] with modulus 0 is a division by zero, [None]
    here. *)
Module ColorIntegrationMac.
Import ColorIntegration.

Definition reduce (modulus coeff : Z) : option Z :=
  if modulus =? 0 then None else Some (coeff mod modulus).

Definition encode_polynomial_as_colors (poly : list Z) (modulus : Z)
  : option (list Z) :=
  fold_left
    (fun acc coeff =>
       do color_data <- acc;
       do coeff <- reduce modulus coeff;
       Some (color_data ++ rgba coeff))
    poly (Some []).

Fixpoint decode_loop (color_data : list Z) (modulus : Z) (count i : nat)
  : option (list Z) :=
  match count with
  | O => Some []
  | S count' =>
      do coeff <- read_coeff color_data i;
      do coeff <- reduce modulus coeff;
      do rest <- decode_loop color_data modulus count' (i + 4);
      Some (coeff :: rest)
  end.

Definition decode_colors_to_polynomial (color_data : list Z) (modulus : Z)
  : option (list Z) :=
  if negb (Nat.eqb (length color_data mod 4) 0) then None
  else decode_loop color_data modulus (length color_data / 4) 0.

Definition encode_polynomial_vector_as_colors (poly_vector : list (list Z))
  (modulus : Z) : option (list Z) :=
  fold_left
    (fun acc poly =>
       do color_data <- acc;
       do poly_colors <- encode_polynomial_as_colors poly modulus;
       Some (color_data ++ poly_colors))
    poly_vector (Some []).

Fixpoint decode_row (color_data : list Z) (modulus : Z) (n idx : nat)
  : option (list Z * nat) :=
  match n with
  | O => Some ([], idx)
  | S n' =>
      do coeff <- read_coeff color_data idx;
      do coeff <- reduce modulus coeff;
      do (rest, idx') <- decode_row color_data modulus n' (idx + 4);
      Some (coeff :: rest, idx')
  end.

Fixpoint decode_rows (color_data : list Z) (modulus : Z) (k n idx : nat)
  : option (list (list Z)) :=
  match k with
  | O => Some []
  | S k' =>
      do (row, idx') <- decode_row color_data modulus n idx;
      do rest <- decode_rows color_data modulus k' n idx';
      Some (row :: rest)
  end.

Definition decode_colors_to_polynomial_vector (color_data : list Z)
  (k n : nat) (modulus : Z) : option (list (list Z)) :=
  if negb (Z.of_nat (length color_data) =? u32 (Z.of_nat k * Z.of_nat n * 4))
  then None
  else decode_rows color_data modulus k n 0.

End ColorIntegrationMac.

(* ===================================================================== *)
(** * Part II: theorems                                                   *)
(* ===================================================================== *)

(** ** List helpers *)
Module ListFacts.

Lemma fold_left_app_acc {A B : Type} (f : A -> list B) (l : list A) (acc : list B) :
  fold_left (fun a x => a ++ f x) l acc = acc ++ flat_map f l.
Proof.
  revert acc; induction l as [|x l IH]; intros acc; simpl.
  - now rewrite app_nil_r.
  - now rewrite IH, app_assoc.
Qed.

Lemma nth_error_app_skip {A : Type} (pre l : list A) (i : nat) :
  nth_error (pre ++ l) (length pre + i) = nth_error l i.
Proof. rewrite nth_error_app2 by lia. f_equal. lia. Qed.

Lemma nth_error_app_here {A : Type} (pre l : list A) :
  nth_error (pre ++ l) (length pre) = nth_error l 0.
Proof. rewrite <- (Nat.add_0_r (length pre)) at 1. apply nth_error_app_skip. Qed.

Lemma nth_error_head {A : Type} (x : A) (l : list A) :
  nth_error (x :: l) 0 = Some x.
Proof. reflexivity. Qed.

Lemma skipn_app_skip {A : Type} (pre l : list A) (i : nat) :
  skipn (length pre + i) (pre ++ l) = skipn i l.
Proof. induction pre; simpl; auto. Qed.

Lemma firstn_app_exact {A : Type} (l post : list A) :
  firstn (length l) (l ++ post) = l.
Proof. induction l; simpl; [reflexivity|]. now f_equal. Qed.

End ListFacts.
Import ListFacts.

(** ** Array updates *)
Module ArrayFacts.
Import Utils.

Lemma length_upd {A : Type} (l : list A) : forall i v,
  length (upd l i v) = length l.
Proof.
  induction l as [|h t IH]; intros [|i] v; simpl; auto.
Qed.

Lemma nth_upd_same {A : Type} (l : list A) : forall i v d,
  (i < length l)%nat -> nth i (upd l i v) d = v.
Proof.
  induction l as [|h t IH]; intros [|i] v d Hi; simpl in *; try lia; auto.
  apply IH. lia.
Qed.

Lemma nth_upd_other {A : Type} (l : list A) : forall i k v d,
  i <> k -> nth k (upd l i v) d = nth k l d.
Proof.
  induction l as [|h t IH]; intros [|i] [|k] v d Hik; simpl; auto; try lia.
Qed.

Lemma Forall_upd {A : Type} (P : A -> Prop) (l : list A) : forall i v,
  Forall P l -> P v -> Forall P (upd l i v).
Proof.
  induction l as [|h t IH]; intros [|i] v Hl Hv; simpl; auto;
    inversion Hl; subst; constructor; auto.
Qed.

Lemma length_swap {A : Type} (d : A) l i j : length (swap d l i j) = length l.
Proof. unfold swap. now rewrite !length_upd. Qed.

Lemma nth_swap_other {A : Type} (d : A) l i j k :
  k <> i -> k <> j -> nth k (swap d l i j) d = nth k l d.
Proof. intros Hi Hj. unfold swap. now rewrite !nth_upd_other by auto. Qed.

End ArrayFacts.
Import ArrayFacts.

Module ColorIntegrationFacts.
Import ColorIntegration.

Lemma encode_poly_flat_map poly modulus :
  encode_polynomial_as_colors poly modulus
  = flat_map (fun c => rgba (reduce modulus c)) poly.
Proof.
  unfold encode_polynomial_as_colors.
  now rewrite (fold_left_app_acc (fun c => rgba (reduce modulus c))).
Qed.

Lemma encode_vec_flat_map v modulus :
  encode_polynomial_vector_as_colors v modulus
  = flat_map (fun p => encode_polynomial_as_colors p modulus) v.
Proof.
  unfold encode_polynomial_vector_as_colors.
  now rewrite (fold_left_app_acc (fun p => encode_polynomial_as_colors p modulus)).
Qed.

Lemma rgba_recombine c :
  0 <= c < 2 ^ 32 ->
  Z.lor (Z.lor (Z.lor (u32 (Z.shiftl (Z.land (Z.shiftr c 24) 255) 24))
                      (u32 (Z.shiftl (Z.land (Z.shiftr c 16) 255) 16)))
               (u32 (Z.shiftl (Z.land (Z.shiftr c 8) 255) 8)))
        (Z.land c 255) = c.
Proof.
  intros Hc. unfold u32.
  change 255 with (Z.ones 8).
  rewrite <- !Z.land_ones by lia.
  assert (Hhi : forall i, 32 <= i -> Z.testbit c i = false).
  { intros i Hi. apply (Z.testbit_false c i); [lia|].
    rewrite Z.div_small; [reflexivity|].
    split; [lia|]. apply Z.lt_le_trans with (2 ^ 32); [lia|].
    apply Z.pow_le_mono_r; lia. }
  Z.bitblast; rewrite Hhi by lia; reflexivity.
Qed.

Lemma length_rgba c : length (rgba c) = 4%nat.
Proof. reflexivity. Qed.

Lemma length_encode_poly poly modulus :
  length (encode_polynomial_as_colors poly modulus) = (4 * length poly)%nat.
Proof.
  rewrite encode_poly_flat_map.
  induction poly as [|c poly IH]; simpl; [reflexivity|]. rewrite IH. lia.
Qed.

Lemma reduce_small modulus c : 0 <= c < modulus -> reduce modulus c = c.
Proof.
  intros H. unfold reduce.
  destruct (modulus =? 0) eqn:E; [reflexivity|]. now apply Z.mod_small.
Qed.

Lemma read_coeff_rgba pre c post :
  0 <= c < 2 ^ 32 ->
  read_coeff (pre ++ rgba c ++ post) (length pre) = Some c.
Proof.
  intros Hc. unfold read_coeff.
  rewrite <- (Nat.add_0_r (length pre)) at 1.
  rewrite !nth_error_app_skip.
  unfold rgba. cbn [app nth_error obind]. f_equal. now apply rgba_recombine.
Qed.

Section RoundTrip.
Variable modulus : Z.
Hypothesis modulus_u32 : 0 < modulus <= 2 ^ 32.

Definition coeffs_ok (poly : list Z) : Prop :=
  Forall (fun c => 0 <= c < modulus) poly.

Lemma decode_row_encode poly : forall pre post,
  coeffs_ok poly ->
  decode_row (pre ++ encode_polynomial_as_colors poly modulus ++ post)
             modulus (length poly) (length pre)
  = Some (poly, (length pre + 4 * length poly)%nat).
Proof.
  induction poly as [|c poly IH]; intros pre post Hok.
  - simpl. apply f_equal, f_equal. lia.
  - inversion Hok as [|? ? Hc Hrest]; subst.
    specialize (IH (pre ++ rgba c) post Hrest).
    rewrite encode_poly_flat_map in IH |- *. cbn [flat_map length decode_row].
    rewrite reduce_small by assumption.
    rewrite <- app_assoc.
    rewrite read_coeff_rgba by lia. cbn [obind].
    rewrite <- !app_assoc in IH.
    rewrite length_app, length_rgba in IH.
    rewrite IH. cbn [obind]. rewrite reduce_small by assumption.
    apply f_equal, f_equal. lia.
Qed.

Lemma decode_rows_encode n v : forall pre,
  Forall (fun p => length p = n /\ coeffs_ok p) v ->
  decode_rows (pre ++ encode_polynomial_vector_as_colors v modulus)
              modulus (length v) n (length pre)
  = Some v.
Proof.
  induction v as [|p v IH]; intros pre Hv; [reflexivity|].
  inversion Hv as [|? ? [Hlen Hok] Hrest]; subst.
  specialize (IH (pre ++ encode_polynomial_as_colors p modulus) Hrest).
  rewrite encode_vec_flat_map in IH |- *. cbn [flat_map length decode_rows].
  rewrite decode_row_encode by assumption. cbn [obind].
  rewrite <- app_assoc in IH.
  rewrite length_app, length_encode_poly in IH.
  rewrite IH. reflexivity.
Qed.

Lemma length_encode_vec n v :
  Forall (fun p => length p = n /\ coeffs_ok p) v ->
  length (encode_polynomial_vector_as_colors v modulus)
  = (length v * n * 4)%nat.
Proof.
  rewrite encode_vec_flat_map.
  induction 1 as [|p v [Hlen _] _ IH]; [reflexivity|].
  cbn [flat_map length]. rewrite length_app, length_encode_poly, IH. lia.
Qed.

End RoundTrip.

(** C7. Colour codec round trip: a vector of [k] polynomials of [n]
    coefficients each, every coefficient in [0, modulus), is returned
    unchanged when its colour encoding is decoded with the same
    dimensions and the same modulus (in particular for q = 8380417). *)
Theorem color_vector_round_trip (v : list (list Z)) (k n : nat) (modulus : Z) :
  0 < modulus <= 2 ^ 32 ->
  Z.of_nat k * Z.of_nat n * 4 < 2 ^ 32 ->
  length v = k ->
  Forall (fun p => length p = n /\ Forall (fun c => 0 <= c < modulus) p) v ->
  decode_colors_to_polynomial_vector
    (encode_polynomial_vector_as_colors v modulus) k n modulus
  = Some v.
Proof.
  intros Hm Hsize Hk Hv.
  unfold decode_colors_to_polynomial_vector.
  rewrite (length_encode_vec modulus n v Hv), Hk.
  unfold u32. rewrite Z.mod_small by lia.
  replace (Z.of_nat (k * n * 4)) with (Z.of_nat k * Z.of_nat n * 4) by lia.
  rewrite Z.eqb_refl. cbn [negb].
  subst k.
  exact (decode_rows_encode modulus Hm n v [] Hv).
Qed.

Lemma color_vector_round_trip_witness :
  decode_colors_to_polynomial_vector
    (encode_polynomial_vector_as_colors
       [[0; 8380416; 4193791]; [65536; 255; 8380000]] 8380417)
    2 3 8380417
  = Some [[0; 8380416; 4193791]; [65536; 255; 8380000]].
Proof.
  apply (color_vector_round_trip _ 2 3 8380417).
  - lia.
  - reflexivity.
  - reflexivity.
  - repeat first [apply Forall_nil | apply Forall_cons | split];
      try reflexivity; lia.
Defined.

(** *** Beyond reduced coefficients *)

Definition is_u32 (c : Z) : Prop := 0 <= c < 2 ^ 32.
Definition is_byte (b : Z) : Prop := 0 <= b < 256.

Lemma reduce_u32 modulus c :
  0 <= modulus < 2 ^ 32 -> is_u32 c -> is_u32 (reduce modulus c).
Proof.
  unfold is_u32, reduce. intros Hm Hc.
  destruct (modulus =? 0) eqn:E; [assumption|].
  apply Z.eqb_neq in E.
  pose proof (Z.mod_pos_bound c modulus ltac:(lia)). lia.
Qed.

Lemma reduce_idempotent modulus c :
  0 <= modulus -> reduce modulus (reduce modulus c) = reduce modulus c.
Proof.
  unfold reduce. intros Hm.
  destruct (modulus =? 0) eqn:E; [reflexivity|].
  apply Z.mod_mod. apply Z.eqb_neq in E. lia.
Qed.

Lemma decode_loop_encode modulus poly : forall pre,
  0 <= modulus < 2 ^ 32 -> Forall is_u32 poly ->
  decode_loop (pre ++ encode_polynomial_as_colors poly modulus)
              modulus (length poly) (length pre)
  = Some (map (reduce modulus) poly).
Proof.
  induction poly as [|c poly IH]; intros pre Hm Hok; [reflexivity|].
  inversion Hok as [|? ? Hc Hrest]; subst.
  specialize (IH (pre ++ rgba (reduce modulus c)) Hm Hrest).
  rewrite encode_poly_flat_map in IH |- *. cbn [flat_map length decode_loop map].
  rewrite read_coeff_rgba by (apply reduce_u32; assumption). cbn [obind].
  rewrite <- app_assoc, length_app, length_rgba in IH.
  rewrite IH. cbn [obind]. now rewrite reduce_idempotent by lia.
Qed.

(** Decoding the colours of any polynomial of 32-bit coefficients gives
    the polynomial reduced modulo [modulus], and the polynomial itself
    when [modulus] is 0. *)
Theorem color_decode_encode_reduces (poly : list Z) (modulus : Z) :
  0 <= modulus < 2 ^ 32 -> Forall is_u32 poly ->
  decode_colors_to_polynomial (encode_polynomial_as_colors poly modulus) modulus
  = Some (map (fun c => if modulus =? 0 then c else c mod modulus) poly).
Proof.
  intros Hm Hok. unfold decode_colors_to_polynomial.
  rewrite length_encode_poly.
  replace (4 * length poly)%nat with (length poly * 4)%nat by lia.
  rewrite Nat.Div0.mod_mul, Nat.div_mul by lia. cbn [Nat.eqb negb].
  exact (decode_loop_encode modulus poly [] Hm Hok).
Qed.

Lemma color_decode_encode_reduces_witness :
  decode_colors_to_polynomial
    (encode_polynomial_as_colors [8380417; 4294967295; 5] 8380417) 8380417
  = Some (map (fun c => if 8380417 =? 0 then c else c mod 8380417)
              [8380417; 4294967295; 5]).
Proof.
  apply color_decode_encode_reduces.
  - lia.
  - unfold is_u32. repeat first [apply Forall_nil | apply Forall_cons]; lia.
Defined.

(** *** Reads stay inside the buffer *)

Lemma read_coeff_in_bounds data i :
  (i + 4 <= length data)%nat -> exists c, read_coeff data i = Some c.
Proof.
  intros Hi. unfold read_coeff.
  destruct (nth_error data i) as [b0|] eqn:E0;
    [|apply nth_error_None in E0; lia].
  destruct (nth_error data (i + 1)) as [b1|] eqn:E1;
    [|apply nth_error_None in E1; lia].
  destruct (nth_error data (i + 2)) as [b2|] eqn:E2;
    [|apply nth_error_None in E2; lia].
  destruct (nth_error data (i + 3)) as [b3|] eqn:E3;
    [|apply nth_error_None in E3; lia].
  cbn [obind]. eauto.
Qed.

Lemma lor_u32 a b : is_u32 a -> is_u32 b -> is_u32 (Z.lor a b).
Proof.
  unfold is_u32. intros Ha Hb.
  assert (Hmod : Z.lor a b = Z.lor a b mod 2 ^ 32).
  { rewrite <- (Z.mod_small a (2 ^ 32)) at 1 by assumption.
    rewrite <- (Z.mod_small b (2 ^ 32)) at 1 by assumption.
    rewrite <- !Z.land_ones by lia.
    now rewrite <- Z.land_lor_distr_l. }
  rewrite Hmod. apply Z.mod_pos_bound. reflexivity.
Qed.

Lemma read_coeff_u32 data i c :
  Forall is_byte data -> read_coeff data i = Some c -> is_u32 c.
Proof.
  intros Hb. unfold read_coeff.
  destruct (nth_error data i) as [b0|] eqn:E0; [|discriminate].
  destruct (nth_error data (i + 1)) as [b1|] eqn:E1; [|discriminate].
  destruct (nth_error data (i + 2)) as [b2|] eqn:E2; [|discriminate].
  destruct (nth_error data (i + 3)) as [b3|] eqn:E3; [|discriminate].
  cbn [obind]. intros H. injection H as <-.
  rewrite Forall_forall in Hb.
  apply nth_error_In, Hb in E3. unfold is_byte in E3.
  assert (Hu : forall x, is_u32 (u32 x))
    by (intros x; apply Z.mod_pos_bound; reflexivity).
  repeat apply lor_u32; try apply Hu.
  unfold is_u32. split; [lia|].
  apply Z.lt_trans with 256; [lia|reflexivity].
Qed.

Lemma reduce_below modulus c :
  0 < modulus -> 0 <= reduce modulus c < modulus.
Proof.
  intros Hm. unfold reduce.
  replace (modulus =? 0) with false by (symmetry; apply Z.eqb_neq; lia).
  apply Z.mod_pos_bound. lia.
Qed.

Lemma decode_loop_in_bounds data modulus count : forall i,
  (i + 4 * count <= length data)%nat ->
  exists poly, decode_loop data modulus count i = Some poly /\
               length poly = count /\
               (0 < modulus -> Forall (fun c => 0 <= c < modulus) poly).
Proof.
  induction count as [|count IH]; intros i Hi; cbn [decode_loop].
  - exists []. repeat split. intros _. constructor.
  - destruct (read_coeff_in_bounds data i ltac:(lia)) as [c Hc].
    destruct (IH (i + 4)%nat ltac:(lia)) as (rest & Hrest & Hlen & Hrange).
    rewrite Hc, Hrest. cbn [obind].
    exists (reduce modulus c :: rest). repeat split.
    + cbn [length]. now rewrite Hlen.
    + intros Hm. constructor; [now apply reduce_below | auto].
Qed.

(** [decode_colors_to_polynomial] throws exactly when the buffer length
    is not a multiple of 4; otherwise it returns one coefficient per
    four bytes, each below [modulus] when [modulus] is not 0. *)
Theorem color_decode_fails_only_on_bad_length (data : list Z) (modulus : Z) :
  0 <= modulus ->
  match decode_colors_to_polynomial data modulus with
  | None => (length data mod 4 <> 0)%nat
  | Some poly =>
      (length data mod 4 = 0)%nat /\ (4 * length poly = length data)%nat /\
      (modulus <> 0 -> Forall (fun c => 0 <= c < modulus) poly)
  end.
Proof.
  intros Hm. unfold decode_colors_to_polynomial.
  destruct (Nat.eqb (length data mod 4) 0) eqn:E; cbn [negb].
  - apply Nat.eqb_eq in E.
    pose proof (Nat.div_mod_eq (length data) 4) as Hdiv.
    destruct (decode_loop_in_bounds data modulus (length data / 4) 0 ltac:(lia))
      as (poly & Hpoly & Hlen & Hrange).
    rewrite Hpoly. repeat split; [assumption | lia |].
    intros Hne. apply Hrange. lia.
  - apply Nat.eqb_neq in E. exact E.
Qed.

Lemma color_decode_fails_only_on_bad_length_witness :
  match decode_colors_to_polynomial [0; 0; 1; 2; 255; 255; 255; 255] 1000 with
  | None => (length [0; 0; 1; 2; 255; 255; 255; 255] mod 4 <> 0)%nat
  | Some poly =>
      (length [0; 0; 1; 2; 255; 255; 255; 255] mod 4 = 0)%nat /\
      (4 * length poly = length [0; 0; 1; 2; 255; 255; 255; 255])%nat /\
      (1000 <> 0 -> Forall (fun c => 0 <= c < 1000) poly)
  end.
Proof. apply color_decode_fails_only_on_bad_length. lia. Defined.

Lemma decode_row_in_bounds data modulus n : forall idx,
  (idx + 4 * n <= length data)%nat ->
  exists row, decode_row data modulus n idx = Some (row, (idx + 4 * n)%nat) /\
              length row = n.
Proof.
  induction n as [|n IH]; intros idx Hi; cbn [decode_row].
  - exists []. split; [apply f_equal, f_equal; lia | reflexivity].
  - destruct (read_coeff_in_bounds data idx ltac:(lia)) as [c Hc].
    destruct (IH (idx + 4)%nat ltac:(lia)) as (rest & Hrest & Hlen).
    rewrite Hc, Hrest. cbn [obind].
    exists (reduce modulus c :: rest). split.
    + apply f_equal, f_equal. lia.
    + cbn [length]. now rewrite Hlen.
Qed.

Lemma decode_rows_in_bounds data modulus n k : forall idx,
  (idx + 4 * (k * n) <= length data)%nat ->
  exists v, decode_rows data modulus k n idx = Some v /\
            length v = k /\ Forall (fun row => length row = n) v.
Proof.
  induction k as [|k IH]; intros idx Hi; cbn [decode_rows].
  - exists []. repeat split. constructor.
  - destruct (decode_row_in_bounds data modulus n idx ltac:(lia))
      as (row & Hrow & Hlen).
    destruct (IH (idx + 4 * n)%nat ltac:(lia)) as (rest & Hrest & Hk & Hall).
    rewrite Hrow. cbn [obind]. rewrite Hrest. cbn [obind].
    exists (row :: rest). repeat split.
    + cbn [length]. now rewrite Hk.
    + constructor; assumption.
Qed.

(** When [k * n * 4] does not wrap around in 32 bits, the size check is
    the only way [decode_colors_to_polynomial_vector] fails: a buffer of
    exactly [k * n * 4] bytes is always decoded, into [k] rows of [n]
    coefficients, and every other buffer is refused. *)
Theorem color_vector_decode_fails_only_on_bad_length
  (data : list Z) (k n : nat) (modulus : Z) :
  Z.of_nat k * Z.of_nat n * 4 < 2 ^ 32 ->
  match decode_colors_to_polynomial_vector data k n modulus with
  | None => length data <> (k * n * 4)%nat
  | Some v =>
      length data = (k * n * 4)%nat /\ length v = k /\
      Forall (fun row => length row = n) v
  end.
Proof.
  intros Hsize. unfold decode_colors_to_polynomial_vector.
  unfold u32. rewrite Z.mod_small by lia.
  destruct (Z.of_nat (length data) =? Z.of_nat k * Z.of_nat n * 4) eqn:E;
    cbn [negb].
  - apply Z.eqb_eq in E.
    destruct (decode_rows_in_bounds data modulus n k 0 ltac:(lia))
      as (v & Hv & Hk & Hall).
    rewrite Hv. repeat split; [lia | assumption | assumption].
  - apply Z.eqb_neq in E. lia.
Qed.

Lemma color_vector_decode_fails_only_on_bad_length_witness :
  match decode_colors_to_polynomial_vector [0; 0; 0; 1; 0; 0; 0; 2; 9] 1 2 0 with
  | None => length [0; 0; 0; 1; 0; 0; 0; 2; 9] <> (1 * 2 * 4)%nat
  | Some v =>
      length [0; 0; 0; 1; 0; 0; 0; 2; 9] = (1 * 2 * 4)%nat /\ length v = 1%nat /\
      Forall (fun row => length row = 2%nat) v
  end.
Proof. apply color_vector_decode_fails_only_on_bad_length. reflexivity. Defined.

(** *** The raw mode, modulus 0 *)

Lemma rgba_of_bytes b0 b1 b2 b3 :
  is_byte b0 -> is_byte b1 -> is_byte b2 -> is_byte b3 ->
  rgba (Z.lor (Z.lor (Z.lor (u32 (Z.shiftl b0 24)) (u32 (Z.shiftl b1 16)))
                     (u32 (Z.shiftl b2 8))) b3)
  = [b0; b1; b2; b3].
Proof.
  unfold is_byte, rgba, u32. intros H0 H1 H2 H3.
  assert (Hhi : forall b i, 0 <= b < 256 -> 8 <= i -> Z.testbit b i = false).
  { intros b i Hb Hi. apply (Z.testbit_false b i); [lia|].
    rewrite Z.div_small; [reflexivity|].
    split; [lia|]. apply Z.lt_le_trans with (2 ^ 8); [lia|].
    apply Z.pow_le_mono_r; lia. }
  change 255 with (Z.ones 8).
  rewrite <- !Z.land_ones by lia.
  repeat f_equal;
    (Z.bitblast;
     repeat match goal with
            | |- context [Z.testbit ?b ?i] =>
                first [ rewrite (Hhi b i) by lia
                      | rewrite (Z.testbit_neg_r b i) by lia ]
            end;
     rewrite ?andb_true_r, ?andb_false_r, ?orb_false_r, ?orb_false_l;
     try reflexivity; f_equal; lia).
Qed.

Lemma decode_loop_raw count : forall pre data,
  Forall is_byte data -> length data = (4 * count)%nat ->
  exists poly, decode_loop (pre ++ data) 0 count (length pre) = Some poly /\
               flat_map rgba poly = data.
Proof.
  induction count as [|count IH]; intros pre data Hb Hlen.
  - destruct data; [|cbn [length] in Hlen; lia]. exists []. split; reflexivity.
  - destruct data as [|b0 [|b1 [|b2 [|b3 data]]]];
      try (cbn [length] in Hlen; lia).
    apply Forall_cons_iff in Hb as [H0 Hb].
    apply Forall_cons_iff in Hb as [H1 Hb].
    apply Forall_cons_iff in Hb as [H2 Hb].
    apply Forall_cons_iff in Hb as [H3 Hrest].
    destruct (IH (pre ++ [b0; b1; b2; b3]) data Hrest) as (poly & Hpoly & Hflat).
    { cbn [length] in Hlen. lia. }
    assert (Hread :
      read_coeff (pre ++ b0 :: b1 :: b2 :: b3 :: data) (length pre)
      = Some (Z.lor (Z.lor (Z.lor (u32 (Z.shiftl b0 24)) (u32 (Z.shiftl b1 16)))
                           (u32 (Z.shiftl b2 8))) b3)).
    { unfold read_coeff.
      rewrite <- (Nat.add_0_r (length pre)) at 1.
      rewrite !nth_error_app_skip. reflexivity. }
    cbn [decode_loop]. rewrite Hread. cbn [obind].
    rewrite <- app_assoc, length_app in Hpoly. cbn [length app] in Hpoly.
    rewrite Hpoly. cbn [obind].
    eexists. split; [reflexivity|].
    cbn [flat_map]. unfold reduce at 1. cbn [Z.eqb].
    rewrite rgba_of_bytes by assumption. rewrite Hflat. reflexivity.
Qed.

(** With modulus 0 nothing is reduced, and the codec is lossless in the
    other direction as well: encoding what was decoded from a byte
    buffer gives the buffer back. *)
Theorem color_encode_decode_raw (data poly : list Z) :
  Forall is_byte data ->
  decode_colors_to_polynomial data 0 = Some poly ->
  encode_polynomial_as_colors poly 0 = data.
Proof.
  intros Hb. unfold decode_colors_to_polynomial.
  destruct (Nat.eqb (length data mod 4) 0) eqn:E; cbn [negb]; [|discriminate].
  apply Nat.eqb_eq in E.
  pose proof (Nat.div_mod_eq (length data) 4) as Hdiv.
  destruct (decode_loop_raw (length data / 4) [] data Hb ltac:(lia))
    as (poly' & Hpoly & Hflat).
  cbn [app length] in Hpoly. rewrite Hpoly.
  intros H. injection H as <-.
  rewrite encode_poly_flat_map. exact Hflat.
Qed.

Lemma color_encode_decode_raw_witness :
  encode_polynomial_as_colors [16909060; 4294967295] 0
  = [1; 2; 3; 4; 255; 255; 255; 255].
Proof.
  apply color_encode_decode_raw.
  - unfold is_byte. repeat first [apply Forall_nil | apply Forall_cons]; lia.
  - reflexivity.
Defined.

End ColorIntegrationFacts.

Module CoseFacts.
Import Cose.

(** Fields the simplified decoder can read back: a one-byte length. *)
Definition short_field (d : list Z) : Prop := (length d < 256)%nat.

Definition fields_short (e : COSE_Sign1) : Prop :=
  short_field (protected_header e) /\ short_field (unprotected_header e) /\
  short_field (payload e) /\ short_field (signature e).

(** The length header [encode_bstr] writes in front of the data. *)
Definition bstr_header (len : Z) : list Z :=
  if len <? 24 then
    [initial_byte BYTE_STRING (u8 len)]
  else if len <=? 255 then
    [initial_byte BYTE_STRING 24; u8 len]
  else if len <=? 65535 then
    [initial_byte BYTE_STRING 25; u8 (Z.shiftr len 8); u8 (Z.land len 255)]
  else
    [initial_byte BYTE_STRING 26;
     u8 (Z.land (Z.shiftr len 24) 255); u8 (Z.land (Z.shiftr len 16) 255);
     u8 (Z.land (Z.shiftr len 8) 255); u8 (Z.land (Z.shiftr len 0) 255)].

Lemma encode_bstr_split d :
  encode_bstr d = bstr_header (Z.of_nat (length d)) ++ d.
Proof. reflexivity. Qed.

Lemma small_initial_byte (major : Z) (n : nat) :
  0 <= major < 8 -> (n < 24)%nat ->
  Z.shiftr (initial_byte major (u8 (Z.of_nat n))) 5 = major /\
  Z.land (initial_byte major (u8 (Z.of_nat n))) 31 = Z.of_nat n.
Proof.
  intros Hmajor Hn.
  assert (Hm : major = 0 \/ major = 1 \/ major = 2 \/ major = 3 \/
               major = 4 \/ major = 5 \/ major = 6 \/ major = 7) by lia.
  do 24 (destruct n as [|n]; [clear Hn; intuition (subst; split; reflexivity)|]).
  lia.
Qed.

(** Reading back a header written for a length below 256. *)
Lemma decode_header_short pre (n : nat) rest :
  (n < 256)%nat ->
  decode_header BYTE_STRING (pre ++ bstr_header (Z.of_nat n) ++ rest) (length pre)
  = Some (n, (length pre + length (bstr_header (Z.of_nat n)))%nat).
Proof.
  intros Hn. unfold decode_header, bstr_header.
  rewrite nth_error_app_here.
  destruct (Z.of_nat n <? 24) eqn:E24.
  - apply Z.ltb_lt in E24.
    destruct (small_initial_byte BYTE_STRING n) as [Hmaj Hmin];
      [unfold BYTE_STRING; lia | lia |].
    cbn [app]. rewrite nth_error_head. cbn [obind length].
    rewrite Hmaj, Hmin, Z.eqb_refl. cbn [negb].
    apply Z.ltb_lt in E24. rewrite E24, Nat2Z.id.
    apply f_equal, f_equal. lia.
  - apply Z.ltb_ge in E24.
    replace (Z.of_nat n <=? 255) with true by (symmetry; apply Z.leb_le; lia).
    cbn [app]. rewrite nth_error_head. cbn [obind length].
    change (Z.shiftr (initial_byte BYTE_STRING 24) 5) with BYTE_STRING.
    change (Z.land (initial_byte BYTE_STRING 24) 31) with 24.
    rewrite Z.eqb_refl.
    change (24 <? 24) with false. change (24 =? 24) with true. cbn [negb].
    replace (S (length pre)) with (length pre + 1)%nat by lia.
    rewrite nth_error_app_skip. cbn [nth_error obind].
    unfold u8 at 1. rewrite Z.mod_small by lia. rewrite Nat2Z.id.
    apply f_equal, f_equal. lia.
Qed.

(** A header written for 256 bytes or more is refused. *)
Lemma decode_header_long pre (n : nat) rest :
  (256 <= n)%nat ->
  decode_header BYTE_STRING (pre ++ bstr_header (Z.of_nat n) ++ rest) (length pre)
  = None.
Proof.
  intros Hn. unfold decode_header, bstr_header.
  rewrite nth_error_app_here.
  replace (Z.of_nat n <? 24) with false by (symmetry; apply Z.ltb_ge; lia).
  replace (Z.of_nat n <=? 255) with false by (symmetry; apply Z.leb_gt; lia).
  destruct (Z.of_nat n <=? 65535); reflexivity.
Qed.

Lemma decode_bstr_encode pre d post :
  short_field d ->
  decode_bstr (pre ++ encode_bstr d ++ post) (length pre)
  = Some (d, (length pre + length (encode_bstr d))%nat).
Proof.
  unfold short_field. intros Hd. unfold decode_bstr.
  rewrite encode_bstr_split, <- app_assoc.
  rewrite decode_header_short by assumption. cbn [obind].
  set (h := bstr_header (Z.of_nat (length d))).
  rewrite !length_app.
  replace (length pre + (length h + (length d + length post))
           <? length pre + length h + length d)%nat
    with false by (symmetry; apply Nat.ltb_ge; lia).
  rewrite skipn_app_skip.
  rewrite <- (Nat.add_0_r (length h)), skipn_app_skip. cbn [skipn].
  rewrite firstn_app_exact. apply f_equal, f_equal. lia.
Qed.

Lemma decode_bstr_encode_long pre d post :
  ~ short_field d ->
  decode_bstr (pre ++ encode_bstr d ++ post) (length pre) = None.
Proof.
  unfold short_field. intros Hd. unfold decode_bstr.
  rewrite encode_bstr_split, <- app_assoc.
  rewrite decode_header_long by lia. reflexivity.
Qed.

Lemma decode_items_encode items : forall pre post,
  Forall short_field items ->
  decode_items (pre ++ concat (map encode_bstr items) ++ post)
               (length items) (length pre)
  = Some (items, (length pre + length (concat (map encode_bstr items)))%nat).
Proof.
  induction items as [|d items IH]; intros pre post Hs.
  - simpl. apply f_equal, f_equal. lia.
  - inversion Hs as [|? ? Hd Hrest]; subst.
    cbn [map concat length decode_items].
    rewrite <- app_assoc, decode_bstr_encode by assumption. cbn [obind].
    specialize (IH (pre ++ encode_bstr d) post Hrest).
    rewrite <- app_assoc, length_app in IH. rewrite IH. cbn [obind].
    rewrite length_app. apply f_equal, f_equal. lia.
Qed.

Lemma decode_items_long items : forall pre post,
  Exists (fun d => ~ short_field d) items ->
  decode_items (pre ++ concat (map encode_bstr items) ++ post)
               (length items) (length pre)
  = None.
Proof.
  induction items as [|d items IH]; intros pre post Hex.
  - inversion Hex.
  - cbn [map concat length decode_items]. rewrite <- app_assoc.
    destruct (lt_dec (length d) 256) as [Hd|Hd].
    + rewrite decode_bstr_encode by assumption. cbn [obind].
      assert (Hrest : Exists (fun d => ~ short_field d) items).
      { inversion Hex as [? ? Hbad|]; subst; [contradiction|assumption]. }
      specialize (IH (pre ++ encode_bstr d) post Hrest).
      rewrite <- app_assoc, length_app in IH. rewrite IH. reflexivity.
    + rewrite decode_bstr_encode_long by assumption. reflexivity.
Qed.

Definition fields (e : COSE_Sign1) : list (list Z) :=
  [protected_header e; unprotected_header e; payload e; signature e].

Lemma decode_cose_sign1_items e :
  decode_cose_sign1 (encode_cose_sign1 e)
  = do (items, _) <- decode_items
                       ([initial_byte ARRAY 4]
                        ++ concat (map encode_bstr (fields e)) ++ [])
                       (length (fields e)) 1;
    match items with
    | [i0; i1; i2; i3] => Some (mkCOSE_Sign1 i0 i1 i2 i3)
    | _ => None
    end.
Proof.
  unfold decode_cose_sign1, encode_cose_sign1, encode_array, decode_array.
  rewrite app_nil_r. reflexivity.
Qed.

(** C8 (amended). The COSE_Sign1 round trip holds exactly for the
    envelopes whose four fields are each shorter than 256 bytes: for
    those, decoding the encoding gives the envelope back; for any other
    envelope, one with a field of 256 bytes or more, the decoder
    throws. *)
Theorem cose_sign1_round_trip_short (e : COSE_Sign1) :
  (decode_cose_sign1 (encode_cose_sign1 e) = Some e <-> fields_short e) /\
  (~ fields_short e -> decode_cose_sign1 (encode_cose_sign1 e) = None).
Proof.
  rewrite decode_cose_sign1_items.
  destruct (Forall_Exists_dec short_field
              (fun d => lt_dec (length d) 256) (fields e)) as [Hall|Hex].
  - change 1%nat with (length [initial_byte ARRAY 4]).
    rewrite decode_items_encode by assumption. cbn [obind fields].
    assert (Hshort : fields_short e).
    { unfold fields in Hall.
      inversion Hall as [|? ? H0 Hall1]; subst.
      inversion Hall1 as [|? ? H1 Hall2]; subst.
      inversion Hall2 as [|? ? H2 Hall3]; subst.
      inversion Hall3 as [|? ? H3 _]; subst.
      repeat split; assumption. }
    split; [|intros Hn; contradiction].
    split; [intros _; exact Hshort|intros _; destruct e; reflexivity].
  - change 1%nat with (length [initial_byte ARRAY 4]).
    rewrite decode_items_long by assumption. cbn [obind].
    split; [|intros _; reflexivity].
    split; [discriminate|].
    intros (H0 & H1 & H2 & H3). exfalso.
    unfold fields in Hex.
    repeat match goal with
           | H : Exists _ (_ :: _) |- _ => inversion H; clear H; subst
           | H : Exists _ [] |- _ => inversion H
           end; contradiction.
Qed.

(** C8, as stated, fails: a payload of 256 bytes is encoded with a
    two-byte length, which the decoder refuses. *)
Lemma cose_sign1_round_trip_fails_256 :
  decode_cose_sign1
    (encode_cose_sign1 (mkCOSE_Sign1 [161; 1; 38] [160] (repeat 7 256) [1; 2; 3]))
  = None.
Proof. vm_compute. reflexivity. Qed.

(** *** Unsigned integers and the header map *)

Lemma decode_uint_small pre (value : Z) rest :
  0 <= value < 256 ->
  decode_uint (pre ++ encode_uint value ++ rest) (length pre)
  = Some (value, (length pre + length (encode_uint value))%nat).
Proof.
  intros Hv. unfold decode_uint, encode_uint.
  rewrite nth_error_app_here.
  destruct (value <? 24) eqn:E24.
  - apply Z.ltb_lt in E24.
    destruct (small_initial_byte UNSIGNED_INT (Z.to_nat value)) as [Hmaj Hmin];
      [unfold UNSIGNED_INT; lia | lia |].
    rewrite Z2Nat.id in Hmaj, Hmin by lia.
    cbn [app]. rewrite nth_error_head. cbn [obind length].
    rewrite Hmaj, Hmin, Z.eqb_refl. cbn [negb].
    apply Z.ltb_lt in E24. rewrite E24.
    apply f_equal, f_equal. lia.
  - apply Z.ltb_ge in E24.
    replace (value <=? 255) with true by (symmetry; apply Z.leb_le; lia).
    cbn [app]. rewrite nth_error_head. cbn [obind length].
    change (Z.shiftr (initial_byte UNSIGNED_INT 24) 5) with UNSIGNED_INT.
    change (Z.land (initial_byte UNSIGNED_INT 24) 31) with 24.
    rewrite Z.eqb_refl.
    change (24 <? 24) with false. change (24 =? 24) with true. cbn [negb].
    replace (S (length pre)) with (length pre + 1)%nat by lia.
    rewrite nth_error_app_skip. cbn [nth_error obind].
    unfold u8 at 1. rewrite Z.mod_small by lia.
    apply f_equal, f_equal. lia.
Qed.

Lemma decode_uint_large pre (value : Z) rest :
  256 <= value ->
  decode_uint (pre ++ encode_uint value ++ rest) (length pre) = None.
Proof.
  intros Hv. unfold decode_uint, encode_uint.
  rewrite nth_error_app_here.
  replace (value <? 24) with false by (symmetry; apply Z.ltb_ge; lia).
  replace (value <=? 255) with false by (symmetry; apply Z.leb_gt; lia).
  destruct (value <=? 65535); [reflexivity|].
  destruct (value <=? 4294967295); reflexivity.
Qed.

(** [decode_uint] reads back what [encode_uint] wrote exactly for the
    values below 256; a wider value is written with a two-, four- or
    eight-byte argument, which the decoder refuses. *)
Theorem uint_round_trip_below_256 (value : Z) (rest : list Z) :
  0 <= value ->
  (decode_uint (encode_uint value ++ rest) 0
   = Some (value, length (encode_uint value))
   <-> value < 256).
Proof.
  intros Hv.
  change (decode_uint (encode_uint value ++ rest) 0)
    with (decode_uint ([] ++ encode_uint value ++ rest) (length (@nil Z))).
  destruct (Z_lt_ge_dec value 256) as [Hlt|Hge].
  - rewrite decode_uint_small by lia. tauto.
  - rewrite decode_uint_large by lia.
    split; [discriminate|lia].
Qed.

Lemma uint_round_trip_below_256_witness :
  decode_uint (encode_uint 200 ++ [7]) 0 = Some (200, length (encode_uint 200))
  <-> 200 < 256.
Proof. apply (uint_round_trip_below_256 200 [7]). lia. Defined.

Lemma encode_cose_header_bytes h :
  encode_cose_header h
  = [initial_byte MAP 1] ++ encode_uint 1 ++ encode_uint (u64 (alg h)) ++ [].
Proof.
  unfold encode_cose_header, encode_map. cbn [fold_left fst snd length].
  change (u64 1) with 1. rewrite app_nil_r. reflexivity.
Qed.

(** The protected header comes back from its encoding exactly when the
    algorithm identifier lies between 0 and 255: a larger one is written
    with a wider argument, and a negative one is converted to a 64-bit
    unsigned value first; the decoder throws on both. *)
Theorem cose_header_round_trip (h : COSE_Header) :
  - 2 ^ 31 <= alg h < 2 ^ 31 ->
  (decode_cose_header (encode_cose_header h) = Some h <-> 0 <= alg h <= 255) /\
  (255 < alg h -> decode_cose_header (encode_cose_header h) = None) /\
  (alg h < 0 -> decode_cose_header (encode_cose_header h) = None).
Proof.
  intros Hint. rewrite encode_cose_header_bytes.
  unfold decode_cose_header. cbn [app nth_error obind].
  change (Z.shiftr (initial_byte MAP 1) 5 =? MAP) with true.
  change (Z.land (initial_byte MAP 1) 31 =? 1) with true. cbn [negb].
  change (decode_uint (initial_byte MAP 1 :: encode_uint 1 ++ encode_uint (u64 (alg h)) ++ []) 1)
    with (decode_uint ([initial_byte MAP 1] ++ encode_uint 1 ++ encode_uint (u64 (alg h)) ++ [])
                      (length [initial_byte MAP 1])).
  rewrite decode_uint_small by lia. cbn [obind].
  change (1 =? 1) with true. cbn [negb].
  change (initial_byte MAP 1 :: encode_uint 1 ++ encode_uint (u64 (alg h)) ++ [])
    with (([initial_byte MAP 1] ++ encode_uint 1) ++ encode_uint (u64 (alg h)) ++ []).
  change (length [initial_byte MAP 1] + length (encode_uint 1))%nat
    with (length ([initial_byte MAP 1] ++ encode_uint 1)).
  destruct (Z_lt_ge_dec (alg h) 0) as [Hneg|Hpos].
  - assert (Hbig : 256 <= u64 (alg h)).
    { unfold u64.
      replace (alg h mod 2 ^ 64) with (alg h + 2 ^ 64); [lia|].
      apply Z.mod_unique with (-1); lia. }
    rewrite decode_uint_large by exact Hbig. cbn [obind].
    split; [split; [discriminate|lia]|].
    split; intros _; reflexivity.
  - assert (Hu : u64 (alg h) = alg h) by (unfold u64; apply Z.mod_small; lia).
    rewrite Hu.
    destruct (Z_lt_ge_dec (alg h) 256) as [Hlt|Hge].
    + rewrite decode_uint_small by lia. cbn [obind].
      assert (Hi : i32 (alg h) = alg h).
      { unfold i32, signed. rewrite Z.mod_small by lia.
        replace (alg h <? 2 ^ (32 - 1)) with true; [reflexivity|].
        symmetry. apply Z.ltb_lt. lia. }
      rewrite Hi. destruct h as [a]; cbn [alg] in *.
      split; [split; [lia|reflexivity]|].
      split; intros Hout; lia.
    + rewrite decode_uint_large by lia. cbn [obind].
      split; [split; [discriminate|lia]|].
      split; intros _; reflexivity.
Qed.

Lemma cose_header_round_trip_witness :
  (decode_cose_header (encode_cose_header (mkCOSE_Header (-48)))
   = Some (mkCOSE_Header (-48))
   <-> 0 <= -48 <= 255) /\
  (255 < -48 ->
   decode_cose_header (encode_cose_header (mkCOSE_Header (-48))) = None) /\
  (-48 < 0 ->
   decode_cose_header (encode_cose_header (mkCOSE_Header (-48))) = None).
Proof. apply (cose_header_round_trip (mkCOSE_Header (-48))). cbn [alg]. lia. Defined.

(** *** What the envelope decoder accepts *)

Lemma decode_cose_sign1_encode_app (e : COSE_Sign1) (junk : list Z) :
  fields_short e ->
  decode_cose_sign1 (encode_cose_sign1 e ++ junk) = Some e.
Proof.
  intros (H0 & H1 & H2 & H3).
  assert (Hitems :
    decode_cose_sign1 (encode_cose_sign1 e ++ junk)
    = do (items, _) <- decode_items
                         ([initial_byte ARRAY 4]
                          ++ concat (map encode_bstr (fields e)) ++ junk)
                         (length (fields e)) (length [initial_byte ARRAY 4]);
      match items with
      | [i0; i1; i2; i3] => Some (mkCOSE_Sign1 i0 i1 i2 i3)
      | _ => None
      end).
  { unfold decode_cose_sign1, encode_cose_sign1, encode_array, decode_array.
    rewrite <- app_assoc. reflexivity. }
  rewrite Hitems.
  rewrite decode_items_encode
    by (unfold fields;
        repeat first [apply Forall_nil | apply Forall_cons]; assumption).
  cbn [obind fields]. destruct e; reflexivity.
Qed.

(** Bytes behind the four fields are not looked at: an encoded
    envelope followed by anything decodes to the envelope. *)
Theorem decode_cose_sign1_ignores_trailing_bytes (e : COSE_Sign1) (junk : list Z) :
  fields_short e ->
  decode_cose_sign1 (encode_cose_sign1 e ++ junk) = Some e.
Proof. apply decode_cose_sign1_encode_app. Qed.

Lemma decode_cose_sign1_ignores_trailing_bytes_witness :
  decode_cose_sign1
    (encode_cose_sign1 (mkCOSE_Sign1 [161; 1; 38] [160] [72; 105] [1; 2; 3])
     ++ [255; 255])
  = Some (mkCOSE_Sign1 [161; 1; 38] [160] [72; 105] [1; 2; 3]).
Proof.
  apply decode_cose_sign1_ignores_trailing_bytes.
  unfold fields_short, short_field. cbn [length protected_header
    unprotected_header payload signature]. lia.
Defined.

Definition is_bytes (data : list Z) : Prop :=
  Forall (fun b => 0 <= b < 256) data.

Lemma decode_header_bounds major data offset len offset' :
  is_bytes data ->
  decode_header major data offset = Some (len, offset') ->
  (len < 256)%nat /\ (offset < offset' <= length data)%nat.
Proof.
  intros Hb. unfold decode_header.
  destruct (nth_error data offset) as [initial|] eqn:Ei; [|discriminate].
  cbn [obind].
  assert (Hoff : (offset < length data)%nat)
    by (apply nth_error_Some; congruence).
  destruct (negb (Z.shiftr initial 5 =? major)); [discriminate|].
  destruct (Z.land initial 31 <? 24) eqn:E24.
  - intros H. injection H as <- <-. apply Z.ltb_lt in E24.
    assert (0 <= Z.land initial 31).
    { apply Z.land_nonneg. right. lia. }
    lia.
  - destruct (Z.land initial 31 =? 24); [|discriminate].
    destruct (nth_error data (S offset)) as [b|] eqn:Eb; [|discriminate].
    cbn [obind]. intros H. injection H as <- <-.
    assert (Hoff' : (S offset < length data)%nat)
      by (apply nth_error_Some; congruence).
    apply nth_error_In in Eb.
    unfold is_bytes in Hb. rewrite Forall_forall in Hb.
    specialize (Hb b Eb). lia.
Qed.

Lemma decode_bstr_bounds data offset item offset' :
  is_bytes data ->
  decode_bstr data offset = Some (item, offset') ->
  short_field item /\ (offset < offset' <= length data)%nat /\
  (length item < offset' - offset)%nat.
Proof.
  intros Hb. unfold decode_bstr.
  destruct (decode_header BYTE_STRING data offset) as [[len off]|] eqn:Eh;
    [|discriminate].
  cbn [obind].
  destruct (decode_header_bounds _ _ _ _ _ Hb Eh) as [Hlen Hoff].
  destruct (length data <? off + len)%nat eqn:El; [discriminate|].
  apply Nat.ltb_ge in El.
  intros H. injection H as <- <-.
  unfold short_field. rewrite length_firstn, length_skipn. lia.
Qed.

Lemma decode_items_bounds data len : forall offset items offset',
  is_bytes data ->
  decode_items data len offset = Some (items, offset') ->
  Forall short_field items /\ length items = len /\
  (offset <= offset' <= length data \/ (len = O /\ offset' = offset))%nat /\
  (length (concat items) + len <= offset' - offset)%nat.
Proof.
  induction len as [|len IH]; intros offset items offset' Hb;
    cbn [decode_items].
  - intros H. injection H as <- <-. cbn. repeat split; auto; lia.
  - destruct (decode_bstr data offset) as [[item off]|] eqn:Eb; [|discriminate].
    cbn [obind].
    destruct (decode_items data len off) as [[rest off2]|] eqn:Er; [|discriminate].
    cbn [obind]. intros H. injection H as <- <-.
    destruct (decode_bstr_bounds _ _ _ _ Hb Eb) as (Hs & Ho & Hl).
    destruct (IH _ _ _ Hb Er) as (Hall & Hn & Hoff & Hsum).
    cbn [concat length]. rewrite length_app.
    repeat split.
    + constructor; assumption.
    + congruence.
    + left. lia.
    + lia.
Qed.

(** On a byte buffer, whatever the decoder returns has four fields
    shorter than 256 bytes that fit into the buffer together with their
    headers; so the result is an envelope that itself survives the
    round trip. *)
Theorem decode_cose_sign1_result_is_short (data : list Z) (e : COSE_Sign1) :
  is_bytes data ->
  decode_cose_sign1 data = Some e ->
  fields_short e /\
  (length (protected_header e) + length (unprotected_header e)
   + length (payload e) + length (signature e) + 5 <= length data)%nat /\
  decode_cose_sign1 (encode_cose_sign1 e) = Some e.
Proof.
  intros Hb. unfold decode_cose_sign1 at 1, decode_array.
  destruct (decode_header ARRAY data 0) as [[len off]|] eqn:Eh; [|discriminate].
  cbn [obind].
  destruct (decode_items data len off) as [[items off']|] eqn:Ei; [|discriminate].
  cbn [obind].
  destruct items as [|i0 [|i1 [|i2 [|i3 [|i4 rest]]]]]; try discriminate.
  intros H. injection H as <-.
  destruct (decode_header_bounds _ _ _ _ _ Hb Eh) as [_ Hoff].
  destruct (decode_items_bounds _ _ _ _ _ Hb Ei) as (Hall & Hn & Ho & Hsum).
  cbn [length] in Hn. subst len.
  cbn [concat] in Hsum. rewrite !length_app in Hsum. cbn [length] in Hsum.
  inversion Hall as [|? ? H0 Hall1]; subst.
  inversion Hall1 as [|? ? H1 Hall2]; subst.
  inversion Hall2 as [|? ? H2 Hall3]; subst.
  inversion Hall3 as [|? ? H3 _]; subst.
  assert (Hshort : fields_short (mkCOSE_Sign1 i0 i1 i2 i3))
    by (repeat split; assumption).
  split; [exact Hshort|]. split.
  - cbn [protected_header unprotected_header payload signature]. lia.
  - rewrite <- (app_nil_r (encode_cose_sign1 _)).
    apply decode_cose_sign1_encode_app. exact Hshort.
Qed.

Definition sample_envelope : COSE_Sign1 :=
  mkCOSE_Sign1 [161; 1; 38] [160] [72; 105] [1; 2; 3].

(** [sample_envelope] with the second length written in two bytes and a
    trailing zero. *)
Definition sample_bytes : list Z :=
  [132; 67; 161; 1; 38; 88; 1; 160; 66; 72; 105; 67; 1; 2; 3; 0].

Lemma decode_cose_sign1_result_is_short_witness :
  fields_short sample_envelope /\
  (length (protected_header sample_envelope)
   + length (unprotected_header sample_envelope)
   + length (payload sample_envelope)
   + length (signature sample_envelope) + 5 <= length sample_bytes)%nat /\
  decode_cose_sign1 (encode_cose_sign1 sample_envelope) = Some sample_envelope.
Proof.
  apply (decode_cose_sign1_result_is_short sample_bytes).
  - unfold is_bytes, sample_bytes.
    repeat first [apply Forall_nil | apply Forall_cons]; lia.
  - reflexivity.
Defined.

End CoseFacts.

Module HighBitsFacts.
Import Utils SpecReference.

Definition same_list (a b : list Z) : bool :=
  if list_eq_dec Z.eq_dec a b then true else false.

Lemma high_bits_coeff_value (r d : Z) :
  1 <= d <= 31 -> 0 <= r < 2 ^ 32 ->
  high_bits_coeff r d = (r + 2 ^ (d - 1)) / 2 ^ d.
Proof.
  intros Hd Hr. unfold high_bits_coeff, u32, u64.
  rewrite !Z.shiftl_1_l.
  assert (Hlo : 0 < 2 ^ (d - 1) <= 2 ^ 30).
  { split; [apply Z.pow_pos_nonneg; lia|apply Z.pow_le_mono_r; lia]. }
  assert (Hd2 : 2 ^ d = 2 * 2 ^ (d - 1)).
  { rewrite <- Z.pow_succ_r by lia. f_equal. lia. }
  rewrite (Z.mod_small (2 ^ (d - 1))) by lia.
  rewrite (Z.mod_small (2 ^ d)) by lia.
  rewrite (Z.mod_small (r + 2 ^ (d - 1))) by lia.
  apply Z.mod_small. split.
  - apply Z.div_pos; lia.
  - apply Z.div_lt_upper_bound; lia.
Qed.

Lemma high_bits_coeff_rounds (r d : Z) :
  1 <= d <= 31 -> 0 <= r < 2 ^ 32 ->
  let r1 := high_bits_coeff r d in
  - 2 ^ (d - 1) <= r - r1 * 2 ^ d < 2 ^ (d - 1) /\
  (forall r1', - 2 ^ (d - 1) <= r - r1' * 2 ^ d < 2 ^ (d - 1) -> r1' = r1).
Proof.
  intros Hd Hr r1. subst r1. rewrite high_bits_coeff_value by assumption.
  assert (Hlo : 0 < 2 ^ (d - 1)) by (apply Z.pow_pos_nonneg; lia).
  assert (Hd2 : 2 ^ d = 2 * 2 ^ (d - 1)).
  { rewrite <- Z.pow_succ_r by lia. f_equal. lia. }
  set (h := 2 ^ (d - 1)) in *. rewrite Hd2.
  pose proof (Z.div_mod (r + h) (2 * h) ltac:(lia)) as Hdm.
  pose proof (Z.mod_pos_bound (r + h) (2 * h) ltac:(lia)) as Hmod.
  split; [lia|].
  intros r1' H'. apply (Z.div_unique (r + h) (2 * h) r1' (r + h - 2 * h * r1')); lia.
Qed.

(** C6 (amended). [compute_high_bits(w, w1, d, q)] rounds to a power of
    two: for 1 <= d <= 31 and every 32-bit coefficient r it stores the
    unique r1 with r = r1 * 2^d + r0 and r0 in [-2^(d-1), 2^(d-1)); it
    takes the bit count d, not gamma2, has no corner case at q - 1 and
    does not use q. *)
Theorem compute_high_bits_rounds_to_power_of_two (w w1 : list Z) (d q : Z) :
  1 <= d <= 31 ->
  Forall (fun r => 0 <= r < 2 ^ 32) w ->
  (length w <= length w1)%nat ->
  exists out,
    compute_high_bits w w1 d q = Some out /\
    length out = length w1 /\
    forall i, (i < length w)%nat ->
      let r := nth i w 0 in
      let r1 := nth i out 0 in
      - 2 ^ (d - 1) <= r - r1 * 2 ^ d < 2 ^ (d - 1) /\
      (forall r1', - 2 ^ (d - 1) <= r - r1' * 2 ^ d < 2 ^ (d - 1) -> r1' = r1).
Proof.
  intros Hd Hw Hlen. unfold compute_high_bits.
  replace (length w1 <? length w)%nat with false
    by (symmetry; apply Nat.ltb_ge; lia).
  eexists. split; [reflexivity|]. split.
  - rewrite length_app, length_map, length_skipn. lia.
  - cbv zeta. intros i Hi.
    rewrite app_nth1 by (rewrite length_map; lia).
    rewrite (nth_indep (map (fun wi => high_bits_coeff wi d) w)
               0 (high_bits_coeff 0 d)) by (rewrite length_map; lia).
    rewrite (map_nth (fun wi => high_bits_coeff wi d)).
    apply high_bits_coeff_rounds; [assumption|].
    rewrite Forall_forall in Hw. apply Hw. now apply nth_In.
Qed.

Lemma compute_high_bits_rounds_to_power_of_two_witness :
  exists out,
    compute_high_bits [100000; 8380416; 0] [7; 7; 7; 7] 13 8380417 = Some out /\
    length out = 4%nat /\
    forall i, (i < 3)%nat ->
      let r := nth i [100000; 8380416; 0] 0 in
      let r1 := nth i out 0 in
      - 2 ^ (13 - 1) <= r - r1 * 2 ^ 13 < 2 ^ (13 - 1) /\
      (forall r1', - 2 ^ (13 - 1) <= r - r1' * 2 ^ 13 < 2 ^ (13 - 1) -> r1' = r1).
Proof.
  apply (compute_high_bits_rounds_to_power_of_two
           [100000; 8380416; 0] [7; 7; 7; 7] 13 8380417).
  - lia.
  - repeat first [apply Forall_nil | apply Forall_cons]; lia.
  - simpl; lia.
Defined.

(** C6, as stated, fails: whatever bit count d the caller passes, the
    output differs from the high bits of decompose with alpha = 2 gamma2
    on the coefficients below (r1 = 1 for the first, the corner case
    r1 = 0 at q - 1 for the second), for both values of gamma2. *)
Lemma compute_high_bits_is_not_decompose :
  forallb
    (fun d =>
       match compute_high_bits [100000; 8380416] [0; 0] d q with
       | Some out =>
           negb (same_list out
                   (map (fun r => spec_highBits r (2 * gamma2_44))
                        [100000; 8380416]))
       | None => true
       end
       &&
       match compute_high_bits [300000; 8380416] [0; 0] d q with
       | Some out =>
           negb (same_list out
                   (map (fun r => spec_highBits r (2 * gamma2_65_87))
                        [300000; 8380416]))
       | None => true
       end)
    (map Z.of_nat (seq 1 31))
  = true
  /\ map (fun r => spec_highBits r (2 * gamma2_44)) [100000; 8380416] = [1; 0]
  /\ map (fun r => spec_highBits r (2 * gamma2_65_87)) [300000; 8380416] = [1; 0].
Proof. vm_compute. repeat split. Qed.

End HighBitsFacts.

Module SpongeFacts.
Import Utils.

Lemma seq_shift_by (len start k : nat) :
  map (fun i => (k + i)%nat) (seq start len) = seq (k + start) len.
Proof.
  revert start. induction len as [|len IH]; intros start; cbn [seq map];
    [reflexivity|].
  f_equal. rewrite IH. f_equal. lia.
Qed.

Lemma map_seq_from {A : Type} (f : nat -> A) (len start : nat) :
  map f (seq start len) = map (fun i => f (start + i)%nat) (seq 0 len).
Proof.
  rewrite <- (Nat.add_0_r start) at 1. rewrite <- seq_shift_by.
  rewrite map_map. reflexivity.
Qed.

Lemma squeeze_chunk_app state offset a b :
  squeeze_chunk state offset (a + b)
  = squeeze_chunk state offset a ++ squeeze_chunk state (offset + a) b.
Proof.
  unfold squeeze_chunk. rewrite seq_app, map_app. f_equal.
  cbn [Nat.add]. rewrite (map_seq_from _ b a). apply map_ext. intros i.
  now rewrite Nat.add_assoc.
Qed.

(** One pass of the loop, for a positive length. *)
Lemma squeeze_bytes_pass fuel state rate_bytes len offset :
  (0 < len)%nat ->
  squeeze_bytes (S fuel) state rate_bytes len offset
  = let chunk := Nat.min len (rate_bytes - offset) in
    let rest :=
      if Nat.eqb (offset + chunk) rate_bytes
      then squeeze_bytes fuel (keccak_f1600 state) rate_bytes (len - chunk) 0
      else squeeze_bytes fuel state rate_bytes (len - chunk) (offset + chunk) in
    (squeeze_chunk state offset chunk ++ fst rest, snd rest).
Proof.
  intros Hlen. destruct len as [|len]; [lia|].
  cbn [squeeze_bytes]. cbv zeta.
  destruct (Nat.eqb (offset + Nat.min (S len) (rate_bytes - offset)) rate_bytes);
    match goal with
    | |- (let '(_, _) := ?x in _) = _ => destruct x as [rest final]
    end; reflexivity.
Qed.

Lemma squeeze_bytes_done fuel state rate_bytes offset :
  squeeze_bytes fuel state rate_bytes 0 offset = ([], (state, offset)).
Proof. destruct fuel; reflexivity. Qed.

(** The loop never needs more passes than bytes. *)
Lemma squeeze_bytes_fuel rate_bytes len : forall fuel state offset,
  (offset < rate_bytes)%nat -> (len <= fuel)%nat ->
  squeeze_bytes fuel state rate_bytes len offset
  = squeeze_bytes len state rate_bytes len offset.
Proof.
  induction len as [len IH] using lt_wf_ind. intros fuel state offset Hoff Hfuel.
  destruct len as [|len]; [now rewrite !squeeze_bytes_done|].
  destruct fuel as [|fuel]; [lia|].
  rewrite !squeeze_bytes_pass by lia. cbv zeta.
  set (chunk := Nat.min (S len) (rate_bytes - offset)).
  assert (Hchunk : (1 <= chunk <= S len)%nat) by (subst chunk; lia).
  destruct (Nat.eqb_spec (offset + chunk) rate_bytes) as [Heq|Hne].
  - rewrite (IH (S len - chunk)%nat ltac:(lia) fuel) by lia.
    rewrite (IH (S len - chunk)%nat ltac:(lia) len) by lia. reflexivity.
  - assert (offset + chunk < rate_bytes)%nat by (subst chunk; lia).
    rewrite (IH (S len - chunk)%nat ltac:(lia) fuel) by lia.
    rewrite (IH (S len - chunk)%nat ltac:(lia) len) by lia. reflexivity.
Qed.

(** Squeezing [a + b] bytes is squeezing [a] bytes and then [b]. *)
Lemma squeeze_bytes_app rate_bytes b a : forall state offset,
  (offset < rate_bytes)%nat ->
  squeeze_bytes (a + b) state rate_bytes (a + b) offset
  = let first := squeeze_bytes a state rate_bytes a offset in
    let second :=
      squeeze_bytes b (fst (snd first)) rate_bytes b (snd (snd first)) in
    (fst first ++ fst second, snd second).
Proof.
  induction a as [a IH] using lt_wf_ind. intros state offset Hoff.
  destruct a as [|a].
  - cbn [Nat.add squeeze_bytes fst snd app].
    now destruct (squeeze_bytes b state rate_bytes b offset).
  - cbn [Nat.add]. rewrite !squeeze_bytes_pass by lia. cbv zeta.
    destruct (Nat.le_gt_cases (rate_bytes - offset) (S a)) as [Hfull|Hpart].
    + (* the first squeeze runs to the end of the block *)
      replace (Nat.min (S (a + b)) (rate_bytes - offset))
        with (rate_bytes - offset)%nat by lia.
      replace (Nat.min (S a) (rate_bytes - offset))
        with (rate_bytes - offset)%nat by lia.
      replace (offset + (rate_bytes - offset))%nat with rate_bytes by lia.
      rewrite Nat.eqb_refl.
      set (a' := (S a - (rate_bytes - offset))%nat).
      replace (S (a + b) - (rate_bytes - offset))%nat with (a' + b)%nat
        by (subst a'; lia).
      rewrite (squeeze_bytes_fuel rate_bytes (a' + b) (a + b)) by (subst a'; lia).
      rewrite (squeeze_bytes_fuel rate_bytes a' a) by (subst a'; lia).
      rewrite (IH a' ltac:(subst a'; lia)) by lia. cbv zeta. cbn [fst snd].
      now rewrite app_assoc.
    + (* the first squeeze stays inside the block *)
      replace (Nat.min (S a) (rate_bytes - offset)) with (S a) by lia.
      replace (Nat.eqb (offset + S a) rate_bytes) with false
        by (symmetry; apply Nat.eqb_neq; lia).
      replace (S a - S a)%nat with O by lia.
      rewrite squeeze_bytes_done. cbn [fst snd]. rewrite app_nil_r.
      destruct b as [|b].
      * rewrite Nat.add_0_r, squeeze_bytes_done. cbn [fst snd].
        replace (Nat.min (S a) (rate_bytes - offset)) with (S a) by lia.
        replace (Nat.eqb (offset + S a) rate_bytes) with false
          by (symmetry; apply Nat.eqb_neq; lia).
        replace (S a - S a)%nat with O by lia.
        rewrite squeeze_bytes_done. cbn [fst snd]. now rewrite !app_nil_r.
      * rewrite squeeze_bytes_pass by lia. cbv zeta. cbn [fst snd].
        set (chunk := Nat.min (S b) (rate_bytes - (offset + S a))).
        replace (Nat.min (S (a + S b)) (rate_bytes - offset))
          with (S a + chunk)%nat by (subst chunk; lia).
        rewrite squeeze_chunk_app, <- app_assoc.
        replace (offset + (S a + chunk))%nat with (offset + S a + chunk)%nat by lia.
        replace (S (a + S b) - (S a + chunk))%nat with (S b - chunk)%nat by lia.
        assert (Hchunk : (1 <= chunk <= S b)%nat) by (subst chunk; lia).
        destruct (Nat.eqb_spec (offset + S a + chunk) rate_bytes) as [Heq|Hne].
        -- rewrite (squeeze_bytes_fuel rate_bytes (S b - chunk) (a + S b)) by lia.
           rewrite (squeeze_bytes_fuel rate_bytes (S b - chunk) b) by lia.
           reflexivity.
        -- assert (offset + S a + chunk < rate_bytes)%nat by (subst chunk; lia).
           rewrite (squeeze_bytes_fuel rate_bytes (S b - chunk) (a + S b)) by lia.
           rewrite (squeeze_bytes_fuel rate_bytes (S b - chunk) b) by lia.
           reflexivity.
Qed.

(** A sampler between two operations: its offset is inside the block. *)
Definition well_formed (s : Sampler) : Prop :=
  (offset_ s < rate_bytes_ s)%nat.

Lemma squeeze_bytes_offset rate_bytes len : forall fuel state offset,
  (offset < rate_bytes)%nat ->
  (snd (snd (squeeze_bytes fuel state rate_bytes len offset)) < rate_bytes)%nat.
Proof.
  induction len as [len IH] using lt_wf_ind. intros fuel state offset Hoff.
  destruct fuel as [|fuel]; [assumption|].
  destruct len as [|len]; [assumption|].
  rewrite squeeze_bytes_pass by lia. cbv zeta. cbn [snd].
  set (chunk := Nat.min (S len) (rate_bytes - offset)).
  assert (Hchunk : (1 <= chunk <= S len)%nat) by (subst chunk; lia).
  destruct (Nat.eqb_spec (offset + chunk) rate_bytes) as [Heq|Hne].
  - apply IH; lia.
  - apply IH; subst chunk; lia.
Qed.

Lemma squeeze_well_formed s len :
  well_formed s -> well_formed (snd (squeeze s len)).
Proof.
  unfold well_formed, squeeze. intros H.
  pose proof (squeeze_bytes_offset (rate_bytes_ s) len len (state_ s) (offset_ s) H).
  destruct (squeeze_bytes len (state_ s) (rate_bytes_ s) len (offset_ s))
    as [out [st off]]. exact H0.
Qed.

Lemma squeeze_rate s len : rate_bytes_ (snd (squeeze s len)) = rate_bytes_ s.
Proof.
  unfold squeeze.
  now destruct (squeeze_bytes len (state_ s) (rate_bytes_ s) len (offset_ s))
    as [out [st off]].
Qed.

Lemma squeeze_app (s : Sampler) (a b : nat) :
  well_formed s ->
  squeeze s (a + b)
  = (fst (squeeze s a) ++ fst (squeeze (snd (squeeze s a)) b),
     snd (squeeze (snd (squeeze s a)) b)).
Proof.
  unfold well_formed. intros H. unfold squeeze at 1.
  rewrite (squeeze_bytes_app (rate_bytes_ s) b a) by assumption. cbv zeta.
  pose proof (squeeze_rate s a) as Hrate. unfold squeeze in *.
  destruct (squeeze_bytes a (state_ s) (rate_bytes_ s) a (offset_ s))
    as [o1 [st1 off1]]. cbn [fst snd state_ rate_bytes_ offset_] in *.
  destruct (squeeze_bytes b st1 (rate_bytes_ s) b off1) as [o2 [st2 off2]].
  reflexivity.
Qed.

(** The XOF contract: the squeezed stream does not depend on how the
    requests are chunked. *)
Theorem squeeze_is_streaming (s : Sampler) (a b : nat) :
  well_formed s ->
  squeeze s (a + b)
  = (fst (squeeze s a) ++ fst (squeeze (snd (squeeze s a)) b),
     snd (squeeze (snd (squeeze s a)) b)).
Proof. apply squeeze_app. Qed.

Lemma absorb_rate s data : rate_bytes_ (absorb s data) = rate_bytes_ s.
Proof.
  unfold absorb.
  now destruct (absorb_bytes (length data) (state_ s) (rate_bytes_ s) data
                  (offset_ s)).
Qed.

Lemma init_rate s seed : rate_bytes_ (init s seed) = rate_bytes_ s.
Proof.
  unfold init. cbn [rate_bytes_ pad_and_absorb].
  destruct seed; [reflexivity|]. now rewrite absorb_rate.
Qed.

Lemma init_well_formed (seed : list Z) :
  well_formed (init SHAKE128Sampler seed) /\
  well_formed (init SHAKE256Sampler seed).
Proof.
  unfold well_formed. rewrite !init_rate.
  unfold init. cbn [offset_ rate_bytes_ SHAKE128Sampler SHAKE256Sampler reset].
  lia.
Qed.

Lemma squeeze_is_streaming_witness :
  squeeze (init SHAKE256Sampler [97; 98; 99]) (100 + 100)
  = (fst (squeeze (init SHAKE256Sampler [97; 98; 99]) 100)
     ++ fst (squeeze (snd (squeeze (init SHAKE256Sampler [97; 98; 99]) 100)) 100),
     snd (squeeze (snd (squeeze (init SHAKE256Sampler [97; 98; 99]) 100)) 100)).
Proof.
  apply (squeeze_is_streaming (init SHAKE256Sampler [97; 98; 99]) 100 100).
  apply init_well_formed.
Defined.

(** The sponge agrees with SHAKE-128 and SHAKE-256 on the empty input
    and on "abc". *)
Example shake_known_answers :
  fst (squeeze (init SHAKE256Sampler []) 8)
  = [0x46; 0xb9; 0xdd; 0x2b; 0x0b; 0xa8; 0x8d; 0x13] /\
  fst (squeeze (init SHAKE128Sampler []) 8)
  = [0x7f; 0x9c; 0x2b; 0xa4; 0xe8; 0x8f; 0x82; 0x7d] /\
  shake256 [97; 98; 99] 8 = [0x48; 0x33; 0x66; 0x60; 0x13; 0x60; 0xa8; 0x77].
Proof. vm_compute. repeat split. Qed.

End SpongeFacts.

Module SamplerFacts.
Import Utils SpecReference.

(** Every squeezed byte is a byte. *)
Lemma squeeze_bytes_range fuel : forall state rate_bytes len offset,
  Forall (fun b => 0 <= b < 256)
         (fst (squeeze_bytes fuel state rate_bytes len offset)).
Proof.
  induction fuel as [|fuel IH]; intros state rate_bytes len offset;
    [constructor|].
  destruct len as [|len]; [constructor|].
  cbn [squeeze_bytes].
  set (chunk := Nat.min (S len) (rate_bytes - offset)).
  match goal with
  | |- context [if ?c then squeeze_bytes fuel ?a1 ?a2 ?a3 ?a4
                else squeeze_bytes fuel ?b1 ?b2 ?b3 ?b4] =>
      pose proof (IH a1 a2 a3 a4) as H1; pose proof (IH b1 b2 b3 b4) as H2;
      destruct c;
      [destruct (squeeze_bytes fuel a1 a2 a3 a4) as [rest final]
      |destruct (squeeze_bytes fuel b1 b2 b3 b4) as [rest final]]
  end; cbn [fst] in *; apply Forall_app; split; try assumption;
    unfold squeeze_chunk; apply Forall_forall; intros b Hb;
    apply in_map_iff in Hb; destruct Hb as [i [Hb _]]; subst b;
    change 255 with (Z.ones 8); rewrite Z.land_ones by lia;
    apply Z.mod_pos_bound; lia.
Qed.

Lemma squeeze_range (s : Sampler) (len : nat) :
  Forall (fun b => 0 <= b < 256) (fst (squeeze s len)).
Proof.
  unfold squeeze.
  pose proof (squeeze_bytes_range len (state_ s) (rate_bytes_ s) len (offset_ s)) as H.
  destruct (squeeze_bytes len (state_ s) (rate_bytes_ s) len (offset_ s))
    as [out [st off]].
  exact H.
Qed.

Lemma nth_byte_range (bytes : list Z) (i : nat) :
  Forall (fun b => 0 <= b < 256) bytes -> 0 <= nth i bytes 0 < 256.
Proof.
  intros H. destruct (Nat.lt_ge_cases i (length bytes)) as [Hi|Hi].
  - rewrite Forall_forall in H. apply H. now apply nth_In.
  - rewrite nth_overflow by assumption. lia.
Qed.

(** With q = 8380417 the mask keeps 23 bits, so the fourth byte never
    reaches the candidate. *)
Lemma bits_needed_q : bits_needed q = 23.
Proof. reflexivity. Qed.

Lemma candidate23_of_word (b0 b1 b2 b3 : Z) :
  0 <= b0 < 256 -> 0 <= b1 < 256 -> 0 <= b2 < 256 -> 0 <= b3 < 256 ->
  Z.land (u32 (Z.lor (Z.lor (Z.lor b0 (Z.shiftl b1 8)) (Z.shiftl b2 16))
                     (Z.shiftl b3 24)))
         (Z.ones 23)
  = Z.lor (Z.lor b0 (Z.shiftl b1 8)) (Z.shiftl (Z.land b2 (Z.ones 7)) 16).
Proof.
  intros H0 H1 H2 H3.
  rewrite <- (Z.mod_small b0 (2 ^ 8)), <- (Z.mod_small b1 (2 ^ 8)),
          <- (Z.mod_small b2 (2 ^ 8)), <- (Z.mod_small b3 (2 ^ 8)) by lia.
  unfold u32. rewrite <- !Z.land_ones by lia.
  Z.bitblast.
Qed.

Lemma uniform_candidate_23 (bytes : list Z) :
  Forall (fun b => 0 <= b < 256) bytes ->
  uniform_candidate bytes 23 = spec_candidate23 bytes.
Proof.
  intros H. unfold uniform_candidate, spec_candidate23.
  change (u32 (u32 (Z.shiftl 1 23) - 1)) with (Z.ones 23).
  change 127 with (Z.ones 7).
  apply candidate23_of_word; now apply nth_byte_range.
Qed.

(** The sampler after [k] attempts of [len] bytes each, and the bytes
    of the next attempt. *)
Definition after (len : nat) (s : Sampler) (k : nat) : Sampler :=
  Nat.iter k (fun s => snd (squeeze s len)) s.

Definition group (len : nat) (s : Sampler) (k : nat) : list Z :=
  fst (squeeze (after len s k) len).

Lemma after_S_inner len s k :
  after len s (S k) = after len (snd (squeeze s len)) k.
Proof. unfold after. apply Nat.iter_succ_r. Qed.

Lemma group_S_inner len s k :
  group len s (S k) = group len (snd (squeeze s len)) k.
Proof. unfold group. now rewrite after_S_inner. Qed.

Lemma sample_uniform_step (fuel : nat) (s : Sampler) :
  sample_uniform (S fuel) s q
  = if spec_candidate23 (group 4 s 0) <? q
    then Some (spec_candidate23 (group 4 s 0), after 4 s 1)
    else sample_uniform fuel (after 4 s 1) q.
Proof.
  unfold sample_uniform. rewrite bits_needed_q. cbn [sample_uniform_loop].
  change (group 4 s 0) with (fst (squeeze s 4)).
  change (after 4 s 1) with (snd (squeeze s 4)).
  pose proof (squeeze_range s 4) as Hr.
  destruct (squeeze s 4) as [bytes s1]. cbn [fst snd] in *.
  now rewrite uniform_candidate_23.
Qed.

(** C4 (amended). With modulus q, [sample_uniform] squeezes four bytes
    per attempt; the candidate is the 23-bit little-endian integer of
    the first three (the third masked to 0x7F), the fourth byte is
    discarded; the first candidate below q is returned and the sampler
    is left behind the four bytes of that attempt. *)
Theorem sample_uniform_four_bytes_per_attempt
  (fuel : nat) (s : Sampler) (v : Z) (s' : Sampler) :
  sample_uniform fuel s q = Some (v, s') <->
  exists k, (k < fuel)%nat /\
    (forall j, (j < k)%nat -> q <= spec_candidate23 (group 4 s j)) /\
    v = spec_candidate23 (group 4 s k) /\
    v < q /\
    s' = after 4 s (S k).
Proof.
  revert s. induction fuel as [|fuel IH]; intros s.
  - split; [discriminate|]. intros (k & Hk & _). lia.
  - rewrite sample_uniform_step.
    destruct (spec_candidate23 (group 4 s 0) <? q) eqn:E.
    + apply Z.ltb_lt in E. split.
      * intros H. inversion H; subst. exists O.
        repeat split; [lia| intros j Hj; lia | assumption].
      * intros (k & Hk & Hrej & Hv & Hlt & Hs').
        destruct k as [|k]; [now subst|].
        specialize (Hrej O ltac:(lia)). lia.
    + apply Z.ltb_ge in E. rewrite IH. split.
      * intros (k & Hk & Hrej & Hv & Hlt & Hs'). exists (S k).
        split; [lia|]. split.
        { intros [|j] Hj; [assumption|].
          rewrite group_S_inner. apply Hrej. lia. }
        rewrite group_S_inner, (after_S_inner 4 s (S k)). auto.
      * intros (k & Hk & Hrej & Hv & Hlt & Hs').
        destruct k as [|k]; [subst; lia|].
        exists k. split; [lia|]. split.
        { intros j Hj. specialize (Hrej (S j) ltac:(lia)).
          now rewrite group_S_inner in Hrej. }
        rewrite group_S_inner in Hv. rewrite (after_S_inner 4 s (S k)) in Hs'.
        auto.
Qed.

(** The XOF stream of the matrix entry A[0][0] for rho = 0^32. *)
Definition matrix_stream : Sampler := init SHAKE128Sampler (repeat 0 32 ++ [0; 0]).

(** C4, as stated, fails: on this stream the second coefficient the
    code samples comes from bytes 4..6, the reference sampler's from
    bytes 3..5. *)
Lemma sample_uniform_is_not_RejNTT :
  fst (squeeze matrix_stream 8) = [73; 223; 217; 128; 155; 188; 84; 1] /\
  (do (a, s1) <- sample_uniform 8 matrix_stream q;
   do (b, _) <- sample_uniform 8 s1 q;
   Some [a; b]) = Some [5889865; 5553307] /\
  spec_SampleUniform 8 matrix_stream 2 = Some [5889865; 3971968].
Proof. vm_compute. repeat split. Qed.

End SamplerFacts.

Module CbdFacts.
Import Utils SpecReference SamplerFacts.

(** The low bit of byte [k] of the stream, read one byte at a time. *)
Definition low_bit (s : Sampler) (k : nat) : Z :=
  Z.land (nth 0 (group 1 s k) 0) 1.

(** The sum of the low bits of bytes [start .. start + count - 1]. *)
Fixpoint sum_low_bits (s : Sampler) (start count : nat) : Z :=
  match count with
  | O => 0
  | S count' => low_bit s start + sum_low_bits s (S start) count'
  end.

Lemma low_bit_range s k : 0 <= low_bit s k <= 1.
Proof.
  unfold low_bit.
  replace (Z.land (nth 0 (group 1 s k) 0) 1)
    with (nth 0 (group 1 s k) 0 mod 2)
    by (symmetry; apply (Z.land_ones _ 1); lia).
  pose proof (Z.mod_pos_bound (nth 0 (group 1 s k) 0) 2 ltac:(lia)). lia.
Qed.

Lemma sum_low_bits_range s count : forall start,
  0 <= sum_low_bits s start count <= Z.of_nat count.
Proof.
  induction count as [|count IH]; intros start; cbn [sum_low_bits]; [lia|].
  pose proof (low_bit_range s start). specialize (IH (S start)). lia.
Qed.

Lemma after_add len s a b :
  after len (after len s a) b = after len s (a + b).
Proof.
  unfold after. rewrite Nat.add_comm. symmetry. apply Nat.iter_add.
Qed.

Lemma low_bit_after s a k : low_bit (after 1 s a) k = low_bit s (a + k).
Proof. unfold low_bit, group. now rewrite after_add. Qed.

Lemma sum_low_bits_after s a count : forall start,
  sum_low_bits (after 1 s a) start count = sum_low_bits s (a + start) count.
Proof.
  induction count as [|count IH]; intros start; cbn [sum_low_bits];
    [reflexivity|].
  rewrite low_bit_after, IH. do 2 f_equal. lia.
Qed.

Lemma sum_low_bits_split s start a b :
  sum_low_bits s start (a + b)
  = sum_low_bits s start a + sum_low_bits s (start + a) b.
Proof.
  revert start. induction a as [|a IH]; intros start; cbn [sum_low_bits Nat.add].
  - now rewrite Nat.add_0_r.
  - rewrite IH. replace (S start + a)%nat with (start + S a)%nat by lia. lia.
Qed.

Lemma i32_small x : - 2 ^ 31 <= x < 2 ^ 31 -> i32 x = x.
Proof.
  intros H. unfold i32, signed.
  destruct (Z.leb_spec 0 x).
  - rewrite Z.mod_small by lia.
    destruct (Z.ltb_spec x (2 ^ (32 - 1))); [reflexivity|]. simpl in *. lia.
  - replace (x mod 2 ^ 32) with (x + 2 ^ 32).
    + destruct (Z.ltb_spec (x + 2 ^ 32) (2 ^ (32 - 1))); simpl in *; lia.
    + apply (Z.mod_unique x (2 ^ 32) (-1)); lia.
Qed.

Lemma binomial_loop_sum eta : forall sign s sum,
  sign = 1 \/ sign = -1 ->
  - 2 ^ 31 + Z.of_nat eta <= sum < 2 ^ 31 - Z.of_nat eta ->
  binomial_loop eta sign s sum
  = (sum + sign * sum_low_bits s 0 eta, after 1 s eta).
Proof.
  induction eta as [|eta IH]; intros sign s sum Hsign Hsum.
  - cbn [binomial_loop sum_low_bits]. f_equal. lia.
  - cbn [binomial_loop].
    change (sum_low_bits s 0 (S eta))
      with (low_bit s 0 + sum_low_bits s 1 eta).
    change (low_bit s 0) with (Z.land (nth 0 (fst (squeeze s 1)) 0) 1).
    rewrite (after_S_inner 1 s eta).
    replace (sum_low_bits s 1 eta)
      with (sum_low_bits (snd (squeeze s 1)) 0 eta)
      by (change (snd (squeeze s 1)) with (after 1 s 1);
          rewrite sum_low_bits_after; reflexivity).
    pose proof (low_bit_range s 0) as Hb.
    change (low_bit s 0) with (Z.land (nth 0 (fst (squeeze s 1)) 0) 1) in Hb.
    destruct (squeeze s 1) as [byte s1]. cbn [fst snd] in *.
    rewrite i32_small by (destruct Hsign; subst sign; lia).
    rewrite IH by (try assumption; destruct Hsign; subst sign; lia).
    f_equal. lia.
Qed.

Lemma sample_binomial_coefficient_sum (s : Sampler) (eta : nat) :
  Z.of_nat eta < 2 ^ 30 ->
  sample_binomial_coefficient s eta
  = (sum_low_bits s 0 eta - sum_low_bits s eta eta, after 1 s (2 * eta)).
Proof.
  intros Hz. unfold sample_binomial_coefficient.
  rewrite binomial_loop_sum by (auto; lia).
  pose proof (sum_low_bits_range s eta 0).
  rewrite binomial_loop_sum by (auto; lia).
  rewrite sum_low_bits_after, after_add. f_equal; [rewrite Nat.add_0_r; lia|].
  f_equal. lia.
Qed.

Lemma store_binomial_range coeff modulus :
  0 < modulus -> 0 <= store_binomial coeff modulus < modulus.
Proof. intros H. unfold store_binomial. now apply Z.mod_pos_bound. Qed.

Lemma store_binomial_nonneg coeff modulus :
  0 <= coeff < modulus -> modulus <= 2 ^ 31 ->
  store_binomial coeff modulus = coeff.
Proof.
  intros Hc Hm. unfold store_binomial, u32.
  rewrite (Z.mod_small coeff (2 ^ 32)) by lia.
  rewrite (Z.mod_small coeff modulus) by lia.
  rewrite (Z.mod_small (coeff + modulus) (2 ^ 32)) by lia.
  replace (coeff + modulus) with (coeff + 1 * modulus) by lia.
  rewrite Z.mod_add by lia. apply Z.mod_small. lia.
Qed.

(** The value [sample_binomial_coefficient] draws for coefficient [i]. *)
Definition drawn (s : Sampler) (eta i : nat) : Z :=
  sum_low_bits s (2 * eta * i) eta - sum_low_bits s (2 * eta * i + eta) eta.

Lemma drawn_range s eta i : - Z.of_nat eta <= drawn s eta i <= Z.of_nat eta.
Proof.
  unfold drawn.
  pose proof (sum_low_bits_range s eta (2 * eta * i)).
  pose proof (sum_low_bits_range s eta (2 * eta * i + eta)). lia.
Qed.

Lemma drawn_after s eta i :
  drawn (after 1 s (2 * eta)) eta i = drawn s eta (S i).
Proof.
  unfold drawn. rewrite !sum_low_bits_after. f_equal; f_equal; lia.
Qed.

Lemma sample_polynomial_binomial_draws (eta : nat) (modulus : Z) (degree : nat) :
  Z.of_nat eta < 2 ^ 30 ->
  forall s,
    sample_polynomial_binomial s degree eta modulus
    = (map (fun i => store_binomial (drawn s eta i) modulus) (seq 0 degree),
       after 1 s (2 * eta * degree)).
Proof.
  intros Heta. induction degree as [|degree IH]; intros s.
  - cbn. now rewrite Nat.mul_0_r.
  - cbn [sample_polynomial_binomial].
    rewrite sample_binomial_coefficient_sum by assumption.
    rewrite IH. rewrite after_add. cbn [seq map]. f_equal.
    + f_equal.
      * unfold drawn. rewrite Nat.mul_0_r. reflexivity.
      * rewrite <- seq_shift, map_map. apply map_ext. intros i.
        now rewrite drawn_after.
    + f_equal. lia.
Qed.

(** C5 (amended). [sample_polynomial_binomial] consumes 2 eta bytes per
    coefficient (4 for eta = 2, 8 for eta = 4), one bit of each: for
    coefficient i, [sample_binomial_coefficient] is called on the stream
    2 eta i bytes further, leaves it 2 eta bytes further on, and returns
    the sum of the low bits of its first eta bytes minus the sum of the
    low bits of its next eta bytes, a value in {-eta, ..., eta}; entry i
    of the polynomial is [store_binomial] of that value, lies in
    [0, modulus) and is the value itself when that is not negative. *)
Theorem cbd_consumes_two_eta_bytes_per_coefficient
  (s : Sampler) (degree eta : nat) (modulus : Z) :
  Z.of_nat eta < 2 ^ 30 ->
  Z.of_nat eta < modulus <= 2 ^ 31 ->
  let result := sample_polynomial_binomial s degree eta modulus in
  snd result = after 1 s (2 * eta * degree) /\
  length (fst result) = degree /\
  forall i, (i < degree)%nat ->
    let drawn_i := sample_binomial_coefficient (after 1 s (2 * eta * i)) eta in
    snd drawn_i = after 1 s (2 * eta * S i) /\
    fst drawn_i = sum_low_bits s (2 * eta * i) eta
                  - sum_low_bits s (2 * eta * i + eta) eta /\
    - Z.of_nat eta <= fst drawn_i <= Z.of_nat eta /\
    nth i (fst result) 0 = store_binomial (fst drawn_i) modulus /\
    0 <= nth i (fst result) 0 < modulus /\
    (0 <= fst drawn_i -> nth i (fst result) 0 = fst drawn_i).
Proof.
  intros Heta Hm. cbv zeta.
  rewrite sample_polynomial_binomial_draws by assumption. cbn [fst snd].
  split; [reflexivity|]. split; [now rewrite length_map, length_seq|].
  intros i Hi.
  rewrite (nth_indep _ 0 (store_binomial (drawn s eta 0) modulus))
    by (now rewrite length_map, length_seq).
  rewrite (map_nth (fun i => store_binomial (drawn s eta i) modulus)).
  rewrite seq_nth by assumption. cbn [Nat.add].
  rewrite sample_binomial_coefficient_sum by assumption. cbn [fst snd].
  rewrite !sum_low_bits_after, after_add, Nat.add_0_r.
  fold (drawn s eta i). pose proof (drawn_range s eta i) as Hv.
  split; [f_equal; lia|]. split; [reflexivity|]. split; [assumption|].
  split; [reflexivity|]. split.
  - apply store_binomial_range. lia.
  - intros Hpos. apply store_binomial_nonneg; lia.
Qed.

(** The XOF stream of the first secret polynomial for rho' = 0^64,
    nonce 0. *)
Definition secret_stream : Sampler := init SHAKE256Sampler (repeat 0 64 ++ [0; 0]).

Lemma cbd_consumes_two_eta_bytes_per_coefficient_witness :
  let result := sample_polynomial_binomial secret_stream 256 2 q in
  snd result = after 1 secret_stream (2 * 2 * 256) /\
  length (fst result) = 256%nat /\
  forall i, (i < 256)%nat ->
    let drawn_i :=
      sample_binomial_coefficient (after 1 secret_stream (2 * 2 * i)) 2 in
    snd drawn_i = after 1 secret_stream (2 * 2 * S i) /\
    fst drawn_i = sum_low_bits secret_stream (2 * 2 * i) 2
                  - sum_low_bits secret_stream (2 * 2 * i + 2) 2 /\
    - Z.of_nat 2 <= fst drawn_i <= Z.of_nat 2 /\
    nth i (fst result) 0 = store_binomial (fst drawn_i) q /\
    0 <= nth i (fst result) 0 < q /\
    (0 <= fst drawn_i -> nth i (fst result) 0 = fst drawn_i).
Proof.
  apply (cbd_consumes_two_eta_bytes_per_coefficient secret_stream 256 2 q).
  - simpl. lia.
  - unfold q. simpl. lia.
Defined.

(** C5, as stated, fails: for eta = 2 two coefficients cost eight
    bytes, not one, and for eta = 4 one coefficient costs eight bytes,
    not one; the coefficients differ from the bit-packed ones. *)
Lemma cbd_is_not_bit_packed :
  fst (squeeze secret_stream 8) = [76; 131; 130; 7; 247; 163; 8; 139] /\
  fst (sample_polynomial_binomial secret_stream 2 2 q) = [0; 1] /\
  offset_ (snd (sample_polynomial_binomial secret_stream 2 2 q)) = 8%nat /\
  spec_CBD2 secret_stream 1 = [8380415; 8380416] /\
  offset_ (snd (squeeze secret_stream 1)) = 1%nat /\
  fst (sample_polynomial_binomial secret_stream 1 4 q) = [4193791] /\
  offset_ (snd (sample_polynomial_binomial secret_stream 1 4 q)) = 8%nat /\
  spec_CBD4 secret_stream 1 = [1].
Proof. vm_compute. repeat split. Qed.

End CbdFacts.

Module ChallengeFacts.
Import Utils SpecReference SamplerFacts.

Definition count_nonzero (c : list Z) : nat :=
  length (filter (fun x => negb (x =? 0)) c).

Lemma count_nonzero_upd (c : list Z) : forall p v,
  (p < length c)%nat -> nth p c 0 = 0 -> v <> 0 ->
  count_nonzero (upd c p v) = S (count_nonzero c).
Proof.
  unfold count_nonzero.
  induction c as [|h t IH]; intros [|p] v Hp Hz Hv; simpl in *; try lia.
  - subst h. simpl. destruct (v =? 0) eqn:E; [apply Z.eqb_eq in E; lia|].
    reflexivity.
  - destruct (h =? 0); simpl; rewrite IH by (assumption || lia); reflexivity.
Qed.

Lemma count_nonzero_repeat n : count_nonzero (repeat 0 n) = 0%nat.
Proof. unfold count_nonzero. induction n; simpl; auto. Qed.

(** *** Swaps keep [positions] a permutation of 0 .. n-1 *)

Definition transpose (i j k : nat) : nat :=
  if Nat.eqb k i then j else if Nat.eqb k j then i else k.

Lemma nth_swap {A : Type} (d : A) l i j k :
  (i < length l)%nat -> (j < length l)%nat ->
  nth k (swap d l i j) d = nth (transpose i j k) l d.
Proof.
  intros Hi Hj. unfold swap, transpose.
  destruct (Nat.eqb_spec k j) as [Hkj|Hkj].
  - subst k. rewrite nth_upd_same by (now rewrite length_upd).
    destruct (Nat.eqb_spec j i); [now subst|reflexivity].
  - rewrite nth_upd_other by auto.
    destruct (Nat.eqb_spec k i) as [Hki|Hki].
    + subst k. now rewrite nth_upd_same.
    + now rewrite nth_upd_other by auto.
Qed.

Lemma transpose_lt n i j k :
  (i < n)%nat -> (j < n)%nat -> (k < n)%nat -> (transpose i j k < n)%nat.
Proof.
  intros. unfold transpose.
  destruct (Nat.eqb k i); [assumption|]. now destruct (Nat.eqb k j).
Qed.

Lemma transpose_inj i j a b : transpose i j a = transpose i j b -> a = b.
Proof.
  unfold transpose.
  destruct (Nat.eqb_spec a i), (Nat.eqb_spec a j),
           (Nat.eqb_spec b i), (Nat.eqb_spec b j); lia.
Qed.

Definition perm_inv (n : nat) (l : list nat) : Prop :=
  length l = n /\
  (forall k, (k < n)%nat -> (nth k l O < n)%nat) /\
  (forall a b, (a < n)%nat -> (b < n)%nat -> nth a l O = nth b l O -> a = b).

Lemma perm_inv_seq n : perm_inv n (seq 0 n).
Proof.
  repeat split.
  - apply length_seq.
  - intros k Hk. now rewrite seq_nth.
  - intros a b Ha Hb. now rewrite !seq_nth.
Qed.

Lemma perm_inv_swap n l i j :
  (i < n)%nat -> (j < n)%nat -> perm_inv n l -> perm_inv n (swap O l i j).
Proof.
  intros Hi Hj (Hlen & Hlt & Hinj). repeat split.
  - now rewrite length_swap.
  - intros k Hk. rewrite nth_swap by lia. apply Hlt. now apply transpose_lt.
  - intros a b Ha Hb. rewrite !nth_swap by lia. intros H.
    apply Hinj in H; try (apply transpose_lt; assumption).
    eapply transpose_inj; eassumption.
Qed.

(** *** The rejection loop *)

Lemma uniform_candidate_nonneg bytes bits : 0 <= uniform_candidate bytes bits.
Proof.
  unfold uniform_candidate. apply Z.land_nonneg. left.
  unfold u32. apply Z.mod_pos_bound. lia.
Qed.

Lemma sample_uniform_loop_range fuel : forall s bits modulus r s',
  sample_uniform_loop fuel s bits modulus = Some (r, s') ->
  0 <= r < modulus.
Proof.
  induction fuel as [|fuel IH]; intros s bits modulus r s' H; [discriminate|].
  cbn [sample_uniform_loop] in H.
  destruct (squeeze s 4) as [bytes s1].
  destruct (uniform_candidate bytes bits <? modulus) eqn:E.
  - inversion H; subst. apply Z.ltb_lt in E.
    split; [apply uniform_candidate_nonneg|assumption].
  - eapply IH; eassumption.
Qed.

Lemma sample_uniform_range fuel s modulus r s' :
  sample_uniform fuel s modulus = Some (r, s') -> 0 <= r < modulus.
Proof. apply sample_uniform_loop_range. Qed.

Lemma sample_uniform_loop_mono fuel : forall fuel' s bits modulus x,
  (fuel <= fuel')%nat ->
  sample_uniform_loop fuel s bits modulus = Some x ->
  sample_uniform_loop fuel' s bits modulus = Some x.
Proof.
  induction fuel as [|fuel IH]; intros fuel' s bits modulus x Hle H;
    [discriminate|].
  destruct fuel' as [|fuel']; [lia|].
  cbn [sample_uniform_loop] in *.
  destruct (squeeze s 4) as [bytes s1].
  destruct (uniform_candidate bytes bits <? modulus); [assumption|].
  apply IH; [lia|assumption].
Qed.

(** A candidate below the modulus somewhere ahead ends the loop, on a
    four-byte boundary. *)
Lemma sample_uniform_loop_returns j : forall s bits modulus,
  uniform_candidate (group 4 s j) bits < modulus ->
  exists r k, sample_uniform_loop (S j) s bits modulus = Some (r, after 4 s (S k)).
Proof.
  induction j as [|j IH]; intros s bits modulus Hj.
  - exists (uniform_candidate (fst (squeeze s 4)) bits), O.
    cbn [sample_uniform_loop].
    change (group 4 s 0) with (fst (squeeze s 4)) in Hj.
    change (after 4 s 1) with (snd (squeeze s 4)).
    destruct (squeeze s 4) as [bytes s1]. cbn [fst snd] in *.
    apply Z.ltb_lt in Hj. rewrite Hj. reflexivity.
  - rewrite group_S_inner in Hj. apply IH in Hj. destruct Hj as (r & k & Hr).
    change (sample_uniform_loop (S (S j)) s bits modulus)
      with (let '(bytes, s1) := squeeze s 4 in
            if uniform_candidate bytes bits <? modulus
            then Some (uniform_candidate bytes bits, s1)
            else sample_uniform_loop (S j) s1 bits modulus).
    pose proof (after_S_inner 4 s) as Hafter.
    change (after 4 s 1) with (snd (squeeze s 4)).
    destruct (squeeze s 4) as [bytes s1] eqn:Esq. cbn [snd] in *.
    destruct (uniform_candidate bytes bits <? modulus).
    + exists (uniform_candidate bytes bits), O.
      change (after 4 s 1) with (snd (squeeze s 4)). now rewrite Esq.
    + exists r, (S k). rewrite Hr. now rewrite (Hafter (S k)).
Qed.

Lemma after_add4 s a b : after 4 (after 4 s a) b = after 4 s (a + b).
Proof. unfold after. rewrite Nat.add_comm. symmetry. apply Nat.iter_add. Qed.

Lemma after_add_group s a b : group 4 (after 4 s a) b = group 4 s (a + b).
Proof. unfold group. now rewrite after_add4. Qed.

(** *** The Fisher-Yates loop *)

Lemma shuffle_loop_perm n count : forall fuel s positions i positions' s',
  Z.of_nat n < 2 ^ 32 ->
  (i + count <= n)%nat ->
  perm_inv n positions ->
  shuffle_loop fuel s positions (Z.of_nat n) i count = Some (positions', s') ->
  perm_inv n positions'.
Proof.
  induction count as [|count IH]; intros fuel s positions i positions' s'
    Hn Hi Hinv H; cbn [shuffle_loop] in H.
  - now inversion H; subst.
  - assert (Hmod : u32 (Z.of_nat n - Z.of_nat i) = Z.of_nat n - Z.of_nat i)
      by (unfold u32; apply Z.mod_small; lia).
    rewrite Hmod in H.
    destruct (sample_uniform fuel s (Z.of_nat n - Z.of_nat i))
      as [[r s1]|] eqn:Er; [|discriminate].
    cbn [obind] in H. apply sample_uniform_range in Er.
    eapply IH in H; try eassumption; [lia|].
    apply perm_inv_swap; [lia| |assumption].
    unfold u32. rewrite Z.mod_small by lia. lia.
Qed.

Lemma shuffle_loop_mono count : forall fuel fuel' s positions n i x,
  (fuel <= fuel')%nat ->
  shuffle_loop fuel s positions n i count = Some x ->
  shuffle_loop fuel' s positions n i count = Some x.
Proof.
  induction count as [|count IH]; intros fuel fuel' s positions n i x Hle H;
    cbn [shuffle_loop] in *; [assumption|].
  destruct (sample_uniform fuel s (u32 (n - Z.of_nat i))) as [[r s1]|] eqn:Er;
    [|discriminate].
  unfold sample_uniform in *.
  rewrite (sample_uniform_loop_mono fuel fuel' _ _ _ _ Hle Er).
  cbn [obind] in *. eapply IH; eassumption.
Qed.

(** Candidates below every modulus up to [n] keep appearing in the
    stream of [s0], read four bytes at a time. *)
Definition keeps_accepting (s0 : Sampler) (n : nat) : Prop :=
  forall k modulus, 0 < modulus <= Z.of_nat n ->
    exists j, uniform_candidate (group 4 s0 (k + j)) (bits_needed modulus) < modulus.

Lemma shuffle_loop_returns s0 n count : forall k positions i,
  keeps_accepting s0 n ->
  Z.of_nat n < 2 ^ 32 ->
  (i + count <= n)%nat ->
  exists fuel x, shuffle_loop fuel (after 4 s0 k) positions (Z.of_nat n) i count = Some x.
Proof.
  induction count as [|count IH]; intros k positions i Hacc Hn Hi.
  - exists O. eexists. reflexivity.
  - assert (Hmod : u32 (Z.of_nat n - Z.of_nat i) = Z.of_nat n - Z.of_nat i)
      by (unfold u32; apply Z.mod_small; lia).
    destruct (Hacc k (Z.of_nat n - Z.of_nat i) ltac:(lia)) as [j Hj].
    rewrite <- after_add_group in Hj.
    apply sample_uniform_loop_returns in Hj. destruct Hj as (r & k' & Hr).
    rewrite after_add4 in Hr.
    destruct (IH (k + S k')%nat
                 (swap O positions i (Z.to_nat (u32 (Z.of_nat i + r)))) (S i)
                 Hacc Hn ltac:(lia)) as (fuel & x & Hx).
    exists (Nat.max (S j) fuel), x.
    cbn [shuffle_loop]. rewrite Hmod. unfold sample_uniform.
    rewrite (sample_uniform_loop_mono (S j) _ _ _ _ _ (Nat.le_max_l _ _) Hr).
    cbn [obind].
    eapply shuffle_loop_mono; [apply Nat.le_max_r|eassumption].
Qed.

(** *** The sign loop *)

Definition challenge_value (q x : Z) : Prop := x = 0 \/ x = 1 \/ x = q - 1.

Lemma sign_loop_shape n q positions count : forall s c i,
  2 <= q <= 2 ^ 32 ->
  perm_inv n positions ->
  length c = n ->
  (i + count <= n)%nat ->
  count_nonzero c = i ->
  (forall a, (i <= a < n)%nat -> nth (nth a positions O) c 0 = 0) ->
  Forall (challenge_value q) c ->
  exists c' s',
    sign_loop s positions c q i count = Some (c', s') /\
    length c' = n /\
    count_nonzero c' = (i + count)%nat /\
    Forall (challenge_value q) c'.
Proof.
  induction count as [|count IH];
    intros s c i Hq Hperm Hlen Hi Hcount Hzero Hok; cbn [sign_loop].
  - exists c, s. rewrite Nat.add_0_r. auto.
  - destruct (squeeze s 1) as [sign_byte s1].
    destruct Hperm as (Hplen & Hplt & Hpinj).
    assert (Hp : (nth i positions O < length c)%nat)
      by (rewrite Hlen; apply Hplt; lia).
    apply Nat.ltb_lt in Hp. rewrite Hp. apply Nat.ltb_lt in Hp.
    set (v := if Z.land (nth 0 sign_byte 0) 1 =? 0 then u32 (q - 1) else 1).
    assert (Hv : v = 1 \/ v = q - 1).
    { subst v. destruct (Z.land (nth 0 sign_byte 0) 1 =? 0); [right|now left].
      unfold u32. apply Z.mod_small. lia. }
    destruct (IH s1 (upd c (nth i positions O) v) (S i)) as (c' & s' & H & Hl & Hc & Hf).
    + assumption.
    + repeat split; assumption.
    + now rewrite length_upd.
    + lia.
    + rewrite count_nonzero_upd; [now rewrite Hcount|assumption| |lia].
      apply Hzero. lia.
    + intros a Ha. rewrite nth_upd_other; [apply Hzero; lia|].
      intros Heq. apply Hpinj in Heq; lia.
    + apply Forall_upd; [assumption|]. unfold challenge_value. tauto.
    + exists c', s'. repeat split; try assumption. rewrite Hc. lia.
Qed.

Lemma Forall_repeat_zero q n : Forall (challenge_value q) (repeat 0 n).
Proof.
  apply Forall_forall. intros x Hx. apply repeat_spec in Hx. now left.
Qed.

Lemma nth_repeat_zero k n : nth k (repeat 0 n) 0 = 0.
Proof.
  revert k. induction n as [|n IH]; intros [|k]; simpl; auto.
Qed.

(** Every polynomial [sample_challenge] returns has exactly tau
    coefficients equal to 1 or q - 1 and all others zero, and it does
    return as soon as each of the rejection loops of [sample_uniform]
    finds a candidate below its modulus (the other loops are bounded).
    Whether the stream of every seed holds such candidates is left
    open: the [while (true)] of [sample_uniform] has no other exit. *)
Theorem sample_challenge_has_tau_signs
  (seed c0 : list Z) (tau n : nat) (q : Z) :
  (tau <= n)%nat ->
  Z.of_nat n < 2 ^ 32 ->
  2 <= q <= 2 ^ 32 ->
  length c0 = n ->
  (forall fuel c,
     sample_challenge fuel c0 seed tau n q = Some c ->
     length c = n /\
     count_nonzero c = tau /\
     Forall (fun x => x = 0 \/ x = 1 \/ x = q - 1) c) /\
  (keeps_accepting (init SHAKE256Sampler seed) n ->
   exists fuel c, sample_challenge fuel c0 seed tau n q = Some c).
Proof.
  intros Htau Hn Hq Hlen. split.
  - intros fuel c H. unfold sample_challenge in H.
    destruct (shuffle_loop fuel (init SHAKE256Sampler seed) (seq 0 n)
                (Z.of_nat n) 0 tau) as [[positions s1]|] eqn:Esh;
      [|discriminate].
    cbn [obind] in H.
    assert (Hperm : perm_inv n positions).
    { apply (shuffle_loop_perm n tau fuel (init SHAKE256Sampler seed)
               (seq 0 n) O positions s1);
        [assumption|lia|apply perm_inv_seq|exact Esh]. }
    destruct (sign_loop_shape n q positions tau s1 (repeat 0 (length c0)) 0)
      as (c' & s' & Hsl & Hl & Hc & Hf);
      [assumption | assumption | now rewrite repeat_length | lia
      | apply count_nonzero_repeat | intros a _; apply nth_repeat_zero
      | apply Forall_repeat_zero | ].
    rewrite Hsl in H. cbn [obind] in H. injection H as <-.
    split; [exact Hl|]. split; [exact Hc|exact Hf].
  - intros Hacc.
    destruct (shuffle_loop_returns (init SHAKE256Sampler seed) n tau 0
                (seq 0 n) 0 Hacc Hn ltac:(lia)) as (fuel & [positions s1] & Hx).
    change (after 4 (init SHAKE256Sampler seed) 0)
      with (init SHAKE256Sampler seed) in Hx.
    assert (Hperm : perm_inv n positions).
    { apply (shuffle_loop_perm n tau fuel (init SHAKE256Sampler seed)
               (seq 0 n) O positions s1);
        [assumption|lia|apply perm_inv_seq|exact Hx]. }
    destruct (sign_loop_shape n q positions tau s1 (repeat 0 (length c0)) 0)
      as (c' & s' & Hsl & _);
      [assumption | assumption | now rewrite repeat_length | lia
      | apply count_nonzero_repeat | intros a _; apply nth_repeat_zero
      | apply Forall_repeat_zero | ].
    exists fuel, c'. unfold sample_challenge. rewrite Hx. cbn [obind].
    rewrite Hsl. reflexivity.
Qed.

Lemma sample_challenge_has_tau_signs_witness :
  (forall fuel c,
     sample_challenge fuel (repeat 0 256) (repeat 0 32) 39 256 q = Some c ->
     length c = 256%nat /\
     count_nonzero c = 39%nat /\
     Forall (fun x => x = 0 \/ x = 1 \/ x = q - 1) c) /\
  (keeps_accepting (init SHAKE256Sampler (repeat 0 32)) 256 ->
   exists fuel c,
     sample_challenge fuel (repeat 0 256) (repeat 0 32) 39 256 q = Some c).
Proof.
  apply (sample_challenge_has_tau_signs (repeat 0 32) (repeat 0 256) 39 256 q).
  - lia.
  - simpl. lia.
  - unfold q. simpl. lia.
  - reflexivity.
Defined.

(** For the all-zero seed the rejection loops do end, for each of the
    three parameter sets (tau = 39, 49, 60). *)
Example sample_challenge_returns_on_zero_seed :
  map (fun tau =>
         match sample_challenge 8 (repeat 0 256) (repeat 0 32) tau 256 q with
         | Some c => Some (count_nonzero c)
         | None => None
         end)
      [39; 49; 60]%nat
  = [Some 39; Some 49; Some 60]%nat.
Proof. vm_compute. reflexivity. Qed.

End ChallengeFacts.

Module NttFacts.
Import Utils NttEngine.

(** The polynomial x: coefficient 1 at index 1. *)
Definition x_poly : list Z := 0 :: 1 :: repeat 0 254.

(** The table [zetas_] starts with two zeros and is zero from index
    128 on; [zetas_inv_] is the forward table read backwards. *)
Example scalar_engine_tables :
  match ScalarNTTEngine 8380417 256 with
  | Some E =>
      firstn 4 (zetas_ E) = [0; 0; 25847; -2608894] /\
      skipn 128 (zetas_ E) = repeat 0 128 /\
      firstn 4 (zetas_inv_ E) = [0; -2091905; -2725464; -3111497] /\
      n_inv_ E = 8347681
  | None => False
  end.
Proof. vm_compute. repeat split. Qed.

(** C2 fails on the code: the forward transform sends x, like the zero
    polynomial, to the zero vector, and the inverse transform returns
    the zero polynomial instead of x. *)
Theorem ntt_round_trip_loses_x :
  Forall (fun c => 0 <= c < 8380417) x_poly /\
  length x_poly = 256%nat /\
  match ScalarNTTEngine 8380417 256 with
  | Some E =>
      ntt_forward E x_poly = repeat 0 256 /\
      ntt_forward E (repeat 0 256) = repeat 0 256 /\
      ntt_inverse E (ntt_forward E x_poly) = repeat 0 256 /\
      ntt_inverse E (ntt_forward E x_poly) <> x_poly
  | None => False
  end.
Proof.
  split; [|split; [reflexivity|]].
  - unfold x_poly. apply Forall_cons; [lia|]. apply Forall_cons; [lia|].
    apply Forall_forall. intros c Hc. apply repeat_spec in Hc. lia.
  - vm_compute. repeat split. discriminate.
Qed.

(** The constant polynomial 1 comes back with coefficients outside
    [0, q). *)
Example ntt_round_trip_of_one :
  match ScalarNTTEngine 8380417 256 with
  | Some E =>
      ntt_forward E (1 :: repeat 0 255) = repeat 1 256 /\
      firstn 3 (ntt_inverse E (ntt_forward E (1 :: repeat 0 255)))
      = [4291073721; 4290165230; 4291450824]
  | None => False
  end.
Proof. vm_compute. repeat split. Qed.

(** *** The forward transform forgets all coefficients but the first *)

(** What the proof below needs of the tables the constructor builds. *)
Definition degenerate (E : Engine) : Prop :=
  n_ E = 256%nat /\ q_ E = 8380417 /\ length (zetas_ E) = 256%nat /\
  nth 0 (bitrev_ E) O = O /\
  Forall (fun k => nth k (zetas_ E) 0 = 0)
         [1; 129; 193; 225; 241; 249; 253; 255]%nat.

Lemma scalar_engine_degenerate E :
  ScalarNTTEngine 8380417 256 = Some E -> degenerate E.
Proof.
  intros H. vm_compute in H. injection H as <-.
  unfold degenerate. cbn [n_ q_ zetas_ bitrev_].
  repeat split; repeat constructor.
Qed.

Lemma montgomery_reduce_zero E : montgomery_reduce E 0 = 0.
Proof. reflexivity. Qed.

(** A butterfly with twiddle 0 copies [poly[j]] to [poly[j + half]]. *)
Lemma butterfly_zero E half poly j c :
  q_ E = 8380417 -> 0 <= c < 8380417 -> nth j poly 0 = c ->
  butterfly E 0 half poly j = upd (upd poly j c) (j + half) c.
Proof.
  intros Hq Hc Hj. unfold butterfly. cbv zeta.
  rewrite Z.mul_0_r. change (i64 0) with 0.
  rewrite montgomery_reduce_zero. change (u32 0) with 0.
  rewrite Hj, Hq, Z.add_0_r, Z.sub_0_r. unfold u32.
  rewrite (Z.mod_small c (2 ^ 32)) by lia.
  rewrite (Z.mod_small (c + 8380417) (2 ^ 32)) by lia.
  rewrite (Z.mod_small c 8380417) by lia.
  replace ((c + 8380417) mod 8380417) with c; [reflexivity|].
  replace (c + 8380417) with (c + 1 * 8380417) by lia.
  rewrite Z.mod_add by lia. symmetry. apply Z.mod_small. lia.
Qed.

Lemma butterfly_frame E zeta half poly j :
  length (butterfly E zeta half poly j) = length poly /\
  forall i, i <> j -> i <> (j + half)%nat ->
    nth i (butterfly E zeta half poly j) 0 = nth i poly 0.
Proof.
  unfold butterfly. cbv zeta. split.
  - now rewrite !length_upd.
  - intros i Hi Hih. now rewrite !nth_upd_other by auto.
Qed.

(** A block touches the indices from [start] on only. *)
Lemma block_frame E zeta half count : forall start poly,
  let poly' := fold_left (butterfly E zeta half) (seq start count) poly in
  length poly' = length poly /\
  forall i, (i < start)%nat -> nth i poly' 0 = nth i poly 0.
Proof.
  induction count as [|count IH]; intros start poly; cbn [seq fold_left].
  - auto.
  - destruct (IH (S start) (butterfly E zeta half poly start)) as [Hlen Hnth].
    destruct (butterfly_frame E zeta half poly start) as [Hlen1 Hnth1].
    cbv zeta in *. split; [congruence|].
    intros i Hi. rewrite Hnth by lia. apply Hnth1; lia.
Qed.

Definition constant_prefix (c : Z) (m : nat) (poly : list Z) : Prop :=
  forall i, (i < m)%nat -> nth i poly 0 = c.

(** Block 0 with twiddle 0 doubles a constant prefix. *)
Lemma block_zero_doubles E half poly c :
  q_ E = 8380417 -> 0 <= c < 8380417 ->
  (2 * half <= length poly)%nat ->
  constant_prefix c half poly ->
  constant_prefix c (2 * half)
    (fold_left (butterfly E 0 half) (seq 0 half) poly).
Proof.
  intros Hq Hc Hlen Hpre.
  assert (Hgen : forall count poly,
             (count <= half)%nat ->
             (2 * half <= length poly)%nat ->
             constant_prefix c half poly ->
             (forall i, (i < half - count)%nat -> nth (half + i) poly 0 = c) ->
             constant_prefix c (2 * half)
               (fold_left (butterfly E 0 half) (seq (half - count) count) poly)).
  { clear poly Hlen Hpre.
    induction count as [|count IH]; intros poly Hcount Hlen Hpre Hdone;
      cbn [seq fold_left].
    - intros i Hi. destruct (Nat.lt_ge_cases i half) as [Hlt|Hge].
      + now apply Hpre.
      + replace i with (half + (i - half))%nat by lia. apply Hdone. lia.
    - replace (S (half - S count)) with (half - count)%nat by lia.
      rewrite (butterfly_zero E half poly (half - S count) c Hq Hc)
        by (apply Hpre; lia).
      apply IH.
      + lia.
      + now rewrite !length_upd.
      + intros i Hi. rewrite nth_upd_other by lia.
        destruct (Nat.eq_dec i (half - S count)) as [->|Hne].
        * apply nth_upd_same. lia.
        * rewrite nth_upd_other by auto. now apply Hpre.
      + intros i Hi.
        destruct (Nat.eq_dec i (half - S count)) as [->|Hne].
        * replace (half + (half - S count))%nat
            with (half - S count + half)%nat by lia.
          apply nth_upd_same. rewrite length_upd. lia.
        * rewrite !nth_upd_other by lia. apply Hdone. lia. }
  specialize (Hgen half poly (Nat.le_refl _) Hlen Hpre).
  rewrite Nat.sub_diag in Hgen. apply Hgen. intros i Hi. lia.
Qed.

(** The number of blocks [start_loop] visits. *)
Fixpoint blocks (fuel n len start : nat) : nat :=
  match fuel with
  | O => O
  | S fuel' =>
      if (start <? n)%nat then S (blocks fuel' n len (start + len)) else O
  end.

Lemma start_loop_frame E table len fuel : forall start poly k,
  0 <= k ->
  k + Z.of_nat (blocks fuel (n_ E) len start) <= Z.of_nat (length table) ->
  Z.of_nat (length table) < 2 ^ 32 ->
  let r := start_loop fuel E table (fun k => u32 (k + 1)) len start (poly, k) in
  length (fst r) = length poly /\
  (forall i, (i < start)%nat -> nth i (fst r) 0 = nth i poly 0) /\
  snd r = k + Z.of_nat (blocks fuel (n_ E) len start).
Proof.
  induction fuel as [|fuel IH]; intros start poly k Hk Hroom Hsize;
    cbn [start_loop blocks] in *.
  - cbn [fst snd]. repeat split. lia.
  - destruct (start <? n_ E)%nat eqn:Estart; cbv zeta.
    + replace (k <? Z.of_nat (length table)) with true
        by (symmetry; apply Z.ltb_lt; lia).
      destruct (block_frame E (nth (Z.to_nat k) table 0) (len / 2) (len / 2)
                  start poly) as [Hlen Hnth]. cbv zeta in *.
      assert (Hstep : u32 (k + 1) = k + 1) by (unfold u32; apply Z.mod_small; lia).
      rewrite Hstep.
      destruct (IH (start + len)%nat
                  (fold_left (butterfly E (nth (Z.to_nat k) table 0) (len / 2))
                             (seq start (len / 2)) poly)
                  (k + 1)) as (H1 & H2 & H3); try lia.
      cbv zeta in *. repeat split.
      * congruence.
      * intros i Hi. rewrite H2 by lia. now apply Hnth.
      * rewrite H3. lia.
    + cbn [fst snd]. repeat split. lia.
Qed.

(** One level whose first twiddle is 0: the constant prefix doubles. *)
Lemma level_doubles E half poly k c :
  degenerate E ->
  (0 < half)%nat -> (2 * half <= 256)%nat -> length poly = 256%nat ->
  0 <= c < 8380417 ->
  constant_prefix c half poly ->
  0 <= k -> nth (Z.to_nat k) (zetas_ E) 0 = 0 ->
  k + Z.of_nat (blocks 256 256 (2 * half) 0) <= 256 ->
  let r := start_loop (n_ E) E (zetas_ E) (fun k => u32 (k + 1))
                      (2 * half) 0 (poly, k) in
  length (fst r) = 256%nat /\
  constant_prefix c (2 * half) (fst r) /\
  snd r = k + Z.of_nat (blocks 256 256 (2 * half) 0).
Proof.
  intros (Hn & Hq & Hz & _ & _) Hhalf Hlen2 Hlen Hc Hpre Hk Hzeta Hroom.
  rewrite Hn. cbv zeta.
  change (blocks 256 256 (2 * half) 0)
    with (S (blocks 255 256 (2 * half) (0 + 2 * half))) in *.
  change (start_loop 256 E (zetas_ E) (fun k0 => u32 (k0 + 1)) (2 * half) 0 (poly, k))
    with (if (0 <? n_ E)%nat then
            let st :=
              if k <? Z.of_nat (length (zetas_ E)) then
                (fold_left (butterfly E (nth (Z.to_nat k) (zetas_ E) 0)
                                      (2 * half / 2))
                           (seq 0 (2 * half / 2)) poly,
                 u32 (k + 1))
              else (poly, k) in
            start_loop 255 E (zetas_ E) (fun k0 => u32 (k0 + 1)) (2 * half)
                       (0 + 2 * half) st
          else (poly, k)).
  rewrite Hn, Hz. change (0 <? 256)%nat with true. cbv iota zeta.
  replace (k <? Z.of_nat 256) with true by (symmetry; apply Z.ltb_lt; lia).
  replace (2 * half / 2)%nat with half
    by (symmetry; rewrite Nat.mul_comm; apply Nat.div_mul; lia).
  rewrite Hzeta.
  assert (Hstep : u32 (k + 1) = k + 1) by (unfold u32; apply Z.mod_small; lia).
  rewrite Hstep.
  pose proof (block_zero_doubles E half poly c Hq Hc ltac:(lia) Hpre) as Hblock.
  destruct (block_frame E 0 half half 0 poly) as [Hlen0 _]. cbv zeta in Hlen0.
  destruct (start_loop_frame E (zetas_ E) (2 * half) 255 (0 + 2 * half)
              (fold_left (butterfly E 0 half) (seq 0 half) poly) (k + 1))
    as (H1 & H2 & H3); try (rewrite ?Hn, ?Hz; lia).
  cbv zeta in *. rewrite Hn in H3. repeat split.
  - congruence.
  - intros i Hi. rewrite H2 by lia. now apply Hblock.
  - rewrite H3. lia.
Qed.

Lemma bit_reverse_first E poly :
  nth 0 (bitrev_ E) O = O ->
  length (bit_reverse E poly) = length poly /\
  nth 0 (bit_reverse E poly) 0 = nth 0 poly 0.
Proof.
  intros H0. unfold bit_reverse.
  assert (Hgen : forall count start p,
             (start = O \/ (0 < start)%nat) ->
             length (fold_left
                       (fun poly i =>
                          if (i <? nth i (bitrev_ E) O)%nat
                          then swap 0 poly i (nth i (bitrev_ E) O) else poly)
                       (seq start count) p) = length p /\
             nth 0 (fold_left
                      (fun poly i =>
                         if (i <? nth i (bitrev_ E) O)%nat
                         then swap 0 poly i (nth i (bitrev_ E) O) else poly)
                      (seq start count) p) 0 = nth 0 p 0).
  { induction count as [|count IH]; intros start p Hstart; cbn [seq fold_left];
      [auto|].
    destruct (IH (S start)
                 (if (start <? nth start (bitrev_ E) O)%nat
                  then swap 0 p start (nth start (bitrev_ E) O) else p))
      as [Hlen Hnth]; [right; lia|].
    rewrite Hlen, Hnth.
    destruct (start <? nth start (bitrev_ E) O)%nat eqn:Elt; [|auto].
    apply Nat.ltb_lt in Elt. rewrite length_swap. split; [reflexivity|].
    apply nth_swap_other; [|lia].
    destruct Hstart as [->|Hpos]; [rewrite H0 in Elt; lia|lia]. }
  apply Hgen. now left.
Qed.

Lemma ntt_forward_repeat (E : Engine) (poly : list Z) :
  ScalarNTTEngine 8380417 256 = Some E ->
  length poly = 256%nat ->
  0 <= nth 0 poly 0 < 8380417 ->
  ntt_forward E poly = repeat (nth 0 poly 0) 256.
Proof.
  intros HE Hlen Hc. apply scalar_engine_degenerate in HE.
  pose proof HE as (Hn & Hq & Hz & Hb0 & Hzeros).
  unfold ntt_forward. cbv zeta.
  destruct (bit_reverse_first E poly Hb0) as [Hlen0 Hfirst].
  rewrite Hlen in Hlen0.
  set (c := nth 0 poly 0) in *.
  set (p0 := bit_reverse E poly) in *.
  assert (Hpre0 : constant_prefix c 1 p0)
    by (intros i Hi; replace i with O by lia; exact Hfirst).
  repeat match goal with
         | H : Forall _ (_ :: _) |- _ => inversion H; clear H; subst
         end.
  (* the eight levels, len = 2, 4, ..., 256 *)
  change (forward_levels 32 E 2 (p0, 1))
    with (if (2 <=? n_ E)%nat then
            forward_levels 31 E 4
              (start_loop (n_ E) E (zetas_ E) (fun k => u32 (k + 1)) (2 * 1) 0 (p0, 1))
          else (p0, 1)).
  rewrite Hn at 1. change (2 <=? 256)%nat with true. cbv iota.
  destruct (level_doubles E 1 p0 1 c HE) as (L1 & P1 & K1);
    try assumption; try lia; [vm_compute; discriminate|].
  cbv zeta in *.
  destruct (start_loop (n_ E) E (zetas_ E) (fun k => u32 (k + 1)) (2 * 1) 0 (p0, 1))
    as [p1 k1]. cbn [fst snd] in *. subst k1.
  change (1 + Z.of_nat (blocks 256 256 (2 * 1) 0)) with 129.
  change (forward_levels 31 E 4 (p1, 129))
    with (if (4 <=? n_ E)%nat then
            forward_levels 30 E 8
              (start_loop (n_ E) E (zetas_ E) (fun k => u32 (k + 1)) (2 * 2) 0 (p1, 129))
          else (p1, 129)).
  rewrite Hn at 1. change (4 <=? 256)%nat with true. cbv iota.
  destruct (level_doubles E 2 p1 129 c HE) as (L2 & P2 & K2);
    try assumption; try lia; [vm_compute; discriminate|].
  cbv zeta in *.
  destruct (start_loop (n_ E) E (zetas_ E) (fun k => u32 (k + 1)) (2 * 2) 0 (p1, 129))
    as [p2 k2]. cbn [fst snd] in *. subst k2.
  change (129 + Z.of_nat (blocks 256 256 (2 * 2) 0)) with 193.
  change (forward_levels 30 E 8 (p2, 193))
    with (if (8 <=? n_ E)%nat then
            forward_levels 29 E 16
              (start_loop (n_ E) E (zetas_ E) (fun k => u32 (k + 1)) (2 * 4) 0 (p2, 193))
          else (p2, 193)).
  rewrite Hn at 1. change (8 <=? 256)%nat with true. cbv iota.
  destruct (level_doubles E 4 p2 193 c HE) as (L3 & P3 & K3);
    try assumption; try lia; [vm_compute; discriminate|].
  cbv zeta in *.
  destruct (start_loop (n_ E) E (zetas_ E) (fun k => u32 (k + 1)) (2 * 4) 0 (p2, 193))
    as [p3 k3]. cbn [fst snd] in *. subst k3.
  change (193 + Z.of_nat (blocks 256 256 (2 * 4) 0)) with 225.
  change (forward_levels 29 E 16 (p3, 225))
    with (if (16 <=? n_ E)%nat then
            forward_levels 28 E 32
              (start_loop (n_ E) E (zetas_ E) (fun k => u32 (k + 1)) (2 * 8) 0 (p3, 225))
          else (p3, 225)).
  rewrite Hn at 1. change (16 <=? 256)%nat with true. cbv iota.
  destruct (level_doubles E 8 p3 225 c HE) as (L4 & P4 & K4);
    try assumption; try lia; [vm_compute; discriminate|].
  cbv zeta in *.
  destruct (start_loop (n_ E) E (zetas_ E) (fun k => u32 (k + 1)) (2 * 8) 0 (p3, 225))
    as [p4 k4]. cbn [fst snd] in *. subst k4.
  change (225 + Z.of_nat (blocks 256 256 (2 * 8) 0)) with 241.
  change (forward_levels 28 E 32 (p4, 241))
    with (if (32 <=? n_ E)%nat then
            forward_levels 27 E 64
              (start_loop (n_ E) E (zetas_ E) (fun k => u32 (k + 1)) (2 * 16) 0 (p4, 241))
          else (p4, 241)).
  rewrite Hn at 1. change (32 <=? 256)%nat with true. cbv iota.
  destruct (level_doubles E 16 p4 241 c HE) as (L5 & P5 & K5);
    try assumption; try lia; [vm_compute; discriminate|].
  cbv zeta in *.
  destruct (start_loop (n_ E) E (zetas_ E) (fun k => u32 (k + 1)) (2 * 16) 0 (p4, 241))
    as [p5 k5]. cbn [fst snd] in *. subst k5.
  change (241 + Z.of_nat (blocks 256 256 (2 * 16) 0)) with 249.
  change (forward_levels 27 E 64 (p5, 249))
    with (if (64 <=? n_ E)%nat then
            forward_levels 26 E 128
              (start_loop (n_ E) E (zetas_ E) (fun k => u32 (k + 1)) (2 * 32) 0 (p5, 249))
          else (p5, 249)).
  rewrite Hn at 1. change (64 <=? 256)%nat with true. cbv iota.
  destruct (level_doubles E 32 p5 249 c HE) as (L6 & P6 & K6);
    try assumption; try lia; [vm_compute; discriminate|].
  cbv zeta in *.
  destruct (start_loop (n_ E) E (zetas_ E) (fun k => u32 (k + 1)) (2 * 32) 0 (p5, 249))
    as [p6 k6]. cbn [fst snd] in *. subst k6.
  change (249 + Z.of_nat (blocks 256 256 (2 * 32) 0)) with 253.
  change (forward_levels 26 E 128 (p6, 253))
    with (if (128 <=? n_ E)%nat then
            forward_levels 25 E 256
              (start_loop (n_ E) E (zetas_ E) (fun k => u32 (k + 1)) (2 * 64) 0 (p6, 253))
          else (p6, 253)).
  rewrite Hn at 1. change (128 <=? 256)%nat with true. cbv iota.
  destruct (level_doubles E 64 p6 253 c HE) as (L7 & P7 & K7);
    try assumption; try lia; [vm_compute; discriminate|].
  cbv zeta in *.
  destruct (start_loop (n_ E) E (zetas_ E) (fun k => u32 (k + 1)) (2 * 64) 0 (p6, 253))
    as [p7 k7]. cbn [fst snd] in *. subst k7.
  change (253 + Z.of_nat (blocks 256 256 (2 * 64) 0)) with 255.
  change (forward_levels 25 E 256 (p7, 255))
    with (if (256 <=? n_ E)%nat then
            forward_levels 24 E 512
              (start_loop (n_ E) E (zetas_ E) (fun k => u32 (k + 1)) (2 * 128) 0 (p7, 255))
          else (p7, 255)).
  rewrite Hn at 1. change (256 <=? 256)%nat with true. cbv iota.
  destruct (level_doubles E 128 p7 255 c HE) as (L8 & P8 & K8);
    try assumption; try lia; [vm_compute; discriminate|].
  cbv zeta in *.
  destruct (start_loop (n_ E) E (zetas_ E) (fun k => u32 (k + 1)) (2 * 128) 0 (p7, 255))
    as [p8 k8]. cbn [fst snd] in *. subst k8.
  change (forward_levels 24 E 512 (p8, 255 + Z.of_nat (blocks 256 256 (2 * 128) 0)))
    with (if (512 <=? n_ E)%nat then
            forward_levels 23 E 1024
              (start_loop (n_ E) E (zetas_ E) (fun k => u32 (k + 1)) 512 0
                 (p8, 255 + Z.of_nat (blocks 256 256 (2 * 128) 0)))
          else (p8, 255 + Z.of_nat (blocks 256 256 (2 * 128) 0))).
  rewrite Hn at 1. change (512 <=? 256)%nat with false. cbv iota. cbn [fst].
  apply (nth_ext _ _ 0 0).
  - now rewrite repeat_length.
  - intros i Hi. rewrite L8 in Hi. rewrite (P8 i) by lia.
    symmetry. apply (repeat_spec 256). apply nth_In.
    rewrite repeat_length. lia.
Qed.

(** Whatever the other 255 coefficients are, the forward transform
    returns the first coefficient 256 times. *)
Theorem ntt_forward_is_constant (E : Engine) (poly : list Z) :
  ScalarNTTEngine 8380417 256 = Some E ->
  length poly = 256%nat ->
  0 <= nth 0 poly 0 < 8380417 ->
  ntt_forward E poly = repeat (nth 0 poly 0) 256.
Proof. apply ntt_forward_repeat. Qed.


Lemma ntt_forward_is_constant_witness :
  match ScalarNTTEngine 8380417 256 with
  | Some E =>
      length x_poly = 256%nat /\ 0 <= nth 0 x_poly 0 < 8380417 /\
      ntt_forward E x_poly = repeat (nth 0 x_poly 0) 256
  | None => False
  end.
Proof.
  destruct (ScalarNTTEngine 8380417 256) as [E|] eqn:HE.
  - split; [reflexivity|]. split; [cbn; lia|].
    apply (ntt_forward_is_constant E x_poly HE); [reflexivity | cbn; lia].
  - vm_compute in HE. discriminate HE.
Defined.

End NttFacts.

Module LayoutFacts.
Import Layout.

Lemma length_bits_of width : forall c, length (bits_of width c) = width.
Proof. induction width as [|w IH]; intros c; simpl; auto. Qed.

Lemma length_flat_map_const {A B : Type} (f : A -> list B) (m : nat) (xs : list A) :
  Forall (fun x => length (f x) = m) xs ->
  length (flat_map f xs) = (m * length xs)%nat.
Proof.
  induction 1 as [|x xs Hx _ IH]; simpl; [lia|].
  rewrite length_app, Hx, IH. lia.
Qed.

Lemma length_pack_bits width coeffs :
  length (pack_bits width coeffs) = ((width * length coeffs + 7) / 8)%nat.
Proof.
  unfold pack_bits. rewrite length_map, length_seq.
  rewrite (length_flat_map_const (bits_of width) width); [reflexivity|].
  apply Forall_forall. intros c _. apply length_bits_of.
Qed.

(** A polynomial of 256 coefficients packs into 32 bytes per bit. *)
Lemma length_pack_poly width poly :
  length poly = n -> length (pack_bits width poly) = (32 * width)%nat.
Proof.
  intros H. rewrite length_pack_bits, H. unfold n.
  replace (width * 256 + 7)%nat with (7 + (32 * width) * 8)%nat by lia.
  rewrite Nat.div_add by lia. reflexivity.
Qed.

Lemma length_packed_vec (pack : list Z -> list Z) (width len : nat) v :
  (forall poly, length poly = n -> length (pack poly) = (32 * width)%nat) ->
  polyvec len v ->
  length (flat_map pack v) = (32 * width * len)%nat.
Proof.
  intros Hpack [Hlen Hv]. subst len.
  apply length_flat_map_const.
  eapply Forall_impl; [|exact Hv]. intros poly. apply Hpack.
Qed.

Lemma length_row_ends rows : forall acc, length (row_ends acc rows) = length rows.
Proof. induction rows as [|r rows IH]; intros acc; simpl; auto. Qed.

Lemma length_pack_h P hint :
  polyvec (k P) hint -> (popcount hint <= omega P)%nat ->
  length (pack_h P hint) = (omega P + k P)%nat.
Proof.
  intros [Hlen _] Hpop. unfold pack_h.
  rewrite !length_app, repeat_length, length_row_ends, Hlen.
  unfold popcount in *. lia.
Qed.

Lemma length_encode_pk P pk :
  wf_pk P pk -> length (encode_pk pk) = (32 + 320 * k P)%nat.
Proof.
  intros [Hrho Ht1]. unfold encode_pk.
  rewrite length_app, Hrho, (length_packed_vec pack_t1 10 (k P)); auto.
  intros poly. apply length_pack_poly.
Qed.

Lemma length_encode_sk P sk :
  wf_sk P sk ->
  length (encode_sk P sk)
  = (128 + 32 * eta_bits P * (l P + k P) + 416 * k P)%nat.
Proof.
  intros (Hrho & HK & Htr & Hs1 & Hs2 & Ht0). unfold encode_sk.
  rewrite !length_app, Hrho, HK, Htr.
  rewrite (length_packed_vec (pack_eta P) (eta_bits P) (l P)),
          (length_packed_vec (pack_eta P) (eta_bits P) (k P)),
          (length_packed_vec pack_t0 13 (k P)); auto;
    try (intros poly; apply length_pack_poly).
  lia.
Qed.

Lemma length_encode_sig P sig :
  wf_sig P sig ->
  length (encode_sig P sig)
  = (lambda P / 4 + 32 * z_bits P * l P + (omega P + k P))%nat.
Proof.
  intros (Hc & Hz & Hh & Hpop). unfold encode_sig.
  rewrite !length_app, Hc, length_pack_h by assumption.
  rewrite (length_packed_vec (pack_z P) (z_bits P) (l P));
    [lia | | assumption].
  intros poly Hpoly. unfold pack_z. apply length_pack_poly.
  now rewrite length_map.
Qed.

Lemma parameter_set_cases level P :
  parameter_set level = Some P ->
  (level = 44%nat /\
   P = mkParameterSet 4 4 2 39 78 (2 ^ 17) ((q - 1) / 88) 80 128)
  \/ (level = 65%nat /\
      P = mkParameterSet 6 5 4 49 196 (2 ^ 19) ((q - 1) / 32) 55 192)
  \/ (level = 87%nat /\
      P = mkParameterSet 8 7 2 60 120 (2 ^ 19) ((q - 1) / 32) 75 256).
Proof.
  intros H.
  do 88 (destruct level as [|level];
         [first [discriminate H | injection H as <-; tauto]|]).
  discriminate H.
Qed.

(** C3. For each of the three parameter sets, every public key, private
    key and signature of the data model's shape serializes to the
    table's size: 1312/1952/2592, 2560/4032/4896 and 2420/3309/4627
    bytes. *)
Theorem serialized_sizes_are_fixed
  (level : nat) (P : ParameterSet)
  (pk : PublicKey) (sk : PrivateKey) (sig : Signature) :
  parameter_set level = Some P ->
  wf_pk P pk -> wf_sk P sk -> wf_sig P sig ->
  length (encode_pk pk) = pk_bytes level /\
  length (encode_sk P sk) = sk_bytes level /\
  length (encode_sig P sig) = sig_bytes level.
Proof.
  intros HP Hpk Hsk Hsig.
  rewrite (length_encode_pk P pk Hpk), (length_encode_sk P sk Hsk),
          (length_encode_sig P sig Hsig).
  destruct (parameter_set_cases level P HP) as [[-> ->]|[[-> ->]|[-> ->]]];
    repeat split; reflexivity.
Qed.

(** A key pair and a signature of ML-DSA-44's shape. *)
Definition P44 : ParameterSet :=
  mkParameterSet 4 4 2 39 78 (2 ^ 17) ((q - 1) / 88) 80 128.
Definition pk44 : PublicKey :=
  mkPublicKey (repeat 7 32) (repeat (repeat 1023 256) 4).
Definition sk44 : PrivateKey :=
  mkPrivateKey (repeat 7 32) (repeat 8 32) (repeat 9 64)
               (repeat (repeat 2 256) 4) (repeat (repeat (-2) 256) 4)
               (repeat (repeat 4096 256) 4).
Definition sig44 : Signature :=
  mkSignature (repeat 5 32) (repeat (repeat (-131000) 256) 4)
              (repeat (1 :: repeat 0 255) 4).

Lemma serialized_sizes_are_fixed_witness :
  length (encode_pk pk44) = 1312%nat /\
  length (encode_sk P44 sk44) = 2560%nat /\
  length (encode_sig P44 sig44) = 2420%nat.
Proof.
  apply (serialized_sizes_are_fixed 44 P44 pk44 sk44 sig44).
  - reflexivity.
  - repeat split; repeat constructor.
  - repeat split; repeat constructor.
  - repeat split; repeat constructor.
Defined.

End LayoutFacts.

Module ArithFacts.
Import Utils.

(** *** [is_power_of_two] *)

Lemma power_of_two_bits x :
  0 < x -> Z.land x (x - 1) = 0 -> x = 2 ^ Z.log2 x.
Proof.
  intros Hx Hland.
  destruct (Z.log2_spec x Hx) as [Hlo Hhi].
  destruct (Z.eq_dec x (2 ^ Z.log2 x)) as [|Hne]; [assumption|].
  exfalso.
  assert (Hbit : Z.testbit (Z.land x (x - 1)) (Z.log2 x) = true).
  { rewrite Z.land_spec, Z.bit_log2 by assumption.
    assert (Hlog : Z.log2 (x - 1) = Z.log2 x).
    { apply Z.log2_unique; [apply Z.log2_nonneg|].
      lia. }
    rewrite <- Hlog. rewrite Z.bit_log2; [reflexivity|].
    pose proof (Z.pow_pos_nonneg 2 (Z.log2 x) ltac:(lia) (Z.log2_nonneg x)).
    lia. }
  rewrite Hland in Hbit. rewrite Z.bits_0 in Hbit. discriminate.
Qed.

(** [is_power_of_two] holds exactly for the 32 powers of two that fit
    into a [uint32_t]; 0 is not one of them. *)
Theorem is_power_of_two_iff (x : Z) :
  0 <= x < 2 ^ 32 ->
  (is_power_of_two x = true <-> exists k, 0 <= k < 32 /\ x = 2 ^ k).
Proof.
  intros Hx. unfold is_power_of_two. rewrite andb_true_iff, negb_true_iff.
  rewrite Z.eqb_eq, Z.eqb_neq. split.
  - intros [Hland Hne].
    assert (Hu : u32 (x - 1) = x - 1) by (unfold u32; apply Z.mod_small; lia).
    rewrite Hu in Hland.
    exists (Z.log2 x). split.
    + split; [apply Z.log2_nonneg|]. apply Z.log2_lt_pow2; lia.
    + apply power_of_two_bits; [lia|assumption].
  - intros (k & Hk & ->).
    assert (Hpos : 0 < 2 ^ k) by (apply Z.pow_pos_nonneg; lia).
    split; [|lia].
    assert (Hu : u32 (2 ^ k - 1) = 2 ^ k - 1)
      by (unfold u32; apply Z.mod_small; lia).
    rewrite Hu. change (2 ^ k - 1) with (Z.pred (2 ^ k)).
    rewrite <- Z.ones_equiv, Z.land_ones by lia.
    apply Z.mod_same. lia.
Qed.

Lemma is_power_of_two_iff_witness :
  is_power_of_two 256 = true <-> exists k, 0 <= k < 32 /\ 256 = 2 ^ k.
Proof. apply is_power_of_two_iff. lia. Defined.

(** *** [mod_pow] *)

Lemma mod_pow_loop_spec m fuel : forall result base exp,
  0 < m < 2 ^ 32 ->
  0 <= exp < 2 ^ Z.of_nat fuel ->
  0 <= base < m ->
  0 <= result < 2 ^ 32 ->
  mod_pow_loop fuel result base exp m
  = if exp =? 0 then result else (result * base ^ exp) mod m.
Proof.
  induction fuel as [|fuel IH]; intros result base exp Hm Hexp Hbase Hres.
  - cbn [mod_pow_loop]. cbn in Hexp. replace exp with 0 by lia. reflexivity.
  - cbn [mod_pow_loop].
    destruct (0 <? exp) eqn:Epos.
    2:{ apply Z.ltb_ge in Epos. replace exp with 0 by lia. reflexivity. }
    apply Z.ltb_lt in Epos.
    replace (exp =? 0) with false by (symmetry; apply Z.eqb_neq; lia).
    cbv zeta.
    assert (Hb2 : u32 (u64 (base * base) mod m) = (base * base) mod m).
    { unfold u64. rewrite (Z.mod_small (base * base) (2 ^ 64)) by nia.
      unfold u32. apply Z.mod_small.
      pose proof (Z.mod_pos_bound (base * base) m ltac:(lia)). lia. }
    assert (Hr2 : u32 (u64 (result * base) mod m) = (result * base) mod m).
    { unfold u64. rewrite (Z.mod_small (result * base) (2 ^ 64)) by nia.
      unfold u32. apply Z.mod_small.
      pose proof (Z.mod_pos_bound (result * base) m ltac:(lia)). lia. }
    rewrite Hb2, Hr2.
    assert (Hhalf : 0 <= Z.shiftr exp 1 < 2 ^ Z.of_nat fuel).
    { rewrite Z.shiftr_div_pow2 by lia. change (2 ^ 1) with 2.
      rewrite Nat2Z.inj_succ, Z.pow_succ_r in Hexp by lia.
      split; [apply Z.div_pos; lia|].
      apply Z.div_lt_upper_bound; lia. }
    assert (Hbb : 0 <= (base * base) mod m < m)
      by (apply Z.mod_pos_bound; lia).
    assert (Hexp2 : exp = 2 * Z.shiftr exp 1 + Z.land exp 1).
    { rewrite Z.shiftr_div_pow2 by lia. change (2 ^ 1) with 2.
      replace (Z.land exp 1) with (exp mod 2)
        by (symmetry; apply (Z.land_ones exp 1); lia).
      apply Z.div_mod. lia. }
    assert (Hbit : 0 <= Z.land exp 1 < 2).
    { replace (Z.land exp 1) with (exp mod 2)
        by (symmetry; apply (Z.land_ones exp 1); lia).
      apply Z.mod_pos_bound. reflexivity. }
    set (e := Z.shiftr exp 1) in *. set (bit := Z.land exp 1) in *.
    assert (Hsq : forall r, (r * ((base * base) mod m) ^ e) mod m
                            = (r * base ^ (2 * e)) mod m).
    { intros r. rewrite Z.pow_mul_r by lia. rewrite (Z.pow_2_r base).
      rewrite <- Z.mul_mod_idemp_r by lia.
      rewrite Z.mod_pow_l.
      rewrite Z.mul_mod_idemp_r by lia. reflexivity. }
    destruct (bit =? 0) eqn:Ebit; cbn [negb].
    + apply Z.eqb_eq in Ebit.
      rewrite IH by (try assumption; lia).
      replace (e =? 0) with false by (symmetry; apply Z.eqb_neq; lia).
      rewrite Hsq. f_equal. f_equal. f_equal. lia.
    + apply Z.eqb_neq in Ebit.
      assert (Hrb : 0 <= (result * base) mod m < m)
        by (apply Z.mod_pos_bound; lia).
      rewrite IH by (try assumption; lia).
      destruct (e =? 0) eqn:Ee.
      * apply Z.eqb_eq in Ee. f_equal. f_equal.
        replace exp with 1 by lia. now rewrite Z.pow_1_r.
      * rewrite Hsq. rewrite Z.mul_mod_idemp_l by lia.
        f_equal. apply Z.eqb_neq in Ee.
        replace exp with (2 * e + 1) by lia.
        rewrite Z.pow_add_r, Z.pow_1_r by lia. ring.
Qed.

(** For a modulus that is not 0, [mod_pow] returns [base ^ exp mod m],
    except that an exponent of 0 gives 1 also when the modulus is 1. *)
Theorem mod_pow_correct (base exp m : Z) :
  0 <= base < 2 ^ 32 -> 0 <= exp < 2 ^ 32 -> 0 < m < 2 ^ 32 ->
  mod_pow base exp m = Some (if exp =? 0 then 1 else base ^ exp mod m).
Proof.
  intros Hbase Hexp Hm. unfold mod_pow.
  replace (m =? 0) with false by (symmetry; apply Z.eqb_neq; lia).
  rewrite mod_pow_loop_spec;
    [ | assumption | exact Hexp | apply Z.mod_pos_bound; lia | lia ].
  destruct (exp =? 0); [reflexivity|].
  rewrite Z.mul_1_l. now rewrite Z.mod_pow_l.
Qed.

Lemma mod_pow_correct_witness :
  mod_pow 3 8380416 8380417
  = Some (if 8380416 =? 0 then 1 else 3 ^ 8380416 mod 8380417).
Proof. apply mod_pow_correct; lia. Defined.

(** *** [mod_inverse] *)

Lemma i64_small x : - 2 ^ 63 <= x < 2 ^ 63 -> i64 x = x.
Proof.
  intros Hx. unfold i64, signed. change (64 - 1) with 63.
  destruct (Z_lt_ge_dec x 0) as [Hneg|Hpos].
  - replace (x mod 2 ^ 64) with (x + 2 ^ 64)
      by (apply Z.mod_unique with (-1); lia).
    replace (x + 2 ^ 64 <? 2 ^ 63) with false
      by (symmetry; apply Z.ltb_ge; lia).
    lia.
  - rewrite Z.mod_small by lia.
    replace (x <? 2 ^ 63) with true by (symmetry; apply Z.ltb_lt; lia).
    reflexivity.
Qed.

(** The loop divides by zero when the arguments have a common factor:
    the remainders reach 0 while [a] is still above 1. *)
Lemma mod_inverse_loop_stuck fuel : forall a m x0 x1,
  1 < a -> 0 <= m -> Z.gcd a m <> 1 ->
  mod_inverse_loop fuel a m x0 x1 = None.
Proof.
  induction fuel as [|fuel IH]; intros a m x0 x1 Ha Hm Hg; [reflexivity|].
  cbn [mod_inverse_loop].
  replace (1 <? a) with true by (symmetry; apply Z.ltb_lt; lia).
  destruct (m =? 0) eqn:Em; [reflexivity|]. apply Z.eqb_neq in Em.
  cbv zeta. apply IH.
  - destruct (Z.eq_dec m 1) as [->|]; [|lia].
    exfalso. apply Hg. apply Z.gcd_1_r.
  - apply Z.mod_pos_bound. lia.
  - rewrite Z.gcd_mod_r. now rewrite Z.gcd_comm.
Qed.

(** Coprime arguments: [a] at least halves every two passes. *)
Lemma mod_inverse_loop_returns_below (k : nat) : forall fuel a m x0 x1,
  0 <= m < a -> a < 2 ^ (Z.of_nat k + 1) -> Z.gcd a m = 1 ->
  (2 * k + 1 <= fuel)%nat ->
  exists r, mod_inverse_loop fuel a m x0 x1 = Some r.
Proof.
  induction k as [|k IH]; intros fuel a m x0 x1 Hm Ha Hg Hfuel.
  - destruct fuel as [|fuel]; [lia|]. cbn [mod_inverse_loop].
    change (2 ^ (Z.of_nat 0 + 1)) with 2 in Ha.
    replace (1 <? a) with false by (symmetry; apply Z.ltb_ge; lia).
    eauto.
  - destruct fuel as [|fuel]; [lia|]. cbn [mod_inverse_loop].
    destruct (1 <? a) eqn:Ea; [|eauto]. apply Z.ltb_lt in Ea.
    assert (Hm0 : m <> 0).
    { intros ->. rewrite Z.gcd_0_r in Hg. lia. }
    replace (m =? 0) with false by (symmetry; apply Z.eqb_neq; lia).
    cbv zeta.
    destruct fuel as [|fuel]; [lia|]. cbn [mod_inverse_loop].
    destruct (1 <? m) eqn:Em1; [|eauto]. apply Z.ltb_lt in Em1.
    pose proof (Z.mod_pos_bound a m ltac:(lia)) as Hr.
    assert (Hg' : Z.gcd m (a mod m) = 1)
      by (rewrite Z.gcd_mod_r, Z.gcd_comm; exact Hg).
    assert (Hr0 : a mod m <> 0).
    { intros E. rewrite E, Z.gcd_0_r in Hg'. lia. }
    replace (a mod m =? 0) with false by (symmetry; apply Z.eqb_neq; lia).
    cbv zeta.
    apply IH.
    + apply Z.mod_pos_bound. lia.
    + assert (Hq : 1 <= a / m) by (apply Z.div_le_lower_bound; lia).
      pose proof (Z.div_mod a m Hm0) as Hdiv.
      assert (Hdouble : 2 * (a mod m) < a) by nia.
      replace (Z.of_nat (S k) + 1) with (Z.succ (Z.of_nat k + 1)) in Ha by lia.
      rewrite Z.pow_succ_r in Ha by lia. lia.
    + rewrite Z.gcd_mod_r, Z.gcd_comm. exact Hg'.
    + lia.
Qed.

Lemma mod_inverse_loop_S fuel a m x0 x1 :
  mod_inverse_loop (S fuel) a m x0 x1
  = if 1 <? a then
      if m =? 0 then None
      else mod_inverse_loop fuel m (a mod m) (i64 (x1 - a / m * x0)) x0
    else Some x1.
Proof. reflexivity. Qed.

Lemma mod_inverse_loop_returns a m x0 x1 :
  0 <= a < 2 ^ 32 -> 0 <= m < 2 ^ 32 -> Z.gcd a m = 1 \/ a <= 1 ->
  exists r, mod_inverse_loop 64 a m x0 x1 = Some r.
Proof.
  intros Ha Hm [Hg|Hsmall].
  2:{ rewrite mod_inverse_loop_S.
      replace (1 <? a) with false by (symmetry; apply Z.ltb_ge; lia). eauto. }
  assert (Hpow : 2 ^ (Z.of_nat 31 + 1) = 2 ^ 32) by reflexivity.
  destruct (Z_lt_ge_dec m a) as [Hlt|Hge].
  - apply (mod_inverse_loop_returns_below 31);
      [lia | rewrite Hpow; lia | assumption | ].
    apply Nat.leb_le. reflexivity.
  - rewrite mod_inverse_loop_S.
    destruct (1 <? a) eqn:Ea; [|eauto]. apply Z.ltb_lt in Ea.
    replace (m =? 0) with false by (symmetry; apply Z.eqb_neq; lia).
    assert (Hne : a <> m).
    { intros ->. rewrite Z.gcd_diag in Hg. lia. }
    rewrite (Z.mod_small a m) by lia.
    apply (mod_inverse_loop_returns_below 31);
      [lia | rewrite Hpow; lia | rewrite Z.gcd_comm; exact Hg | ].
    apply Nat.leb_le. reflexivity.
Qed.

Section Inverse.
Variables a0 m0 : Z.
Hypothesis m0_range : 1 < m0 < 2 ^ 32.

(** What the loop keeps true of [(a, m, x0, x1)]. *)
Definition bezout (a m x0 x1 : Z) : Prop :=
  1 <= a /\ 0 <= m /\
  (m0 | x1 * a0 - a) /\ (m0 | x0 * a0 - m) /\
  ((0 <= x1 /\ x0 <= 0 /\ m * x1 - a * x0 = m0) \/
   (x1 <= 0 /\ 0 <= x0 /\ a * x0 - m * x1 = m0)) /\
  - m0 < x1 < m0.

Lemma bezout_step a m x0 x1 :
  bezout a m x0 x1 -> 1 < a -> m <> 0 ->
  i64 (x1 - a / m * x0) = x1 - a / m * x0 /\
  bezout m (a mod m) (x1 - a / m * x0) x0.
Proof.
  intros (Ha & Hm & Hc1 & Hc0 & Hsign & Hx1) Ha1 Hm0.
  pose proof (Z.div_mod a m Hm0) as Hdiv.
  pose proof (Z.mod_pos_bound a m ltac:(lia)) as Hr.
  assert (Hq : 0 <= a / m) by (apply Z.div_pos; lia).
  set (q := a / m) in *. set (r := a mod m) in *.
  assert (Hnew :
    (0 <= x0 /\ x1 - q * x0 <= 0 /\ r * x0 - m * (x1 - q * x0) = m0) \/
    (x0 <= 0 /\ 0 <= x1 - q * x0 /\ m * (x1 - q * x0) - r * x0 = m0)).
  { destruct Hsign as [(H1 & H0 & He)|(H1 & H0 & He)].
    - right. repeat split; [assumption|nia|nia].
    - left. repeat split; [assumption|nia|nia]. }
  assert (Hbound : - m0 <= x1 - q * x0 <= m0).
  { destruct Hnew as [(H0 & H1 & He)|(H0 & H1 & He)]; nia. }
  assert (Hx0 : - m0 < x0 < m0).
  { destruct Hsign as [(H1 & H0 & He)|(H1 & H0 & He)]; nia. }
  split; [apply i64_small; lia|].
  unfold bezout.
  split; [lia|]. split; [lia|]. split; [exact Hc0|]. split; [|split; [exact Hnew|lia]].
  replace ((x1 - q * x0) * a0 - r)
    with ((x1 * a0 - a) - q * (x0 * a0 - m)) by lia.
  apply Z.divide_sub_r; [assumption|]. now apply Z.divide_mul_r.
Qed.

Lemma mod_inverse_loop_bezout fuel : forall a m x0 x1 r,
  bezout a m x0 x1 ->
  mod_inverse_loop fuel a m x0 x1 = Some r ->
  - m0 < r < m0 /\ (m0 | r * a0 - 1).
Proof.
  induction fuel as [|fuel IH]; intros a m x0 x1 r Hinv; [discriminate|].
  cbn [mod_inverse_loop].
  destruct (1 <? a) eqn:Ea.
  - apply Z.ltb_lt in Ea.
    destruct (m =? 0) eqn:Em; [discriminate|]. apply Z.eqb_neq in Em.
    cbv zeta.
    destruct (bezout_step a m x0 x1 Hinv Ea Em) as [Hi64 Hinv'].
    rewrite Hi64. apply IH. exact Hinv'.
  - apply Z.ltb_ge in Ea. intros H. injection H as <-.
    destruct Hinv as (Ha & Hm & Hc1 & Hc0 & Hsign & Hx1).
    split; [assumption|]. now replace 1 with a by lia.
Qed.

End Inverse.

(** For [a] coprime to a modulus above 1, [mod_inverse] returns the
    inverse of [a] in the range [0, m). *)
Theorem mod_inverse_correct (a m : Z) :
  0 < a < 2 ^ 32 -> 1 < m < 2 ^ 32 -> Z.gcd a m = 1 ->
  exists x, mod_inverse a m = Some x /\ 0 <= x < m /\ (a * x) mod m = 1.
Proof.
  intros Ha Hm Hg. unfold mod_inverse.
  replace (m =? 1) with false by (symmetry; apply Z.eqb_neq; lia).
  destruct (mod_inverse_loop_returns a m 0 1) as [r Hr]; [lia|lia|auto|].
  rewrite Hr. cbn [obind].
  destruct (mod_inverse_loop_bezout a m Hm 64 a m 0 1 r) as [Hrange Hdiv];
    [|exact Hr|].
  { unfold bezout.
    split; [lia|]. split; [lia|].
    split; [exists 0; lia|]. split; [exists (-1); lia|]. split; [left|]; lia. }
  set (x := if r <? 0 then r + m else r).
  assert (Hx : 0 <= x < m).
  { subst x. destruct (r <? 0) eqn:E;
      [apply Z.ltb_lt in E|apply Z.ltb_ge in E]; lia. }
  assert (Hxd : (m | x * a - 1)).
  { subst x. destruct (r <? 0); [|assumption].
    replace ((r + m) * a - 1) with ((r * a - 1) + a * m) by ring.
    apply Z.divide_add_r; [assumption|]. apply Z.divide_factor_r. }
  exists x. split; [|split; [exact Hx|]].
  - f_equal. unfold u32. apply Z.mod_small. lia.
  - destruct Hxd as [c Hc].
    replace (a * x) with (1 + c * m) by lia.
    rewrite Z.mod_add by lia. apply Z.mod_small. lia.
Qed.

Lemma mod_inverse_correct_witness :
  exists x, mod_inverse 256 8380417 = Some x /\ 0 <= x < 8380417 /\
            (256 * x) mod 8380417 = 1.
Proof. apply mod_inverse_correct; [lia | lia | reflexivity]. Defined.

(** [mod_inverse] fails, by dividing by zero, exactly when [a] is above
    1 and has a factor in common with [m]; for [a] below 2 it returns
    without looking at [m]. *)
Theorem mod_inverse_fails_iff (a m : Z) :
  0 <= a < 2 ^ 32 -> 0 <= m < 2 ^ 32 -> m <> 1 ->
  (mod_inverse a m = None <-> 1 < a /\ Z.gcd a m <> 1).
Proof.
  intros Ha Hm Hm1. unfold mod_inverse.
  replace (m =? 1) with false by (symmetry; apply Z.eqb_neq; lia).
  split.
  - intros Hnone.
    destruct (Z_le_gt_dec a 1) as [Hsmall|Hbig].
    + destruct (mod_inverse_loop_returns a m 0 1) as [r Hr]; [lia|lia|auto|].
      rewrite Hr in Hnone. discriminate.
    + split; [lia|]. intros Hg.
      destruct (mod_inverse_loop_returns a m 0 1) as [r Hr]; [lia|lia|auto|].
      rewrite Hr in Hnone. discriminate.
  - intros [Ha1 Hg].
    rewrite mod_inverse_loop_stuck by (try assumption; lia). reflexivity.
Qed.

Lemma mod_inverse_fails_iff_witness :
  mod_inverse 6 8380416 = None <-> 1 < 6 /\ Z.gcd 6 8380416 <> 1.
Proof. apply mod_inverse_fails_iff; lia. Defined.

End ArithFacts.
Module PackFacts.
Import Utils.

Definition is_u32 (c : Z) : Prop := 0 <= c < 2 ^ 32.
Definition is_byte (b : Z) : Prop := 0 <= b < 256.

Lemma pack_row_flat_map poly acc :
  fold_left (fun packed coeff => packed ++ pack_coeff coeff) poly acc
  = acc ++ flat_map pack_coeff poly.
Proof. apply (fold_left_app_acc pack_coeff). Qed.

Lemma pack_flat_map v :
  pack_polynomial_vector v = flat_map (flat_map pack_coeff) v.
Proof.
  unfold pack_polynomial_vector.
  assert (Hgen : forall acc,
    fold_left
      (fun packed poly =>
         fold_left (fun packed coeff => packed ++ pack_coeff coeff) poly packed)
      v acc = acc ++ flat_map (flat_map pack_coeff) v).
  { induction v as [|p v IH]; intros acc; cbn [fold_left flat_map].
    - now rewrite app_nil_r.
    - rewrite IH, pack_row_flat_map, app_assoc. reflexivity. }
  apply Hgen.
Qed.

Lemma length_pack_row poly :
  length (flat_map pack_coeff poly) = (4 * length poly)%nat.
Proof.
  induction poly as [|c poly IH]; [reflexivity|].
  cbn [flat_map length app pack_coeff]. rewrite IH. lia.
Qed.

Lemma byte_high_bits b i : is_byte b -> 8 <= i -> Z.testbit b i = false.
Proof.
  intros Hb Hi. apply (Z.testbit_false b i); [lia|].
  rewrite Z.div_small; [reflexivity|].
  unfold is_byte in Hb.
  split; [lia|]. apply Z.lt_le_trans with (2 ^ 8); [lia|].
  apply Z.pow_le_mono_r; lia.
Qed.

Lemma u32_high_bits c i : is_u32 c -> 32 <= i -> Z.testbit c i = false.
Proof.
  intros Hc Hi. apply (Z.testbit_false c i); [lia|].
  rewrite Z.div_small; [reflexivity|].
  unfold is_u32 in Hc.
  split; [lia|]. apply Z.lt_le_trans with (2 ^ 32); [lia|].
  apply Z.pow_le_mono_r; lia.
Qed.

(** The word read back from the four bytes of a coefficient. *)
Lemma pack_coeff_recombine c :
  is_u32 c ->
  u32 (Z.lor (Z.lor (Z.lor (Z.land c 255) (Z.shiftl (Z.land (Z.shiftr c 8) 255) 8))
                    (Z.shiftl (Z.land (Z.shiftr c 16) 255) 16))
             (Z.shiftl (Z.land (Z.shiftr c 24) 255) 24)) = c.
Proof.
  intros Hc. unfold u32.
  change 255 with (Z.ones 8).
  rewrite <- !Z.land_ones by lia.
  Z.bitblast; rewrite (u32_high_bits c) by (assumption || lia); reflexivity.
Qed.

(** The four bytes written for the word read from four bytes. *)
Lemma pack_coeff_of_bytes b0 b1 b2 b3 :
  is_byte b0 -> is_byte b1 -> is_byte b2 -> is_byte b3 ->
  pack_coeff (u32 (Z.lor (Z.lor (Z.lor b0 (Z.shiftl b1 8)) (Z.shiftl b2 16))
                         (Z.shiftl b3 24)))
  = [b0; b1; b2; b3].
Proof.
  intros H0 H1 H2 H3. unfold pack_coeff, u32.
  change 255 with (Z.ones 8).
  rewrite <- !Z.land_ones by lia.
  repeat f_equal;
    (Z.bitblast;
     repeat match goal with
            | |- context [Z.testbit ?b ?i] =>
                first [ rewrite (byte_high_bits b i) by (assumption || lia)
                      | rewrite (Z.testbit_neg_r b i) by lia ]
            end;
     rewrite ?andb_true_r, ?andb_false_r, ?orb_false_r, ?orb_false_l;
     try reflexivity; f_equal; lia).
Qed.

Lemma unpack_coeff_pack pre c post :
  is_u32 c ->
  unpack_coeff (pre ++ pack_coeff c ++ post) (length pre) = Some c.
Proof.
  intros Hc. unfold unpack_coeff.
  rewrite <- (Nat.add_0_r (length pre)) at 1.
  rewrite !nth_error_app_skip.
  unfold pack_coeff. cbn [app nth_error obind]. f_equal.
  now apply pack_coeff_recombine.
Qed.

Lemma unpack_row_pack poly : forall pre post,
  Forall is_u32 poly ->
  unpack_row (pre ++ flat_map pack_coeff poly ++ post) (length poly) (length pre)
  = Some (poly, (length pre + 4 * length poly)%nat).
Proof.
  induction poly as [|c poly IH]; intros pre post Hok.
  - cbn. apply f_equal, f_equal. lia.
  - apply Forall_cons_iff in Hok as [Hc Hrest].
    specialize (IH (pre ++ pack_coeff c) post Hrest).
    cbn [flat_map length unpack_row].
    rewrite <- app_assoc.
    rewrite unpack_coeff_pack by assumption. cbn [obind].
    rewrite <- !app_assoc in IH.
    rewrite length_app in IH. change (length (pack_coeff c)) with 4%nat in IH.
    rewrite IH. cbn [obind].
    apply f_equal, f_equal. lia.
Qed.

Lemma unpack_rows_pack n v : forall pre,
  Forall (fun p => length p = n /\ Forall is_u32 p) v ->
  unpack_rows (pre ++ flat_map (flat_map pack_coeff) v) (length v) n (length pre)
  = Some v.
Proof.
  induction v as [|p v IH]; intros pre Hv; [reflexivity|].
  apply Forall_cons_iff in Hv as [[Hlen Hok] Hrest].
  specialize (IH (pre ++ flat_map pack_coeff p) Hrest).
  cbn [flat_map length unpack_rows]. subst n.
  rewrite unpack_row_pack by assumption. cbn [obind].
  rewrite <- app_assoc in IH.
  rewrite length_app, length_pack_row in IH.
  rewrite IH. reflexivity.
Qed.

Lemma length_pack n v :
  Forall (fun p => length p = n) v ->
  length (flat_map (flat_map pack_coeff) v) = (length v * n * 4)%nat.
Proof.
  induction 1 as [|p v Hlen _ IH]; [reflexivity|].
  cbn [flat_map length]. rewrite length_app, length_pack_row, IH. lia.
Qed.

(** Unpacking what was packed returns the vector: [k] polynomials of
    [n] 32-bit coefficients each, as long as [k * n * 4] fits into 32
    bits. *)
Theorem pack_unpack_round_trip (v : list (list Z)) (k n : nat) :
  Z.of_nat k * Z.of_nat n * 4 < 2 ^ 32 ->
  length v = k ->
  Forall (fun p => length p = n /\ Forall is_u32 p) v ->
  unpack_polynomial_vector (pack_polynomial_vector v) k n = Some v.
Proof.
  intros Hsize Hk Hv. unfold unpack_polynomial_vector.
  rewrite pack_flat_map.
  rewrite (length_pack n v)
    by (eapply Forall_impl; [|exact Hv]; intros p [Hp _]; exact Hp).
  rewrite Hk. unfold u32. rewrite Z.mod_small by lia.
  replace (Z.of_nat (k * n * 4)) with (Z.of_nat k * Z.of_nat n * 4) by lia.
  rewrite Z.eqb_refl. cbn [negb]. subst k.
  exact (unpack_rows_pack n v [] Hv).
Qed.

Lemma pack_unpack_round_trip_witness :
  unpack_polynomial_vector
    (pack_polynomial_vector [[1; 4294967295]; [8380416; 0]]) 2 2
  = Some [[1; 4294967295]; [8380416; 0]].
Proof.
  apply pack_unpack_round_trip.
  - reflexivity.
  - reflexivity.
  - unfold is_u32.
    repeat first [apply Forall_nil | apply Forall_cons | split];
      try reflexivity; lia.
Defined.

Lemma unpack_row_bytes n : forall pre data,
  Forall is_byte data -> (4 * n <= length data)%nat ->
  exists row,
    unpack_row (pre ++ data) n (length pre)
    = Some (row, (length pre + 4 * n)%nat) /\
    length row = n /\
    flat_map pack_coeff row = firstn (4 * n) data.
Proof.
  induction n as [|n IH]; intros pre data Hb Hlen.
  - exists []. cbn. split; [apply f_equal, f_equal; lia|]. split; reflexivity.
  - destruct data as [|b0 [|b1 [|b2 [|b3 data]]]];
      try (cbn [length] in Hlen; lia).
    apply Forall_cons_iff in Hb as [H0 Hb].
    apply Forall_cons_iff in Hb as [H1 Hb].
    apply Forall_cons_iff in Hb as [H2 Hb].
    apply Forall_cons_iff in Hb as [H3 Hrest].
    destruct (IH (pre ++ [b0; b1; b2; b3]) data Hrest) as (row & Hrow & Hn & Hflat).
    { cbn [length] in Hlen. lia. }
    assert (Hread :
      unpack_coeff (pre ++ b0 :: b1 :: b2 :: b3 :: data) (length pre)
      = Some (u32 (Z.lor (Z.lor (Z.lor b0 (Z.shiftl b1 8)) (Z.shiftl b2 16))
                         (Z.shiftl b3 24)))).
    { unfold unpack_coeff.
      rewrite <- (Nat.add_0_r (length pre)) at 1.
      rewrite !nth_error_app_skip. reflexivity. }
    cbn [unpack_row]. rewrite Hread. cbn [obind].
    rewrite <- app_assoc, length_app in Hrow. cbn [length app] in Hrow.
    rewrite Hrow. cbn [obind].
    eexists. split; [apply f_equal, f_equal; lia|]. split.
    + cbn [length]. now rewrite Hn.
    + cbn [flat_map]. rewrite pack_coeff_of_bytes by assumption.
      rewrite Hflat.
      replace (4 * S n)%nat with (S (S (S (S (4 * n))))) by lia.
      reflexivity.
Qed.

Lemma unpack_rows_bytes n k : forall pre data,
  Forall is_byte data -> length data = (4 * (k * n))%nat ->
  exists v,
    unpack_rows (pre ++ data) k n (length pre) = Some v /\
    length v = k /\ Forall (fun row => length row = n) v /\
    flat_map (flat_map pack_coeff) v = data.
Proof.
  induction k as [|k IH]; intros pre data Hb Hlen.
  - destruct data; [|cbn [length] in Hlen; lia].
    exists []. repeat split. constructor.
  - destruct (unpack_row_bytes n pre data Hb ltac:(lia)) as (row & Hrow & Hn & Hflat).
    assert (Hsplit : data = firstn (4 * n) data ++ skipn (4 * n) data)
      by (symmetry; apply firstn_skipn).
    destruct (IH (pre ++ firstn (4 * n) data) (skipn (4 * n) data))
      as (rest & Hrest & Hk & Hall & Hflat').
    { rewrite Hsplit in Hb. apply Forall_app in Hb. tauto. }
    { rewrite length_skipn. lia. }
    rewrite <- app_assoc, <- Hsplit in Hrest.
    rewrite length_app, length_firstn, Nat.min_l in Hrest by lia.
    cbn [unpack_rows]. rewrite Hrow. cbn [obind]. rewrite Hrest. cbn [obind].
    exists (row :: rest). repeat split.
    + cbn [length]. now rewrite Hk.
    + constructor; assumption.
    + cbn [flat_map]. rewrite Hflat, Hflat'. symmetry. exact Hsplit.
Qed.

(** In the other direction, what [unpack_polynomial_vector] returns for
    a byte buffer packs into that buffer again; and with dimensions
    that fit into 32 bits it returns for every buffer of
    [k * n * 4] bytes and throws for every other one. *)
Theorem unpack_pack_round_trip (data : list Z) (k n : nat) :
  Z.of_nat k * Z.of_nat n * 4 < 2 ^ 32 ->
  Forall is_byte data ->
  match unpack_polynomial_vector data k n with
  | None => length data <> (k * n * 4)%nat
  | Some v =>
      length data = (k * n * 4)%nat /\ length v = k /\
      Forall (fun row => length row = n) v /\
      pack_polynomial_vector v = data
  end.
Proof.
  intros Hsize Hb. unfold unpack_polynomial_vector.
  unfold u32. rewrite Z.mod_small by lia.
  destruct (Z.of_nat (length data) =? Z.of_nat k * Z.of_nat n * 4) eqn:E;
    cbn [negb].
  - apply Z.eqb_eq in E.
    destruct (unpack_rows_bytes n k [] data Hb ltac:(lia))
      as (v & Hv & Hk & Hall & Hflat).
    cbn [app length] in Hv. rewrite Hv.
    rewrite pack_flat_map. repeat split; [lia | assumption | assumption | assumption].
  - apply Z.eqb_neq in E. lia.
Qed.

Lemma unpack_pack_round_trip_witness :
  match unpack_polynomial_vector [1; 0; 0; 0; 255; 255; 255; 255] 1 2 with
  | None => length [1; 0; 0; 0; 255; 255; 255; 255] <> (1 * 2 * 4)%nat
  | Some v =>
      length [1; 0; 0; 0; 255; 255; 255; 255] = (1 * 2 * 4)%nat /\
      length v = 1%nat /\
      Forall (fun row => length row = 2%nat) v /\
      pack_polynomial_vector v = [1; 0; 0; 0; 255; 255; 255; 255]
  end.
Proof.
  apply unpack_pack_round_trip.
  - reflexivity.
  - unfold is_byte. repeat first [apply Forall_nil | apply Forall_cons]; lia.
Defined.

End PackFacts.

Module XofFacts.
Import Utils SpongeFacts SamplerFacts ChallengeFacts.

(** *** What [squeeze] returns *)

Lemma length_squeeze_chunk state offset chunk :
  length (squeeze_chunk state offset chunk) = chunk.
Proof. unfold squeeze_chunk. now rewrite length_map, length_seq. Qed.

Lemma squeeze_bytes_length rate_bytes len : forall fuel state offset,
  (offset < rate_bytes)%nat -> (len <= fuel)%nat ->
  length (fst (squeeze_bytes fuel state rate_bytes len offset)) = len.
Proof.
  induction len as [len IH] using lt_wf_ind. intros fuel state offset Hoff Hfuel.
  destruct len as [|len]; [now rewrite squeeze_bytes_done|].
  destruct fuel as [|fuel]; [lia|].
  rewrite squeeze_bytes_pass by lia. cbv zeta. cbn [fst].
  set (chunk := Nat.min (S len) (rate_bytes - offset)).
  assert (Hchunk : (1 <= chunk <= S len)%nat) by (subst chunk; lia).
  rewrite length_app, length_squeeze_chunk.
  destruct (Nat.eqb_spec (offset + chunk) rate_bytes) as [Heq|Hne].
  - rewrite IH by lia. lia.
  - rewrite IH by (subst chunk; lia). lia.
Qed.

Lemma squeeze_length s len :
  well_formed s -> length (fst (squeeze s len)) = len.
Proof.
  unfold well_formed, squeeze. intros H.
  pose proof (squeeze_bytes_length (rate_bytes_ s) len len (state_ s) (offset_ s)
                H (Nat.le_refl _)) as Hlen.
  destruct (squeeze_bytes len (state_ s) (rate_bytes_ s) len (offset_ s))
    as [out [st off]]. exact Hlen.
Qed.

(** [squeeze] on a sampler whose offset is inside the block returns
    exactly [len] bytes, each in 0..255, and leaves the offset inside
    the block. *)
Theorem squeeze_returns_len_bytes (s : Sampler) (len : nat) :
  well_formed s ->
  length (fst (squeeze s len)) = len /\
  Forall (fun b => 0 <= b < 256) (fst (squeeze s len)) /\
  well_formed (snd (squeeze s len)) /\
  rate_bytes_ (snd (squeeze s len)) = rate_bytes_ s.
Proof.
  intros H. split; [now apply squeeze_length|].
  split; [apply squeeze_range|].
  split; [now apply squeeze_well_formed|apply squeeze_rate].
Qed.

Lemma squeeze_returns_len_bytes_witness :
  length (fst (squeeze (init SHAKE128Sampler [1; 2; 3]) 200)) = 200%nat /\
  Forall (fun b => 0 <= b < 256)
         (fst (squeeze (init SHAKE128Sampler [1; 2; 3]) 200)) /\
  well_formed (snd (squeeze (init SHAKE128Sampler [1; 2; 3]) 200)) /\
  rate_bytes_ (snd (squeeze (init SHAKE128Sampler [1; 2; 3]) 200))
  = rate_bytes_ (init SHAKE128Sampler [1; 2; 3]).
Proof.
  apply (squeeze_returns_len_bytes (init SHAKE128Sampler [1; 2; 3]) 200).
  exact (proj1 (init_well_formed [1; 2; 3])).
Defined.

Lemma shake256_stream (input : list Z) (output_len : nat) :
  shake256 input output_len
  = fst (squeeze (init SHAKE256Sampler input) output_len).
Proof.
  unfold shake256, squeeze, init, pad_and_absorb. cbv zeta.
  destruct input as [|x input].
  - cbn [reset SHAKE256Sampler state_ rate_bytes_ offset_ fst snd].
    now destruct (squeeze_bytes _ _ _ _ _) as [out [st off]].
  - unfold absorb.
    cbn [reset SHAKE256Sampler state_ rate_bytes_ offset_].
    destruct (absorb_bytes (length (x :: input)) (repeat 0 25) 136 (x :: input) 0)
      as [st0 off0].
    cbn [state_ rate_bytes_ offset_ fst snd].
    now destruct (squeeze_bytes _ _ _ _ _) as [out [st off]].
Qed.

(** The one-shot hash and the sampler are the same function: [shake256]
    returns the bytes a [SHAKE256Sampler] initialised with the input
    squeezes first. *)
Theorem shake256_is_the_sampler_stream (input : list Z) (output_len : nat) :
  shake256 input output_len
  = fst (squeeze (init SHAKE256Sampler input) output_len).
Proof. apply shake256_stream. Qed.

(** [shake256] is an extendable-output function: asking for more
    output leaves the bytes already returned as they are. *)
Theorem shake256_output_is_a_prefix (input : list Z) (n m : nat) :
  length (shake256 input n) = n /\
  shake256 input n = firstn n (shake256 input (n + m)).
Proof.
  rewrite !shake256_stream.
  assert (Hwf : well_formed (init SHAKE256Sampler input))
    by exact (proj2 (init_well_formed input)).
  pose proof (squeeze_length _ n Hwf) as Hlen.
  split; [exact Hlen|].
  rewrite (squeeze_app _ n m Hwf). cbn [fst].
  rewrite <- Hlen at 2. now rewrite firstn_app_exact.
Qed.

(** *** [absorb], byte by byte *)

(** The effect of [absorb_bytes] on one byte. *)
Definition absorb_byte (rate_bytes : nat) (st : list Z * nat) (byte : Z)
  : list Z * nat :=
  let state := absorb_chunk (fst st) (snd st) [byte] in
  if Nat.eqb (S (snd st)) rate_bytes then (keccak_f1600 state, O)
  else (state, S (snd st)).

Definition absorb_step (offset : nat) (st : list Z) (ib : nat * Z) : list Z :=
  let state_byte_index := (offset + fst ib)%nat in
  let word_index := (state_byte_index / 8)%nat in
  let byte_in_word := (state_byte_index mod 8)%nat in
  upd st word_index
      (Z.lxor (lane st word_index)
              (u64 (Z.shiftl (snd ib) (Z.of_nat byte_in_word * 8)))).

Lemma fold_left_same {A B : Type} (f g : A -> B -> A) (l : list B) :
  (forall a b, f a b = g a b) -> forall a, fold_left f l a = fold_left g l a.
Proof.
  intros Hfg. induction l as [|b l IH]; intros a; [reflexivity|].
  cbn [fold_left]. now rewrite Hfg, IH.
Qed.

Lemma absorb_chunk_steps state offset chunk :
  absorb_chunk state offset chunk
  = fold_left (absorb_step offset) (combine (seq 0 (length chunk)) chunk) state.
Proof.
  unfold absorb_chunk. apply fold_left_same. intros st [i byte]. reflexivity.
Qed.

Lemma absorb_steps_shift offset chunk : forall k state,
  fold_left (absorb_step offset) (combine (seq (S k) (length chunk)) chunk) state
  = fold_left (absorb_step (S offset)) (combine (seq k (length chunk)) chunk) state.
Proof.
  induction chunk as [|x chunk IH]; intros k state; [reflexivity|].
  cbn [length seq combine fold_left]. rewrite IH. f_equal.
  unfold absorb_step. cbn [fst snd].
  replace (offset + S k)%nat with (S offset + k)%nat by lia. reflexivity.
Qed.

Lemma absorb_chunk_cons state offset x chunk :
  absorb_chunk state offset (x :: chunk)
  = absorb_chunk (absorb_chunk state offset [x]) (S offset) chunk.
Proof.
  rewrite !absorb_chunk_steps. cbn [length seq combine fold_left].
  apply absorb_steps_shift.
Qed.

(** A chunk that fits into the block, byte by byte. *)
Lemma absorb_chunk_bytewise rate_bytes chunk : forall state offset,
  chunk <> [] -> (offset + length chunk <= rate_bytes)%nat ->
  fold_left (absorb_byte rate_bytes) chunk (state, offset)
  = if Nat.eqb (offset + length chunk) rate_bytes
    then (keccak_f1600 (absorb_chunk state offset chunk), O)
    else (absorb_chunk state offset chunk, (offset + length chunk)%nat).
Proof.
  induction chunk as [|x chunk IH]; intros state offset Hne Hfit; [congruence|].
  destruct chunk as [|y chunk].
  - cbn [fold_left length]. unfold absorb_byte. cbn [fst snd].
    replace (offset + 1)%nat with (S offset) by lia. reflexivity.
  - cbn [length] in Hfit.
    assert (Hstep : absorb_byte rate_bytes (state, offset) x
                    = (absorb_chunk state offset [x], S offset)).
    { unfold absorb_byte. cbn [fst snd].
      replace (Nat.eqb (S offset) rate_bytes) with false
        by (symmetry; apply Nat.eqb_neq; lia).
      reflexivity. }
    change (fold_left (absorb_byte rate_bytes) (x :: y :: chunk) (state, offset))
      with (fold_left (absorb_byte rate_bytes) (y :: chunk)
                      (absorb_byte rate_bytes (state, offset) x)).
    rewrite Hstep.
    rewrite IH; [|discriminate|cbn [length]; lia].
    rewrite <- absorb_chunk_cons.
    replace (S offset + length (y :: chunk))%nat
      with (offset + length (x :: y :: chunk))%nat by (cbn [length]; lia).
    reflexivity.
Qed.

Lemma absorb_byte_offset rate_bytes data : forall st,
  (snd st < rate_bytes)%nat ->
  (snd (fold_left (absorb_byte rate_bytes) data st) < rate_bytes)%nat.
Proof.
  induction data as [|x data IH]; intros st Hoff; [assumption|].
  cbn [fold_left]. apply IH. unfold absorb_byte.
  destruct (Nat.eqb_spec (S (snd st)) rate_bytes); cbn [snd]; lia.
Qed.

Lemma absorb_bytes_bytewise rate_bytes n : forall data fuel state offset,
  length data = n ->
  (offset < rate_bytes)%nat -> (length data <= fuel)%nat ->
  absorb_bytes fuel state rate_bytes data offset
  = fold_left (absorb_byte rate_bytes) data (state, offset).
Proof.
  induction n as [n IH] using lt_wf_ind.
  intros data fuel state offset Hn Hoff Hfuel.
  destruct data as [|x data]; [destruct fuel; reflexivity|].
  destruct fuel as [|fuel]; [cbn [length] in Hfuel; lia|].
  cbn [absorb_bytes]. cbv zeta.
  set (chunk := Nat.min (length (x :: data)) (rate_bytes - offset)).
  assert (Hchunk : (1 <= chunk <= length (x :: data))%nat)
    by (subst chunk; cbn [length]; lia).
  assert (Hfit : (offset + chunk <= rate_bytes)%nat) by (subst chunk; lia).
  transitivity (fold_left (absorb_byte rate_bytes)
                          (firstn chunk (x :: data) ++ skipn chunk (x :: data))
                          (state, offset));
    [|now rewrite firstn_skipn].
  rewrite fold_left_app.
  assert (Hlenf : length (firstn chunk (x :: data)) = chunk)
    by (rewrite length_firstn; lia).
  rewrite absorb_chunk_bytewise.
  2:{ intros E. rewrite E in Hlenf. cbn [length] in Hlenf. lia. }
  2:{ rewrite Hlenf. exact Hfit. }
  rewrite Hlenf.
  assert (Hlens : length (skipn chunk (x :: data)) = (length (x :: data) - chunk)%nat)
    by apply length_skipn.
  destruct (Nat.eqb_spec (offset + chunk) rate_bytes) as [Heq|Hneq].
  - apply (IH (length (x :: data) - chunk)%nat); lia.
  - apply (IH (length (x :: data) - chunk)%nat); lia.
Qed.

Lemma absorb_bytewise s data :
  well_formed s ->
  absorb s data
  = mkSampler (fst (fold_left (absorb_byte (rate_bytes_ s)) data
                              (state_ s, offset_ s)))
              (rate_bytes_ s)
              (snd (fold_left (absorb_byte (rate_bytes_ s)) data
                              (state_ s, offset_ s))).
Proof.
  unfold well_formed, absorb. intros H.
  rewrite (absorb_bytes_bytewise (rate_bytes_ s) (length data))
    by (try reflexivity; lia).
  now destruct (fold_left (absorb_byte (rate_bytes_ s)) data (state_ s, offset_ s)).
Qed.

(** Absorbing does not depend on how the input is cut into calls:
    absorbing [a] and then [b] is absorbing [a ++ b]; and the offset
    stays inside the block. *)
Theorem absorb_is_streaming (s : Sampler) (a b : list Z) :
  well_formed s ->
  absorb (absorb s a) b = absorb s (a ++ b) /\ well_formed (absorb s a).
Proof.
  intros H.
  assert (Hwf : well_formed (absorb s a)).
  { rewrite absorb_bytewise by assumption. unfold well_formed.
    cbn [offset_ rate_bytes_]. apply absorb_byte_offset. exact H. }
  split; [|exact Hwf].
  rewrite (absorb_bytewise (absorb s a)) by exact Hwf.
  rewrite !(absorb_bytewise s) by assumption.
  cbn [state_ rate_bytes_ offset_]. rewrite fold_left_app.
  now destruct (fold_left (absorb_byte (rate_bytes_ s)) a (state_ s, offset_ s)).
Qed.

Lemma absorb_is_streaming_witness :
  absorb (absorb SHAKE256Sampler (repeat 7 200)) [1; 2; 3]
  = absorb SHAKE256Sampler (repeat 7 200 ++ [1; 2; 3]) /\
  well_formed (absorb SHAKE256Sampler (repeat 7 200)).
Proof.
  apply absorb_is_streaming.
  unfold well_formed. cbn [offset_ rate_bytes_ SHAKE256Sampler reset]. lia.
Defined.

(** *** [sample_polynomial_uniform] *)

Lemma sample_uniform_loop_well_formed fuel : forall s bits modulus r s',
  well_formed s ->
  sample_uniform_loop fuel s bits modulus = Some (r, s') ->
  well_formed s' /\ rate_bytes_ s' = rate_bytes_ s.
Proof.
  induction fuel as [|fuel IH]; intros s bits modulus r s' Hwf H; [discriminate|].
  cbn [sample_uniform_loop] in H.
  pose proof (squeeze_well_formed s 4 Hwf) as Hwf1.
  pose proof (squeeze_rate s 4) as Hrate1.
  destruct (squeeze s 4) as [bytes s1]. cbn [snd] in Hwf1, Hrate1.
  destruct (uniform_candidate bytes bits <? modulus).
  - inversion H; subst. split; assumption.
  - destruct (IH _ _ _ _ _ Hwf1 H) as [Hw Hr]. split; [assumption|congruence].
Qed.

(** When [sample_polynomial_uniform] returns, it has filled [degree]
    coefficients, each in the range [0, modulus), and the sampler is
    ready for the next request. *)
Theorem sample_polynomial_uniform_in_range
  (fuel : nat) (s : Sampler) (degree : nat) (modulus : Z)
  (coeffs : list Z) (s' : Sampler) :
  well_formed s ->
  sample_polynomial_uniform fuel s degree modulus = Some (coeffs, s') ->
  length coeffs = degree /\
  Forall (fun c => 0 <= c < modulus) coeffs /\
  well_formed s' /\ rate_bytes_ s' = rate_bytes_ s.
Proof.
  revert s coeffs s'.
  induction degree as [|degree IH]; intros s coeffs s' Hwf H;
    cbn [sample_polynomial_uniform] in H.
  - inversion H; subst. repeat split; [constructor|assumption].
  - destruct (sample_uniform fuel s modulus) as [[c s1]|] eqn:Ec; [|discriminate].
    cbn [obind] in H.
    destruct (sample_polynomial_uniform fuel s1 degree modulus)
      as [[rest s2]|] eqn:Er; [|discriminate].
    cbn [obind] in H. inversion H; subst.
    pose proof (sample_uniform_range _ _ _ _ _ Ec) as Hc.
    destruct (sample_uniform_loop_well_formed _ _ _ _ _ _ Hwf Ec) as [Hwf1 Hr1].
    destruct (IH _ _ _ Hwf1 Er) as (Hlen & Hall & Hwf2 & Hr2).
    repeat split.
    + cbn [length]. now rewrite Hlen.
    + constructor; assumption.
    + assumption.
    + congruence.
Qed.

(** Four coefficients drawn from the stream of the seed 0, 1. *)
Definition matrix_row_sample : list Z * Sampler :=
  Eval vm_compute in
    match sample_polynomial_uniform 8 (init SHAKE128Sampler [0; 1]) 4 8380417 with
    | Some r => r
    | None => ([], SHAKE128Sampler)
    end.

Lemma sample_polynomial_uniform_in_range_witness :
  length (fst matrix_row_sample) = 4%nat /\
  Forall (fun c => 0 <= c < 8380417) (fst matrix_row_sample) /\
  well_formed (snd matrix_row_sample) /\
  rate_bytes_ (snd matrix_row_sample) = rate_bytes_ (init SHAKE128Sampler [0; 1]).
Proof.
  apply (sample_polynomial_uniform_in_range 8 (init SHAKE128Sampler [0; 1]) 4
           8380417 (fst matrix_row_sample) (snd matrix_row_sample)).
  - exact (proj1 (init_well_formed [0; 1])).
  - vm_compute. reflexivity.
Defined.

End XofFacts.

Module NttMoreFacts.
Import Utils NttEngine NttFacts CbdFacts ArithFacts.

(** *** The constructor *)

(** [ScalarNTTEngine(q, n)] throws unless q = 8380417 and n = 256; for
    these it builds an engine whose [n_inv_] is the inverse of 256
    modulo q. *)
Theorem scalar_engine_only_for_ml_dsa (q : Z) (n : nat) :
  match ScalarNTTEngine q n with
  | Some E =>
      q = 8380417 /\ n = 256%nat /\ q_ E = q /\ n_ E = n /\
      length (zetas_ E) = n /\ length (zetas_inv_ E) = n /\
      length (bitrev_ E) = n /\ (256 * n_inv_ E) mod q = 1
  | None => q <> 8380417 \/ n <> 256%nat
  end.
Proof.
  destruct (Z.eq_dec q 8380417) as [->|Hq].
  - destruct (Nat.eq_dec n 256) as [->|Hn].
    + vm_compute. repeat split.
    + unfold ScalarNTTEngine.
      destruct (negb (is_power_of_two (Z.of_nat n))); [now right|].
      cbn [Z.eqb Pos.eqb negb].
      replace (Nat.eqb n 256) with false by (symmetry; now apply Nat.eqb_neq).
      cbn [negb]. now right.
  - unfold ScalarNTTEngine.
    destruct (negb (is_power_of_two (Z.of_nat n))); [now left|].
    replace (q =? 8380417) with false by (symmetry; now apply Z.eqb_neq).
    cbn [negb]. now left.
Qed.

(** *** [barrett_reduce] *)

(** [barrett_reduce] subtracts q at most twice: a value below 3q is
    reduced modulo q, a value from 3q on comes back 2q smaller and is
    still not below q. *)
Theorem barrett_reduce_subtracts_at_most_twice (E : Engine) (val : Z) :
  q_ E = 8380417 -> 0 <= val < 2 ^ 32 ->
  (val < 3 * 8380417 -> barrett_reduce E val = val mod 8380417) /\
  (3 * 8380417 <= val ->
   barrett_reduce E val = val - 2 * 8380417 /\
   8380417 <= barrett_reduce E val).
Proof.
  intros Hq Hval. unfold barrett_reduce. cbv zeta. rewrite Hq.
  change (u64 8380417) with 8380417.
  assert (Hsub : forall x, 8380417 <= x < 2 ^ 32 -> u32 (x - 8380417) = x - 8380417)
    by (intros x Hx; unfold u32; apply Z.mod_small; lia).
  destruct (8380417 <=? val) eqn:E1.
  - apply Z.leb_le in E1. rewrite Hsub by lia.
    destruct (8380417 <=? val - 8380417) eqn:E2.
    + apply Z.leb_le in E2. rewrite Hsub by lia. split.
      * intros Hlt. apply Z.mod_unique with 2; lia.
      * intros Hge. lia.
    + apply Z.leb_gt in E2. split; [|lia].
      intros _. apply Z.mod_unique with 1; lia.
  - apply Z.leb_gt in E1. split; [|lia].
    intros _. symmetry. apply Z.mod_small. lia.
Qed.

Lemma barrett_reduce_subtracts_at_most_twice_witness :
  match ScalarNTTEngine 8380417 256 with
  | Some E =>
      (4294967295 < 3 * 8380417 ->
       barrett_reduce E 4294967295 = 4294967295 mod 8380417) /\
      (3 * 8380417 <= 4294967295 ->
       barrett_reduce E 4294967295 = 4294967295 - 2 * 8380417 /\
       8380417 <= barrett_reduce E 4294967295)
  | None => False
  end.
Proof.
  destruct (ScalarNTTEngine 8380417 256) as [E|] eqn:HE.
  - apply (barrett_reduce_subtracts_at_most_twice E 4294967295); [|lia].
    vm_compute in HE. injection HE as <-. reflexivity.
  - vm_compute in HE. discriminate HE.
Defined.

(** *** [multiply] *)



(** *** [bit_reverse] *)

(** What the proof needs of the table [precompute_bitrev] builds: it
    stays inside the array and is its own inverse. *)
Definition involution (n : nat) (rev : list nat) : Prop :=
  length rev = n /\
  forall i, (i < n)%nat ->
    (nth i rev O < n)%nat /\ nth (nth i rev O) rev O = i.

Definition involutionb (n : nat) (rev : list nat) : bool :=
  Nat.eqb (length rev) n &&
  forallb (fun i => (nth i rev O <? n)%nat && Nat.eqb (nth (nth i rev O) rev O) i)
          (seq 0 n).

Lemma involutionb_sound n rev : involutionb n rev = true -> involution n rev.
Proof.
  unfold involutionb, involution. rewrite andb_true_iff, forallb_forall.
  intros [Hlen Hall]. apply Nat.eqb_eq in Hlen. split; [assumption|].
  intros i Hi. specialize (Hall i ltac:(apply in_seq; lia)).
  apply andb_true_iff in Hall as [H1 H2].
  apply Nat.ltb_lt in H1. apply Nat.eqb_eq in H2. auto.
Qed.

Lemma scalar_engine_bitrev E :
  ScalarNTTEngine 8380417 256 = Some E ->
  n_ E = 256%nat /\ involution 256 (bitrev_ E).
Proof.
  intros HE. vm_compute in HE. injection HE as <-.
  split; [reflexivity|]. apply involutionb_sound. vm_compute. reflexivity.
Qed.

Section SwapLoop.
Variable n : nat.
Variable rev : list nat.
Hypothesis rev_involution : involution n rev.
Variable poly : list Z.
Hypothesis poly_length : length poly = n.

Definition swap_step (cur : list Z) (i : nat) : list Z :=
  if (i <? nth i rev O)%nat then swap 0 cur i (nth i rev O) else cur.

(** After the first [k] passes: the positions with a partner below [k]
    hold the partner's value, the others are untouched. *)
Definition swapped_below (k : nat) (cur : list Z) : Prop :=
  length cur = n /\
  forall j, (j < n)%nat ->
    nth j cur 0
    = if (Nat.min j (nth j rev O) <? k)%nat then nth (nth j rev O) poly 0
      else nth j poly 0.

Lemma swap_loop_invariant k :
  (k <= n)%nat -> swapped_below k (fold_left swap_step (seq 0 k) poly).
Proof.
  destruct rev_involution as [Hlen Hrev].
  induction k as [|k IH]; intros Hk.
  - split; [exact poly_length|]. intros j Hj. reflexivity.
  - rewrite seq_S, fold_left_app. cbn [fold_left Nat.add].
    destruct (IH ltac:(lia)) as [Hlc Hcur].
    set (cur := fold_left swap_step (seq 0 k) poly) in *.
    destruct (Hrev k ltac:(lia)) as [Hrk Hrrk].
    unfold swap_step.
    destruct (k <? nth k rev O)%nat eqn:Elt.
    + apply Nat.ltb_lt in Elt. split; [now rewrite length_swap|].
      intros j Hj. destruct (Hrev j Hj) as [Hrj Hrrj].
      destruct (Nat.eq_dec j k) as [->|Hjk].
      * unfold swap. rewrite nth_upd_other by lia.
        rewrite nth_upd_same by lia.
        rewrite (Hcur (nth k rev O) Hrk), Hrrk.
        replace (Nat.min (nth k rev O) k <? k)%nat with false
          by (symmetry; apply Nat.ltb_ge; lia).
        replace (Nat.min k (nth k rev O) <? S k)%nat with true
          by (symmetry; apply Nat.ltb_lt; lia).
        reflexivity.
      * destruct (Nat.eq_dec j (nth k rev O)) as [->|Hjr].
        -- unfold swap. rewrite nth_upd_same by (rewrite length_upd; lia).
           rewrite (Hcur k ltac:(lia)), Hrrk.
           replace (Nat.min k (nth k rev O) <? k)%nat with false
             by (symmetry; apply Nat.ltb_ge; lia).
           replace (Nat.min (nth k rev O) k <? S k)%nat with true
             by (symmetry; apply Nat.ltb_lt; lia).
           reflexivity.
        -- rewrite nth_swap_other by assumption.
           rewrite (Hcur j Hj).
           assert (Hrjk : nth j rev O <> k).
           { intros E. apply Hjr. rewrite <- E, Hrrj. reflexivity. }
           destruct (Nat.min j (nth j rev O) <? k)%nat eqn:E1.
           ++ apply Nat.ltb_lt in E1.
              replace (Nat.min j (nth j rev O) <? S k)%nat with true
                by (symmetry; apply Nat.ltb_lt; lia).
              reflexivity.
           ++ apply Nat.ltb_ge in E1.
              replace (Nat.min j (nth j rev O) <? S k)%nat with false
                by (symmetry; apply Nat.ltb_ge; lia).
              reflexivity.
    + apply Nat.ltb_ge in Elt. split; [exact Hlc|].
      intros j Hj. destruct (Hrev j Hj) as [Hrj Hrrj].
      rewrite (Hcur j Hj).
      destruct (Nat.min j (nth j rev O) <? k)%nat eqn:E1.
      * apply Nat.ltb_lt in E1.
        replace (Nat.min j (nth j rev O) <? S k)%nat with true
          by (symmetry; apply Nat.ltb_lt; lia).
        reflexivity.
      * apply Nat.ltb_ge in E1.
        destruct (Nat.min j (nth j rev O) <? S k)%nat eqn:E2; [|reflexivity].
        apply Nat.ltb_lt in E2.
        (* the minimum is [k]: either [j = k = rev k], or [rev j = k <= j],
           and then [j = rev k <= k] *)
        destruct (Nat.eq_dec j k) as [->|Hjk].
        -- replace (nth k rev O) with k by lia. reflexivity.
        -- assert (Hrjk : nth j rev O = k) by lia.
           assert (Hjr : j = nth k rev O) by (rewrite <- Hrjk, Hrrj; reflexivity).
           lia.
Qed.

Lemma swap_loop_permutes :
  length (fold_left swap_step (seq 0 n) poly) = n /\
  forall j, (j < n)%nat ->
    nth j (fold_left swap_step (seq 0 n) poly) 0 = nth (nth j rev O) poly 0.
Proof.
  destruct rev_involution as [Hlen Hrev].
  destruct (swap_loop_invariant n (Nat.le_refl _)) as [Hl Hcur].
  split; [exact Hl|]. intros j Hj. rewrite (Hcur j Hj).
  destruct (Hrev j Hj) as [Hrj _].
  replace (Nat.min j (nth j rev O) <? n)%nat with true
    by (symmetry; apply Nat.ltb_lt; lia).
  reflexivity.
Qed.

End SwapLoop.

Lemma bit_reverse_permutes E poly :
  ScalarNTTEngine 8380417 256 = Some E -> length poly = 256%nat ->
  length (bit_reverse E poly) = 256%nat /\
  forall j, (j < 256)%nat ->
    nth j (bit_reverse E poly) 0 = nth (nth j (bitrev_ E) O) poly 0.
Proof.
  intros HE Hlen. destruct (scalar_engine_bitrev E HE) as [Hn Hinv].
  unfold bit_reverse. rewrite Hn.
  exact (swap_loop_permutes 256 (bitrev_ E) Hinv poly Hlen).
Qed.

(** [bit_reverse] moves the coefficient at index [j] to the index with
    the bits of [j] reversed, and applying it twice gives the
    polynomial back. *)
Theorem bit_reverse_is_an_involution (E : Engine) (poly : list Z) :
  ScalarNTTEngine 8380417 256 = Some E -> length poly = 256%nat ->
  (forall j, (j < 256)%nat ->
     nth j (bit_reverse E poly) 0 = nth (bitrev_entry 8 j) poly 0) /\
  bit_reverse E (bit_reverse E poly) = poly.
Proof.
  intros HE Hlen.
  destruct (bit_reverse_permutes E poly HE Hlen) as [Hl1 Hn1].
  destruct (bit_reverse_permutes E (bit_reverse E poly) HE Hl1) as [Hl2 Hn2].
  destruct (scalar_engine_bitrev E HE) as [_ [_ Hrev]].
  assert (Htable : bitrev_ E = precompute_bitrev 256 8)
    by (vm_compute in HE; injection HE as <-; reflexivity).
  split.
  - intros j Hj. rewrite (Hn1 j Hj), Htable.
    unfold precompute_bitrev.
    rewrite (nth_indep _ O (bitrev_entry 8 O))
      by (rewrite length_map, length_seq; exact Hj).
    rewrite (map_nth (bitrev_entry 8) (seq 0 256) O j).
    rewrite seq_nth by exact Hj. reflexivity.
  - apply (nth_ext _ _ 0 0); [congruence|].
    intros j Hj. rewrite Hl2 in Hj.
    destruct (Hrev j Hj) as [Hrj Hrrj].
    rewrite (Hn2 j Hj), (Hn1 _ Hrj), Hrrj. reflexivity.
Qed.

Lemma bit_reverse_is_an_involution_witness :
  match ScalarNTTEngine 8380417 256 with
  | Some E =>
      (forall j, (j < 256)%nat ->
         nth j (bit_reverse E (map Z.of_nat (seq 0 256))) 0
         = nth (bitrev_entry 8 j) (map Z.of_nat (seq 0 256)) 0) /\
      bit_reverse E (bit_reverse E (map Z.of_nat (seq 0 256)))
      = map Z.of_nat (seq 0 256)
  | None => False
  end.
Proof.
  destruct (ScalarNTTEngine 8380417 256) as [E|] eqn:HE.
  - apply (bit_reverse_is_an_involution E _ HE). reflexivity.
  - vm_compute in HE. discriminate HE.
Defined.

(** *** [montgomery_reduce] *)

Lemma land_i64_low x : Z.land (i64 x) 0xFFFFFFFF = x mod 2 ^ 32.
Proof.
  change 0xFFFFFFFF with (Z.ones 32). rewrite Z.land_ones by lia.
  unfold i64, signed.
  assert (Hmm : (x mod 2 ^ 64) mod 2 ^ 32 = x mod 2 ^ 32).
  { change (2 ^ 64) with (2 ^ 32 * 2 ^ 32).
    rewrite Z.rem_mul_r by lia.
    rewrite Z.mul_comm, Z.mod_add by lia. apply Z.mod_mod. lia. }
  destruct (x mod 2 ^ 64 <? 2 ^ (64 - 1)); [exact Hmm|].
  replace (x mod 2 ^ 64 - 2 ^ 64)
    with (x mod 2 ^ 64 + (- 2 ^ 32) * 2 ^ 32) by lia.
  rewrite Z.mod_add by lia. exact Hmm.
Qed.

(** For q = 8380417 the constant 587289889 is not the inverse of q
    modulo 2^32 (q * 587289889 - 1 is 32 times an odd number), so the
    difference [val - t * q] that [montgomery_reduce] shifts right by
    32 bits is a multiple of 2^32 only for the values that are
    themselves multiples of 2^27: for every other value the shift
    drops bits that are not zero. *)
Theorem montgomery_reduce_is_exact_iff (E : Engine) (val : Z) :
  q_ E = 8380417 -> - 2 ^ 62 <= val < 2 ^ 62 ->
  (montgomery_reduce E val * 2 ^ 32
   = val - (val * 587289889) mod 2 ^ 32 * 8380417
   <-> (2 ^ 27 | val)).
Proof.
  intros Hq Hval. unfold montgomery_reduce. cbv zeta.
  rewrite Hq, land_i64_low.
  set (t := (val * 587289889) mod 2 ^ 32).
  assert (Ht : 0 <= t < 2 ^ 32) by (subst t; apply Z.mod_pos_bound; lia).
  rewrite i64_small by lia.
  rewrite Z.shiftr_div_pow2 by lia.
  assert (Hdiv : - 2 ^ 31 <= (val - t * 8380417) / 2 ^ 32 < 2 ^ 31).
  { split.
    - apply Z.div_le_lower_bound; lia.
    - apply Z.div_lt_upper_bound; lia. }
  rewrite i32_small by exact Hdiv.
  pose proof (Z.div_mod (val - t * 8380417) (2 ^ 32) ltac:(lia)) as Hdm.
  pose proof (Z.mod_pos_bound (val - t * 8380417) (2 ^ 32) ltac:(lia)) as Hr.
  assert (Hlow : (val - t * 8380417) mod 2 ^ 32
                 = (val * (- 4921734169703712)) mod 2 ^ 32).
  { subst t.
    rewrite <- Zminus_mod_idemp_r.
    rewrite Z.mul_mod_idemp_l by lia.
    rewrite Zminus_mod_idemp_r. f_equal. ring. }
  assert (Hex : (val - t * 8380417) mod 2 ^ 32 = 0 <-> (2 ^ 27 | val)).
  { rewrite Hlow. rewrite Z.mod_divide by lia. split.
    - intros [c Hc].
      apply (Z.gauss _ 153804192803241).
      + exists (- c). 
        change (2 ^ 32) with (32 * 2 ^ 27) in Hc. lia.
      + reflexivity.
    - intros [c Hc]. exists (- c * 153804192803241).
      change (2 ^ 32) with (32 * 2 ^ 27). lia. }
  rewrite <- Hex. split; intros H; lia.
Qed.

Lemma montgomery_reduce_is_exact_iff_witness :
  match ScalarNTTEngine 8380417 256 with
  | Some E =>
      montgomery_reduce E 25847 * 2 ^ 32
      = 25847 - (25847 * 587289889) mod 2 ^ 32 * 8380417
      <-> (2 ^ 27 | 25847)
  | None => False
  end.
Proof.
  destruct (ScalarNTTEngine 8380417 256) as [E|] eqn:HE.
  - apply (montgomery_reduce_is_exact_iff E 25847); [|lia].
    vm_compute in HE. injection HE as <-. reflexivity.
  - vm_compute in HE. discriminate HE.
Defined.

(** *** The round trip *)



End NttMoreFacts.

Module ClweFacts.
Import Clwe.

(** *** [is_prime] *)

Section TrialDivision.
Variable n : Z.
Hypothesis n_range : 3 < n < 65530 * 65530.

(** No divisor of [n] between 2 and [i]. *)
Definition no_divisor_below (i : Z) : Prop :=
  forall d, 2 <= d < i -> ~ (d | n).

Lemma no_divisor_extends i :
  5 <= i -> i mod 6 = 5 -> no_divisor_below i ->
  ~ (i | n) -> ~ (i + 2 | n) -> no_divisor_below (i + 6).
Proof.
  intros Hi Hmod Hinv Hni Hni2 d Hd Hdiv.
  pose proof (Z.div_mod i 6 ltac:(lia)) as Hi6. rewrite Hmod in Hi6.
  assert (H2 : ~ (2 | n)) by (apply Hinv; lia).
  assert (H3 : ~ (3 | n)) by (apply Hinv; lia).
  assert (Hcases : d < i \/ d = i \/ d = i + 1 \/ d = i + 2 \/ d = i + 3 \/
                   d = i + 4 \/ d = i + 5) by lia.
  destruct Hcases as [Hlt | [ -> | [ -> | [ -> | [ -> | [ -> | -> ]]]]]].
  - apply (Hinv d); [lia|assumption].
  - contradiction.
  - apply H2. apply Z.divide_trans with (i + 1); [|assumption].
    exists (3 * (i / 6) + 3). lia.
  - contradiction.
  - apply H2. apply Z.divide_trans with (i + 3); [|assumption].
    exists (3 * (i / 6) + 4). lia.
  - apply H3. apply Z.divide_trans with (i + 4); [|assumption].
    exists (2 * (i / 6) + 3). lia.
  - apply H2. apply Z.divide_trans with (i + 5); [|assumption].
    exists (3 * (i / 6) + 5). lia.
Qed.

Lemma no_divisor_prime i :
  no_divisor_below i -> n < i * i -> 0 < i -> Z.prime n.
Proof.
  intros Hinv Hsq Hi. split; [lia|].
  intros d Hd [e He].
  assert (He1 : 1 < e) by nia.
  destruct (Z_lt_ge_dec d i) as [Hlt|Hge].
  - apply (Hinv d); [lia|]. exists e. exact He.
  - assert (Helt : e < i) by nia.
    apply (Hinv e); [lia|]. exists d. lia.
Qed.

Lemma is_prime_loop_spec fuel : forall i,
  5 <= i -> i mod 6 = 5 -> no_divisor_below i ->
  (i = 5 \/ (i - 6) * (i - 6) <= n) ->
  Z.sqrt n + 6 < i + 6 * Z.of_nat fuel ->
  exists b, is_prime_loop fuel n i = Some b /\ (b = true <-> Z.prime n).
Proof.
  induction fuel as [|fuel IH]; intros i Hi Hmod Hinv Hprev Hfuel.
  - exfalso. pose proof (Z.sqrt_spec n ltac:(lia)) as Hs. cbv zeta in Hs.
    pose proof (Z.sqrt_nonneg n).
    destruct Hprev as [->|Hprev]; [lia|]. nia.
  - cbn [is_prime_loop].
    assert (Hsmall : i < 65536) by (destruct Hprev as [->|Hprev]; nia).
    assert (Hii : u32 (i * i) = i * i) by (unfold u32; apply Z.mod_small; nia).
    assert (Hi2 : u32 (i + 2) = i + 2) by (unfold u32; apply Z.mod_small; lia).
    assert (Hi6 : u32 (i + 6) = i + 6) by (unfold u32; apply Z.mod_small; lia).
    rewrite Hii, Hi2, Hi6.
    destruct (i * i <=? n) eqn:Esq.
    + apply Z.leb_le in Esq.
      destruct ((n mod i =? 0) || (n mod (i + 2) =? 0)) eqn:Ediv.
      * exists false. split; [reflexivity|].
        split; [discriminate|]. intros [_ Hprime]. exfalso.
        apply orb_true_iff in Ediv as [E|E]; apply Z.eqb_eq in E.
        -- apply (Hprime i); [nia|]. apply Z.mod_divide; [lia|assumption].
        -- apply (Hprime (i + 2)); [nia|]. apply Z.mod_divide; [lia|assumption].
      * apply orb_false_iff in Ediv as [E1 E2].
        apply Z.eqb_neq in E1, E2.
        apply IH.
        -- lia.
        -- replace (i + 6) with (i + 1 * 6) by lia.
           now rewrite Z.mod_add by lia.
        -- apply no_divisor_extends; try assumption.
           ++ intros Hd. apply E1. apply Z.mod_divide; [lia|assumption].
           ++ intros Hd. apply E2. apply Z.mod_divide; [lia|assumption].
        -- right. replace (i + 6 - 6) with i by lia. exact Esq.
        -- lia.
    + apply Z.leb_gt in Esq. exists true. split; [reflexivity|].
      split; [intros _|reflexivity].
      apply (no_divisor_prime i); [assumption|lia|lia].
Qed.

End TrialDivision.

Lemma is_prime_spec (n : Z) :
  0 <= n < 65530 * 65530 ->
  exists b, is_prime n = Some b /\ (b = true <-> Z.prime n).
Proof.
  intros Hn. unfold is_prime.
  destruct (n <=? 1) eqn:E1.
  - apply Z.leb_le in E1. exists false. split; [reflexivity|].
    split; [discriminate|]. intros [H _]. lia.
  - apply Z.leb_gt in E1.
    destruct (n <=? 3) eqn:E3.
    + apply Z.leb_le in E3. exists true. split; [reflexivity|].
      split; [intros _|reflexivity].
      split; [lia|]. intros d Hd [e He].
      assert (Hn23 : n = 2 \/ n = 3) by lia.
      destruct Hn23 as [ -> | -> ]; [lia|].
      assert (d = 2) by lia. subst d. lia.
    + apply Z.leb_gt in E3.
      destruct ((n mod 2 =? 0) || (n mod 3 =? 0)) eqn:Ediv.
      * exists false. split; [reflexivity|].
        split; [discriminate|]. intros [_ Hprime]. exfalso.
        apply orb_true_iff in Ediv as [E|E]; apply Z.eqb_eq in E.
        -- apply (Hprime 2); [lia|]. apply Z.mod_divide; [lia|assumption].
        -- apply (Hprime 3); [lia|]. apply Z.mod_divide; [lia|assumption].
      * apply orb_false_iff in Ediv as [E2' E3'].
        apply Z.eqb_neq in E2', E3'.
        apply (is_prime_loop_spec n); [lia|lia|reflexivity| |now left|].
        -- intros d Hd Hdiv.
           assert (Hcases : d = 2 \/ d = 3 \/ d = 4) by lia.
           destruct Hcases as [ -> | [ -> | -> ]].
           ++ apply E2'. apply Z.mod_divide; [lia|assumption].
           ++ apply E3'. apply Z.mod_divide; [lia|assumption].
           ++ apply E2'. apply Z.mod_divide; [lia|].
              apply Z.divide_trans with 4; [exists 2; reflexivity|assumption].
        -- rewrite Z2Nat.id by lia.
           pose proof (Z.sqrt_spec n ltac:(lia)) as Hs. cbv zeta in Hs.
           pose proof (Z.sqrt_nonneg n). nia.
Qed.

(** [is_prime] decides primality for every argument below 65530^2:
    it returns, and it returns [true] exactly for the primes.  (From
    there on [i * i] can wrap around in 32 bits before it exceeds
    [n].) *)
Theorem is_prime_decides_primality (n : Z) :
  0 <= n < 65530 * 65530 ->
  exists b, is_prime n = Some b /\ (b = true <-> Z.prime n).
Proof. apply is_prime_spec. Qed.

Lemma is_prime_decides_primality_witness :
  exists b, is_prime 3329 = Some b /\ (b = true <-> Z.prime 3329).
Proof. apply is_prime_decides_primality. lia. Defined.

(** *** The constructors *)

(** [CLWEParameters(sec_level)] succeeds for the three ML-KEM levels
    only, with modulus 3329, degree 256 and rank 2, 3 and 4; for any
    other level the defaults are kept and [validate] throws. *)
Theorem make_parameters_levels (sec_level : Z) :
  match make_parameters sec_level with
  | Some p =>
      p = mkCLWEParameters 512 256 2 3329 3 2 /\ sec_level = 512 \/
      p = mkCLWEParameters 768 256 3 3329 2 2 /\ sec_level = 768 \/
      p = mkCLWEParameters 1024 256 4 3329 2 2 /\ sec_level = 1024
  | None => sec_level <> 512 /\ sec_level <> 768 /\ sec_level <> 1024
  end.
Proof.
  unfold make_parameters.
  destruct (sec_level =? 512) eqn:E1.
  { apply Z.eqb_eq in E1. subst. vm_compute. left. split; reflexivity. }
  destruct (sec_level =? 768) eqn:E2.
  { apply Z.eqb_eq in E2. subst. vm_compute. right. left. split; reflexivity. }
  destruct (sec_level =? 1024) eqn:E3.
  { apply Z.eqb_eq in E3. subst. vm_compute. right. right. split; reflexivity. }
  cbv zeta. unfold validate. cbn [security_level].
  rewrite E1, E2, E3. cbn [negb andb obind].
  apply Z.eqb_neq in E1, E2, E3. auto.
Qed.

Definition is_u32 (x : Z) : Prop := 0 <= x < 2 ^ 32.

Lemma land_pred_zero_iff x :
  0 < x < 2 ^ 32 ->
  (Z.land x (u32 (x - 1)) = 0 <-> exists k, 0 <= k < 32 /\ x = 2 ^ k).
Proof.
  intros Hx.
  assert (Hu : u32 (x - 1) = x - 1) by (unfold u32; apply Z.mod_small; lia).
  rewrite Hu. split.
  - intros Hland. exists (Z.log2 x). split.
    + split; [apply Z.log2_nonneg|]. apply Z.log2_lt_pow2; lia.
    + apply ArithFacts.power_of_two_bits; [lia|assumption].
  - intros (k & Hk & ->).
    change (2 ^ k - 1) with (Z.pred (2 ^ k)).
    rewrite <- Z.ones_equiv, Z.land_ones by lia.
    apply Z.mod_same.
    assert (0 < 2 ^ k) by (apply Z.pow_pos_nonneg; lia). lia.
Qed.

Definition fields_u32 (p : CLWEParameters) : Prop :=
  is_u32 (security_level p) /\ is_u32 (degree p) /\ is_u32 (module_rank p) /\
  is_u32 (modulus p) /\ is_u32 (eta1 p) /\ is_u32 (eta2 p).

Definition acceptable (p : CLWEParameters) : Prop :=
  (security_level p = 512 \/ security_level p = 768 \/ security_level p = 1024) /\
  (exists k, 0 <= k <= 13 /\ degree p = 2 ^ k) /\
  1 <= module_rank p <= 16 /\
  Z.prime (modulus p) /\ 256 <= modulus p <= 65536 /\
  1 <= eta1 p <= 16 /\ 1 <= eta2 p <= 16.

Lemma validate_sound p :
  fields_u32 p -> validate p = Some tt -> acceptable p.
Proof.
  intros (Hsl & Hdeg & Hrank & Hmod & He1 & He2). unfold is_u32 in *.
  unfold validate, acceptable.
  destruct (negb (security_level p =? 512) && negb (security_level p =? 768)
            && negb (security_level p =? 1024)) eqn:Elevel; [discriminate|].
  destruct ((degree p =? 0)
            || negb (Z.land (degree p) (u32 (degree p - 1)) =? 0)
            || (8192 <? degree p)) eqn:Edeg; [discriminate|].
  destruct ((module_rank p =? 0) || (16 <? module_rank p)) eqn:Erank;
    [discriminate|].
  destruct (is_prime (modulus p)) as [b|] eqn:Eprime; [|discriminate].
  cbn [obind].
  destruct (negb b || (modulus p <? 256) || (65536 <? modulus p)) eqn:Emod;
    [discriminate|].
  destruct ((eta1 p =? 0) || (16 <? eta1 p)) eqn:Eeta1; [discriminate|].
  destruct ((eta2 p =? 0) || (16 <? eta2 p)) eqn:Eeta2; [discriminate|].
  intros _.
  repeat match goal with
         | H : (_ || _) = false |- _ => apply orb_false_iff in H as [? ?]
         | H : negb _ = false |- _ => apply negb_false_iff in H
         | H : (_ =? _) = false |- _ => apply Z.eqb_neq in H
         | H : (_ =? _) = true |- _ => apply Z.eqb_eq in H
         | H : (_ <? _) = false |- _ => apply Z.ltb_ge in H
         end.
  split.
  { destruct (security_level p =? 512) eqn:E5; [apply Z.eqb_eq in E5; auto|].
    destruct (security_level p =? 768) eqn:E7; [apply Z.eqb_eq in E7; auto|].
    destruct (security_level p =? 1024) eqn:E10; [apply Z.eqb_eq in E10; auto|].
    discriminate. }
  split.
  { match goal with
    | H : Z.land _ _ = 0 |- _ =>
        apply land_pred_zero_iff in H; [|lia]; destruct H as (k & Hk & Hpow)
    end.
    exists k. split; [|exact Hpow]. split; [lia|].
    destruct (Z_le_gt_dec k 13) as [|Hbig]; [assumption|]. exfalso.
    assert (2 ^ 14 <= 2 ^ k) by (apply Z.pow_le_mono_r; lia).
    change (2 ^ 14) with 16384 in *. lia. }
  split; [lia|].
  split.
  { destruct (is_prime_spec (modulus p) ltac:(lia)) as (b' & Hb' & Hiff).
    rewrite Eprime in Hb'. injection Hb' as <-.
    apply Hiff. subst b. reflexivity. }
  repeat split; lia.
Qed.

Lemma validate_complete p :
  acceptable p -> validate p = Some tt.
Proof.
  intros (Hlevel & (k & Hk & Hdeg) & Hrank & Hprime & Hmod & Heta1 & Heta2).
  unfold validate.
  assert (Elevel : negb (security_level p =? 512) && negb (security_level p =? 768)
                   && negb (security_level p =? 1024) = false).
  { destruct Hlevel as [-> | [ -> | -> ]]; reflexivity. }
  rewrite Elevel.
  assert (Hpos : 0 < 2 ^ k) by (apply Z.pow_pos_nonneg; lia).
  assert (Hle : 2 ^ k <= 2 ^ 13) by (apply Z.pow_le_mono_r; lia).
  change (2 ^ 13) with 8192 in Hle.
  assert (Edeg : (degree p =? 0)
                 || negb (Z.land (degree p) (u32 (degree p - 1)) =? 0)
                 || (8192 <? degree p) = false).
  { rewrite !orb_false_iff, negb_false_iff, Z.eqb_neq, Z.eqb_eq, Z.ltb_ge.
    rewrite Hdeg. repeat split; [lia| |lia].
    apply land_pred_zero_iff; [lia|]. exists k. split; [lia|reflexivity]. }
  rewrite Edeg.
  replace ((module_rank p =? 0) || (16 <? module_rank p)) with false
    by (symmetry; rewrite orb_false_iff, Z.eqb_neq, Z.ltb_ge; lia).
  destruct (is_prime_spec (modulus p) ltac:(lia)) as (b & Hb & Hiff).
  rewrite Hb. cbn [obind].
  replace b with true by (symmetry; now apply Hiff). cbn [negb orb].
  replace (modulus p <? 256) with false by (symmetry; apply Z.ltb_ge; lia).
  replace (65536 <? modulus p) with false by (symmetry; apply Z.ltb_ge; lia).
  cbn [orb].
  replace ((eta1 p =? 0) || (16 <? eta1 p)) with false
    by (symmetry; rewrite orb_false_iff, Z.eqb_neq, Z.ltb_ge; lia).
  replace ((eta2 p =? 0) || (16 <? eta2 p)) with false
    by (symmetry; rewrite orb_false_iff, Z.eqb_neq, Z.ltb_ge; lia).
  reflexivity.
Qed.

(** [validate] accepts exactly the parameter sets with an ML-KEM level,
    a degree that is a power of two up to 8192, a rank and noise
    parameters between 1 and 16, and a prime modulus between 256 and
    65536; so does the six-argument constructor. *)
Theorem validate_accepts_iff (p : CLWEParameters) :
  fields_u32 p ->
  (validate p = Some tt <-> acceptable p) /\
  (make_custom_parameters (security_level p) (degree p) (module_rank p)
                          (modulus p) (eta1 p) (eta2 p) = Some p
   <-> acceptable p).
Proof.
  intros Hu.
  assert (Hv : validate p = Some tt <-> acceptable p)
    by (split; [now apply validate_sound | apply validate_complete]).
  split; [exact Hv|].
  unfold make_custom_parameters. cbv zeta.
  replace (mkCLWEParameters (security_level p) (degree p) (module_rank p)
                            (modulus p) (eta1 p) (eta2 p))
    with p by (destruct p; reflexivity).
  destruct (validate p) as [[]|] eqn:E; cbn [obind].
  - split; [intros _; now apply Hv | reflexivity].
  - split; [discriminate|]. intros Hacc. apply Hv in Hacc. discriminate.
Qed.

Lemma validate_accepts_iff_witness :
  (validate (mkCLWEParameters 768 256 3 3329 2 2) = Some tt
   <-> acceptable (mkCLWEParameters 768 256 3 3329 2 2)) /\
  (make_custom_parameters 768 256 3 3329 2 2
   = Some (mkCLWEParameters 768 256 3 3329 2 2)
   <-> acceptable (mkCLWEParameters 768 256 3 3329 2 2)).
Proof.
  apply (validate_accepts_iff (mkCLWEParameters 768 256 3 3329 2 2)).
  unfold fields_u32, is_u32.
  cbn [security_level degree module_rank modulus eta1 eta2]. lia.
Defined.

End ClweFacts.

Module ColorPlatformFacts.
Import ColorIntegration ColorIntegrationFacts.

(** *** The vector codec is the polynomial codec on the concatenation *)

Lemma decode_loop_app data modulus a : forall b i,
  decode_loop data modulus (a + b) i
  = do x <- decode_loop data modulus a i;
    do y <- decode_loop data modulus b (i + 4 * a);
    Some (x ++ y).
Proof.
  induction a as [|a IH]; intros b i.
  - cbn [Nat.add decode_loop obind app]. rewrite Nat.add_0_r.
    now destruct (decode_loop data modulus b i).
  - cbn [Nat.add decode_loop].
    destruct (read_coeff data i) as [c|]; [|reflexivity]. cbn [obind].
    rewrite IH.
    replace (i + 4 + 4 * a)%nat with (i + 4 * S a)%nat by lia.
    destruct (decode_loop data modulus a (i + 4)) as [x|]; [|reflexivity].
    cbn [obind].
    destruct (decode_loop data modulus b (i + 4 * S a)) as [y|]; reflexivity.
Qed.

Lemma decode_row_is_loop data modulus n : forall idx,
  decode_row data modulus n idx
  = do row <- decode_loop data modulus n idx;
    Some (row, (idx + 4 * n)%nat).
Proof.
  induction n as [|n IH]; intros idx.
  - cbn. apply f_equal, f_equal. lia.
  - cbn [decode_row decode_loop].
    destruct (read_coeff data idx) as [c|]; [|reflexivity]. cbn [obind].
    rewrite IH.
    destruct (decode_loop data modulus n (idx + 4)) as [row|]; [|reflexivity].
    cbn [obind]. apply f_equal, f_equal. lia.
Qed.

Lemma decode_rows_is_loop data modulus n k : forall idx v,
  decode_rows data modulus k n idx = Some v ->
  decode_loop data modulus (k * n) idx = Some (concat v).
Proof.
  induction k as [|k IH]; intros idx v; cbn [decode_rows Nat.mul].
  - intros H. injection H as <-. reflexivity.
  - rewrite decode_row_is_loop, decode_loop_app.
    destruct (decode_loop data modulus n idx) as [row|]; [|discriminate].
    cbn [obind].
    destruct (decode_rows data modulus k n (idx + 4 * n)) as [rest|] eqn:Er;
      [|discriminate].
    cbn [obind]. intros H. injection H as <-.
    rewrite (IH _ _ Er). reflexivity.
Qed.

(** The vector functions are the polynomial functions applied to the
    rows laid end to end: encoding a vector is encoding the
    concatenation of its rows, and whatever the vector decoder returns
    is, concatenated, what the polynomial decoder returns for the same
    buffer. *)
Theorem color_vector_codec_is_flat (v : list (list Z)) (data : list Z)
  (k n : nat) (modulus : Z) :
  Z.of_nat k * Z.of_nat n * 4 < 2 ^ 32 ->
  encode_polynomial_vector_as_colors v modulus
  = encode_polynomial_as_colors (concat v) modulus /\
  (decode_colors_to_polynomial_vector data k n modulus = Some v ->
   decode_colors_to_polynomial data modulus = Some (concat v)).
Proof.
  intros Hsize. split.
  - rewrite encode_vec_flat_map, encode_poly_flat_map.
    induction v as [|p v IH]; [reflexivity|].
    cbn [flat_map concat]. rewrite flat_map_app, IH, encode_poly_flat_map.
    reflexivity.
  - unfold decode_colors_to_polynomial_vector, decode_colors_to_polynomial.
    unfold u32. rewrite Z.mod_small by lia.
    destruct (Z.of_nat (length data) =? Z.of_nat k * Z.of_nat n * 4) eqn:E;
      cbn [negb]; [|discriminate].
    apply Z.eqb_eq in E.
    assert (Hlen : length data = (k * n * 4)%nat) by lia.
    rewrite Hlen, Nat.Div0.mod_mul, Nat.div_mul by lia. cbn [Nat.eqb negb].
    apply decode_rows_is_loop.
Qed.

Lemma color_vector_codec_is_flat_witness :
  encode_polynomial_vector_as_colors [[1; 2]; [3; 4]] 8380417
  = encode_polynomial_as_colors (concat [[1; 2]; [3; 4]]) 8380417 /\
  (decode_colors_to_polynomial_vector
     [0; 0; 0; 1; 0; 0; 0; 2; 0; 0; 0; 3; 0; 0; 0; 4] 2 2 8380417
   = Some [[1; 2]; [3; 4]] ->
   decode_colors_to_polynomial
     [0; 0; 0; 1; 0; 0; 0; 2; 0; 0; 0; 3; 0; 0; 0; 4] 8380417
   = Some (concat [[1; 2]; [3; 4]])).
Proof. apply (color_vector_codec_is_flat _ _ 2 2). reflexivity. Defined.

(** *** The macOS copy *)

Lemma mac_reduce modulus c :
  modulus <> 0 -> ColorIntegrationMac.reduce modulus c = Some (reduce modulus c).
Proof.
  intros Hm. unfold ColorIntegrationMac.reduce, reduce.
  now replace (modulus =? 0) with false by (symmetry; now apply Z.eqb_neq).
Qed.

Lemma mac_encode_poly modulus poly : forall acc,
  modulus <> 0 ->
  fold_left
    (fun acc coeff =>
       do color_data <- acc;
       do coeff <- ColorIntegrationMac.reduce modulus coeff;
       Some (color_data ++ rgba coeff))
    poly (Some acc)
  = Some (acc ++ flat_map (fun c => rgba (reduce modulus c)) poly).
Proof.
  intros acc Hm. revert acc.
  induction poly as [|c poly IH]; intros acc; cbn [fold_left flat_map obind].
  - now rewrite app_nil_r.
  - rewrite mac_reduce by assumption. cbn [obind].
    rewrite IH, app_assoc. reflexivity.
Qed.

Lemma mac_encode_vec modulus v : forall acc,
  modulus <> 0 ->
  fold_left
    (fun acc poly =>
       do color_data <- acc;
       do poly_colors <- ColorIntegrationMac.encode_polynomial_as_colors poly modulus;
       Some (color_data ++ poly_colors))
    v (Some acc)
  = Some (acc ++ flat_map (fun p => encode_polynomial_as_colors p modulus) v).
Proof.
  intros acc Hm. revert acc.
  induction v as [|p v IH]; intros acc; cbn [fold_left flat_map obind].
  - now rewrite app_nil_r.
  - unfold ColorIntegrationMac.encode_polynomial_as_colors.
    rewrite mac_encode_poly by assumption. cbn [obind app].
    rewrite IH, app_assoc, encode_poly_flat_map. reflexivity.
Qed.

Lemma mac_decode_loop data modulus count : forall i,
  modulus <> 0 ->
  ColorIntegrationMac.decode_loop data modulus count i = decode_loop data modulus count i.
Proof.
  induction count as [|count IH]; intros i Hm; [reflexivity|].
  cbn [ColorIntegrationMac.decode_loop decode_loop].
  destruct (read_coeff data i) as [c|]; [|reflexivity]. cbn [obind].
  rewrite mac_reduce by assumption. cbn [obind]. now rewrite IH.
Qed.

Lemma mac_decode_row data modulus n : forall idx,
  modulus <> 0 ->
  ColorIntegrationMac.decode_row data modulus n idx = decode_row data modulus n idx.
Proof.
  induction n as [|n IH]; intros idx Hm; [reflexivity|].
  cbn [ColorIntegrationMac.decode_row decode_row].
  destruct (read_coeff data idx) as [c|]; [|reflexivity]. cbn [obind].
  rewrite mac_reduce by assumption. cbn [obind]. now rewrite IH.
Qed.

Lemma mac_decode_rows data modulus n k : forall idx,
  modulus <> 0 ->
  ColorIntegrationMac.decode_rows data modulus k n idx = decode_rows data modulus k n idx.
Proof.
  induction k as [|k IH]; intros idx Hm; [reflexivity|].
  cbn [ColorIntegrationMac.decode_rows decode_rows]. rewrite mac_decode_row by assumption.
  destruct (decode_row data modulus n idx) as [[row idx']|]; [|reflexivity].
  cbn [obind]. now rewrite IH.
Qed.

(** For a modulus that is not 0 the macOS copy of the codec computes
    what the Windows copy computes, in all four functions. *)
Theorem color_platforms_agree (modulus : Z) (poly : list Z)
  (v : list (list Z)) (data : list Z) (k n : nat) :
  modulus <> 0 ->
  ColorIntegrationMac.encode_polynomial_as_colors poly modulus
  = Some (encode_polynomial_as_colors poly modulus) /\
  ColorIntegrationMac.decode_colors_to_polynomial data modulus
  = decode_colors_to_polynomial data modulus /\
  ColorIntegrationMac.encode_polynomial_vector_as_colors v modulus
  = Some (encode_polynomial_vector_as_colors v modulus) /\
  ColorIntegrationMac.decode_colors_to_polynomial_vector data k n modulus
  = decode_colors_to_polynomial_vector data k n modulus.
Proof.
  intros Hm. repeat split.
  - unfold ColorIntegrationMac.encode_polynomial_as_colors.
    rewrite mac_encode_poly by assumption. now rewrite encode_poly_flat_map.
  - unfold ColorIntegrationMac.decode_colors_to_polynomial, decode_colors_to_polynomial.
    now rewrite mac_decode_loop by assumption.
  - unfold ColorIntegrationMac.encode_polynomial_vector_as_colors.
    rewrite mac_encode_vec by assumption. now rewrite encode_vec_flat_map.
  - unfold ColorIntegrationMac.decode_colors_to_polynomial_vector,
      decode_colors_to_polynomial_vector.
    now rewrite mac_decode_rows by assumption.
Qed.

Lemma color_platforms_agree_witness :
  ColorIntegrationMac.encode_polynomial_as_colors [1; 2] 8380417
  = Some (encode_polynomial_as_colors [1; 2] 8380417) /\
  ColorIntegrationMac.decode_colors_to_polynomial [0; 0; 0; 1] 8380417
  = decode_colors_to_polynomial [0; 0; 0; 1] 8380417 /\
  ColorIntegrationMac.encode_polynomial_vector_as_colors [[1]; [2]] 8380417
  = Some (encode_polynomial_vector_as_colors [[1]; [2]] 8380417) /\
  ColorIntegrationMac.decode_colors_to_polynomial_vector [0; 0; 0; 1] 1 1 8380417
  = decode_colors_to_polynomial_vector [0; 0; 0; 1] 1 1 8380417.
Proof. apply color_platforms_agree. lia. Defined.

Lemma mac_fold_none {A : Type} (f : option (list Z) -> A -> option (list Z))
  (l : list A) :
  (forall x, f None x = None) -> fold_left f l None = None.
Proof.
  intros Hf. induction l as [|x l IH]; [reflexivity|].
  cbn [fold_left]. now rewrite Hf.
Qed.

(** With modulus 0, where the Windows copy passes the coefficients
    through unreduced, the macOS copy divides by zero as soon as there
    is a coefficient to encode, or a buffer of whole pixels (a length
    that is a multiple of 4, and not 0) to decode: such a buffer passes
    the size check, its first four bytes are read, and the reduction of
    that coefficient is what fails; with any other modulus the same
    buffer decodes. *)
Theorem color_mac_divides_by_zero (poly : list Z) (data : list Z) :
  (poly <> [] -> ColorIntegrationMac.encode_polynomial_as_colors poly 0 = None) /\
  (data <> [] -> (length data mod 4 = 0)%nat ->
   ColorIntegrationMac.decode_colors_to_polynomial data 0 = None /\
   (exists coeff, read_coeff data 0 = Some coeff /\
                  ColorIntegrationMac.reduce 0 coeff = None) /\
   (forall modulus, modulus <> 0 ->
      ColorIntegrationMac.decode_colors_to_polynomial data modulus <> None)) /\
  encode_polynomial_as_colors poly 0 = flat_map rgba poly.
Proof.
  split; [|split].
  - intros Hne. destruct poly as [|c poly]; [congruence|].
    unfold ColorIntegrationMac.encode_polynomial_as_colors. cbn [fold_left obind ColorIntegrationMac.reduce Z.eqb].
    apply mac_fold_none. reflexivity.
  - intros Hne Hmod.
    pose proof (Nat.div_mod_eq (length data) 4) as Hdiv.
    assert (Hlen : (4 <= length data)%nat).
    { destruct data as [|b data]; [congruence|]. cbn [length] in *. lia. }
    destruct (read_coeff_in_bounds data 0 ltac:(lia)) as [c Hc].
    unfold ColorIntegrationMac.decode_colors_to_polynomial.
    rewrite Hmod. cbn [Nat.eqb negb].
    split; [|split].
    + assert (Hq : (1 <= length data / 4)%nat)
        by (apply Nat.div_le_lower_bound; lia).
      destruct (length data / 4)%nat as [|count]; [lia|].
      cbn [ColorIntegrationMac.decode_loop]. rewrite Hc. reflexivity.
    + exists c. split; [exact Hc|reflexivity].
    + intros modulus Hm. rewrite mac_decode_loop by assumption.
      destruct (decode_loop_in_bounds data modulus (length data / 4) 0 ltac:(lia))
        as (p & Hp & _).
      rewrite Hp. discriminate.
  - rewrite encode_poly_flat_map. apply flat_map_ext. intros c. reflexivity.
Qed.

End ColorPlatformFacts.

Module EdgeFacts.
Import Utils SpongeFacts SamplerFacts CbdFacts ChallengeFacts.

(** *** Negative binomial samples *)

Lemma store_binomial_negative coeff :
  - 4193792 <= coeff < 0 ->
  store_binomial coeff 8380417 = 4193792 + coeff.
Proof.
  intros Hc. unfold store_binomial, u32.
  replace (coeff mod 2 ^ 32) with (coeff + 2 ^ 32)
    by (apply Z.mod_unique with (-1); lia).
  replace ((coeff + 2 ^ 32) mod 8380417) with (4193792 + coeff)
    by (apply Z.mod_unique with 512; lia).
  rewrite (Z.mod_small (4193792 + coeff + 8380417) (2 ^ 32)) by lia.
  symmetry. apply Z.mod_unique with 1; lia.
Qed.

(** [coeff % modulus] is computed in [uint32_t], so a negative sample
    [d] enters the reduction as 2^32 + d: for q = 8380417 coefficient
    [i] is stored as 4193792 + d, not as q + d. *)
Theorem cbd_stores_negative_samples_shifted (s : Sampler) (degree eta i : nat) :
  Z.of_nat eta <= 4193792 -> (i < degree)%nat ->
  fst (sample_binomial_coefficient (after 1 s (2 * eta * i)) eta) < 0 ->
  nth i (fst (sample_polynomial_binomial s degree eta 8380417)) 0
  = 4193792 + fst (sample_binomial_coefficient (after 1 s (2 * eta * i)) eta) /\
  nth i (fst (sample_polynomial_binomial s degree eta 8380417)) 0
  <> 8380417 + fst (sample_binomial_coefficient (after 1 s (2 * eta * i)) eta).
Proof.
  intros Heta Hi.
  assert (Heta30 : Z.of_nat eta < 2 ^ 30)
    by (apply Z.le_lt_trans with 4193792; [assumption|reflexivity]).
  rewrite sample_binomial_coefficient_sum by assumption. cbn [fst].
  rewrite !sum_low_bits_after, Nat.add_0_r.
  change (sum_low_bits s (2 * eta * i) eta - sum_low_bits s (2 * eta * i + eta) eta)
    with (drawn s eta i).
  intros Hneg.
  rewrite sample_polynomial_binomial_draws by assumption. cbn [fst].
  rewrite (nth_indep _ 0 (store_binomial (drawn s eta 0) 8380417))
    by (rewrite length_map, length_seq; exact Hi).
  rewrite (map_nth (fun i => store_binomial (drawn s eta i) 8380417)
                   (seq 0 degree) O i).
  rewrite seq_nth by exact Hi. cbn [Nat.add].
  pose proof (drawn_range s eta i) as Hr.
  rewrite store_binomial_negative by lia. lia.
Qed.

Lemma cbd_stores_negative_samples_shifted_witness :
  nth 0 (fst (sample_polynomial_binomial secret_stream 1 4 8380417)) 0
  = 4193792
    + fst (sample_binomial_coefficient (after 1 secret_stream (2 * 4 * 0)) 4) /\
  nth 0 (fst (sample_polynomial_binomial secret_stream 1 4 8380417)) 0
  <> 8380417
     + fst (sample_binomial_coefficient (after 1 secret_stream (2 * 4 * 0)) 4).
Proof.
  apply (cbd_stores_negative_samples_shifted secret_stream 1 4 0).
  - cbn. lia.
  - lia.
  - vm_compute. reflexivity.
Defined.

(** *** Modulus 0 *)

Lemma sample_uniform_loop_zero fuel : forall s bits,
  sample_uniform_loop fuel s bits 0 = None.
Proof.
  induction fuel as [|fuel IH]; intros s bits; [reflexivity|].
  cbn [sample_uniform_loop].
  destruct (squeeze s 4) as [bytes s1].
  pose proof (uniform_candidate_nonneg bytes bits) as Hc.
  replace (uniform_candidate bytes bits <? 0) with false
    by (symmetry; apply Z.ltb_ge; exact Hc).
  apply IH.
Qed.

Lemma shuffle_loop_runs_out fuel n count : forall s positions i,
  (i <= n)%nat -> (n < i + count)%nat -> Z.of_nat n < 2 ^ 32 ->
  shuffle_loop fuel s positions (Z.of_nat n) i count = None.
Proof.
  induction count as [|count IH]; intros s positions i Hi Hn Hsize; [lia|].
  cbn [shuffle_loop].
  destruct (Nat.eq_dec i n) as [->|Hne].
  - replace (u32 (Z.of_nat n - Z.of_nat n)) with 0
      by (rewrite Z.sub_diag; reflexivity).
    unfold sample_uniform. rewrite sample_uniform_loop_zero. reflexivity.
  - destruct (sample_uniform fuel s (u32 (Z.of_nat n - Z.of_nat i)))
      as [[r s1]|]; [|reflexivity].
    cbn [obind]. apply IH; lia.
Qed.

(** No candidate is below 0: [sample_uniform(0)] rejects every attempt
    and never returns.  [sample_challenge] asks for
    [sample_uniform(n - i)] with [i] up to [tau - 1], so it never
    returns when [tau] exceeds [n]. *)
Theorem sample_challenge_needs_tau_at_most_n
  (fuel : nat) (s : Sampler) (c seed : list Z) (tau n : nat) (q : Z) :
  sample_uniform fuel s 0 = None /\
  ((n < tau)%nat -> Z.of_nat n < 2 ^ 32 ->
   sample_challenge fuel c seed tau n q = None).
Proof.
  split.
  - unfold sample_uniform. apply sample_uniform_loop_zero.
  - intros Hn Hsize. unfold sample_challenge. cbv zeta.
    rewrite shuffle_loop_runs_out by (try assumption; lia). reflexivity.
Qed.

End EdgeFacts.
